(** * The mastering signal chain of [mastering_engine.py]

    A shallow embedding of [MasteringEngine] and of its seven-stage
    pipeline, with the properties of the chain stated and proved on it.

    Numbers.  The engine computes on [numpy] arrays of double precision
    floats.  Samples are modelled here by the real numbers of the Standard
    Library: every arithmetic operation of the source is its exact
    counterpart ([10**x] is [Rpower 10 x], [np.exp] is [exp], [np.log10]
    is [ln x / ln 10]), so rounding is not part of the model.  The
    non-finite floats matter for one function only, [_validate_input],
    whose argument is therefore a list of [sample]s.

    Exceptions are values of [result]; the one method that mutates the
    engine ([_apply_multiband_eq]) and its caller thread the engine
    explicitly.  The analysis of [librosa] is a parameter of the model: a
    function that returns the mean spectral centroid or raises. *)

From Stdlib Require Import String.
From Stdlib Require Import QArith Qreals.
From Stdlib Require Import Reals Lra Lia ZArith Bool List.
Import ListNotations.

Open Scope R_scope.

(** ** Exceptions *)

Inductive exn : Type :=
| ValueError (msg : string)
| IndexError (msg : string)
| ZeroDivisionError (msg : string)
| LinAlgError (msg : string).

Inductive result (A : Type) : Type :=
| Ok (a : A)
| Raise (e : exn).

Arguments Ok {A} a.
Arguments Raise {A} e.

Definition bind {A B : Type} (m : result A) (k : A -> result B) : result B :=
  match m with
  | Ok a => k a
  | Raise e => Raise e
  end.

Notation "x <- m ;; k" := (bind m (fun x => k))
  (at level 61, m at next level, right associativity).

(** A loop whose body may raise: the bodies run in order and the first
    exception ends the loop. *)
Fixpoint mapM {A B : Type} (f : A -> result B) (l : list A) : result (list B) :=
  match l with
  | [] => Ok []
  | a :: l' => b <- f a ;; bs <- mapM f l' ;; Ok (b :: bs)
  end.

(** ** The pieces of Python and numpy the engine uses *)

Module Py.

(** [int(x)] on a float: truncation toward zero. *)
Definition int (x : R) : Z :=
  if Rle_dec 0 x then Int_part x else (- Int_part (- x))%Z.

(** [a / b] on two Python integers. *)
Definition true_div (a b : Z) : result R :=
  if (b =? 0)%Z then Raise (ZeroDivisionError "division by zero")
  else Ok (IZR a / IZR b).

(** [a / b] on Python floats (or a float and an integer). *)
Definition float_div (a b : R) : result R :=
  if Req_dec_T b 0 then Raise (ZeroDivisionError "float division by zero")
  else Ok (a / b).

(** A slice bound [k] of a sequence of length [n], as Python clips it. *)
Definition clip (n k : Z) : nat :=
  Z.to_nat (if (k <? 0)%Z then Z.max (k + n) 0 else Z.min k n).

(** [l[start:stop]]. *)
Definition slice {A : Type} (start stop : Z) (l : list A) : list A :=
  let n := Z.of_nat (length l) in
  let i := clip n start in
  let j := clip n stop in
  firstn (j - i) (skipn i l).

(** [l[start:]] and [l[:stop]]. *)
Definition slice_from {A : Type} (start : Z) (l : list A) : list A :=
  skipn (clip (Z.of_nat (length l)) start) l.

Definition slice_to {A : Type} (stop : Z) (l : list A) : list A :=
  firstn (clip (Z.of_nat (length l)) stop) l.

End Py.

Module Np.

(** A double as [_validate_input] sees it. *)
Inductive sample : Type :=
| Finite (x : R)
| NaN
| PosInf
| NegInf.

(** [np.nan_to_num(audio, nan=0.0, posinf=0.0, neginf=0.0)]. *)
Definition nan_to_num1 (s : sample) : R :=
  match s with
  | Finite x => x
  | NaN | PosInf | NegInf => 0
  end.

Definition nan_to_num (audio : list sample) : list R := map nan_to_num1 audio.

Definition abs (audio : list R) : list R := map Rabs audio.

(** [np.max]: raises on an array without elements. *)
Definition max (l : list R) : result R :=
  match l with
  | [] => Raise (ValueError "zero-size array to reduction operation maximum which has no identity")
  | x :: l' => Ok (fold_left Rmax l' x)
  end.

Definition sum (l : list R) : R := fold_right Rplus 0 l.

(** [np.mean] of a one-dimensional array. *)
Definition mean (l : list R) : R := sum l / INR (length l).

(** [a * c] and [a / c] with a scalar [c]. *)
Definition scale (c : R) (a : list R) : list R := map (fun x => x * c) a.

Definition log10 (x : R) : R := ln x / ln 10.

End Np.

(** ** The engine *)

(** One entry of [eq_params]. *)
Record Band : Type := mkBand { freq : R; gain : R; q : R }.

(** [eq_params]: a dictionary with the five fixed keys below. *)
Record EqParams : Type := mkEq {
  low_shelf : Band;
  low_mid : Band;
  mid : Band;
  high_mid : Band;
  high_shelf : Band
}.

Record CompressorParams : Type := mkComp {
  c_threshold : R;   (* dB *)
  c_ratio : R;
  c_attack : R;      (* seconds *)
  c_release : R;     (* seconds *)
  c_knee : R;        (* dB *)
  c_makeup_gain : R  (* dB *)
}.

Record LimiterParams : Type := mkLim {
  l_threshold : R;   (* dBFS *)
  l_release : R;     (* seconds *)
  l_lookahead : R    (* seconds *)
}.

Record MasteringEngine : Type := mkEngine {
  target_lufs : R;
  target_peak : R;
  sample_rate : R;
  eq_params : EqParams;
  compressor_params : CompressorParams;
  limiter_params : LimiterParams
}.

Definition _init_eq_params : EqParams :=
  {| low_shelf := mkBand 100 0.0 0.7;
     low_mid := mkBand 250 0.0 0.8;
     mid := mkBand 1000 0.0 1.0;
     high_mid := mkBand 4000 0.0 0.8;
     high_shelf := mkBand 8000 0.0 0.7 |}.

Definition _init_compressor_params : CompressorParams :=
  {| c_threshold := -18.0;
     c_ratio := 2.5;
     c_attack := 0.01;
     c_release := 0.1;
     c_knee := 3.0;
     c_makeup_gain := 2.0 |}.

Definition _init_limiter_params : LimiterParams :=
  {| l_threshold := -0.5;
     l_release := 0.005;
     l_lookahead := 0.002 |}.

(** [MasteringEngine(target_lufs, target_peak)]. *)
Definition __init__ (target_lufs target_peak : R) : MasteringEngine :=
  {| target_lufs := target_lufs;
     target_peak := target_peak;
     sample_rate := 22050;
     eq_params := _init_eq_params;
     compressor_params := _init_compressor_params;
     limiter_params := _init_limiter_params |}.

(** [10**(db/20)]. *)
Definition db_to_linear (db : R) : R := Rpower 10 (db / 20).

(** ** Stage 6: the limiter *)

(** [np.exp(-1/samples)] for an integer count of samples. *)
Definition smoothing_coefficient (samples : Z) : result R :=
  x <- Py.true_div (-1) samples ;; Ok (exp x).

(** The body of the loop of [_apply_limiting] at index [i]: the value of
    [limited[i]] when the loop is done. *)
Definition limit_at (threshold : R) (release_samples lookahead_samples : Z)
    (audio : list R) (i : nat) : result R :=
  let look_ahead_end :=
    Z.min (Z.of_nat i + lookahead_samples) (Z.of_nat (length audio)) in
  current_peak <- Np.max (Np.abs (Py.slice (Z.of_nat i) look_ahead_end audio)) ;;
  if Rlt_dec threshold current_peak then
    let gain_reduction := threshold / current_peak in
    gain_reduction <-
      (if (0 <? i)%nat then
         alpha <- smoothing_coefficient release_samples ;;
         Ok (alpha * gain_reduction + (1 - alpha) * 1.0)
       else Ok gain_reduction) ;;
    Ok (nth i audio 0 * gain_reduction)
  else Ok (nth i audio 0).

Definition _apply_limiting (self : MasteringEngine) (audio : list R)
    : result (list R) :=
  let params := limiter_params self in
  let threshold := db_to_linear (l_threshold params) in
  let release_samples := Py.int (l_release params * sample_rate self) in
  let lookahead_samples := Py.int (l_lookahead params * sample_rate self) in
  mapM (limit_at threshold release_samples lookahead_samples audio)
       (seq 0 (length audio)).

(** ** [scipy.signal.filtfilt] on second-order sections

    Every call of the engine passes three numerator and three denominator
    coefficients and leaves [padtype], [padlen] and [method] at their
    defaults: the signal is extended at both ends by [3 * 3 = 9] samples
    reflected through the end points, filtered forward from the steady
    state of the step response scaled by the first sample, filtered again
    backward, and the extension is cut off.  A signal of at most [9]
    samples is refused.

    The arithmetic is kept abstract in the number type so that the same
    function runs on rationals and is reasoned about on reals. *)

Module Signal.

Record Ops (F : Type) : Type := mkOps {
  zero : F;
  one : F;
  add : F -> F -> F;
  sub : F -> F -> F;
  mul : F -> F -> F;
  div : F -> F -> F;
  is_zero : F -> bool
}.

Arguments zero {F} _.
Arguments one {F} _.
Arguments add {F} _ _ _.
Arguments sub {F} _ _ _.
Arguments mul {F} _ _ _.
Arguments div {F} _ _ _.
Arguments is_zero {F} _ _.

(** A list of three filter coefficients. *)
Record Taps (F : Type) : Type := mkTaps { t0 : F; t1 : F; t2 : F }.

Arguments mkTaps {F} _ _ _.
Arguments t0 {F} _.
Arguments t1 {F} _.
Arguments t2 {F} _.

Section Kernel.

Context {F : Type} (O : Ops F).

Local Notation "x + y" := (add O x y).
Local Notation "x - y" := (sub O x y).
Local Notation "x * y" := (mul O x y).
Local Notation "x / y" := (div O x y).

(** Both coefficient lists divided by [a[0]]. *)
Definition normalize (a0 : F) (t : Taps F) : Taps F :=
  mkTaps (t0 t / a0) (t1 t / a0) (t2 t / a0).

(** The difference equation in transposed direct form II, on
    normalized coefficients, from the state [(z0, z1)]. *)
Fixpoint lfilter_from (b a : Taps F) (z0 z1 : F) (x : list F) : list F :=
  match x with
  | [] => []
  | xn :: x' =>
      let yn := t0 b * xn + z0 in
      let z0' := (t1 b * xn + z1) - t1 a * yn in
      let z1' := t2 b * xn - t2 a * yn in
      yn :: lfilter_from b a z0' z1' x'
  end.

(** [lfilter(b, a, x, zi=(z0, z1))], the filtered signal. *)
Definition lfilter (b a : Taps F) (z0 z1 : F) (x : list F) : list F :=
  lfilter_from (normalize (t0 a) b) (normalize (t0 a) a) z0 z1 x.

(** [lfilter_zi(b, a)]: the solution [zi] of [zi = A zi + B] for the
    companion matrix [A] of the normalized denominator.  [I - A] is
    [[1 + a1, -1], [a2, 1]], of determinant [1 + a1 + a2];
    [np.linalg.solve] raises on a singular matrix. *)
Definition lfilter_zi (b a : Taps F) : result (F * F) :=
  let b := normalize (t0 a) b in
  let a := normalize (t0 a) a in
  let B0 := t1 b - t1 a * t0 b in
  let B1 := t2 b - t2 a * t0 b in
  let det := (one O + t1 a) + t2 a in
  if is_zero O det then Raise (LinAlgError "Singular matrix")
  else
    let zi0 := (B0 + B1) / det in
    Ok (zi0, B1 - t2 a * zi0).

Definition two : F := one O + one O.

(** [odd_ext(x, n)] for [n < len(x)]. *)
Definition odd_ext (x : list F) (n : nat) : list F :=
  let left_end := hd (zero O) x in
  let right_end := hd (zero O) (rev x) in
  map (fun v => two * left_end - v) (rev (firstn n (tl x)))
    ++ x
    ++ map (fun v => two * right_end - v) (firstn n (tl (rev x))).

Definition edge : nat := 3 * 3.

Definition filtfilt (b a : Taps F) (x : list F) : result (list F) :=
  if (length x <=? edge)%nat then
    Raise (ValueError
             "The length of the input vector x must be greater than padlen, which is 9.")
  else
    let ext := odd_ext x edge in
    zi <- lfilter_zi b a ;;
    let (zi0, zi1) := zi in
    let x0 := hd (zero O) ext in
    let y := lfilter b a (zi0 * x0) (zi1 * x0) ext in
    let y0 := hd (zero O) (rev y) in
    let y := lfilter b a (zi0 * y0) (zi1 * y0) (rev y) in
    let y := rev y in
    Ok (firstn (length y - edge - edge) (skipn edge y)).

End Kernel.

Definition R_ops : Ops R :=
  mkOps R 0 1 Rplus Rminus Rmult Rdiv
        (fun x => if Req_dec_T x 0 then true else false).

End Signal.

(** [signal.filtfilt(b, a, audio)] on the engine's samples. *)
Definition filtfilt (b a : Signal.Taps R) (audio : list R) : result (list R) :=
  Signal.filtfilt Signal.R_ops b a audio.

Definition taps (c0 c1 c2 : R) : Signal.Taps R := Signal.mkTaps c0 c1 c2.

(** The elementwise combination of two arrays of one shape. *)
Fixpoint zip_with {A B C : Type} (f : A -> B -> C) (l : list A) (l' : list B)
    : list C :=
  match l, l' with
  | a :: l, b :: l' => f a b :: zip_with f l l'
  | _, _ => []
  end.

(** ** Stage 1: validation *)

Definition _validate_input (audio : list Np.sample) : result (list R) :=
  let audio := Np.nan_to_num audio in
  m <- Np.max (Np.abs audio) ;;
  if Rlt_dec m 1e-10 then Raise (ValueError "Input audio is silent")
  else
    peak <- Np.max (Np.abs audio) ;;
    if Rlt_dec 1.0 peak then Ok (map (fun x => x / peak * 0.95) audio)
    else Ok audio.

(** ** Stage 2: the equalizer *)

Definition set_gain (g : R) (b : Band) : Band := mkBand (freq b) g (q b).

Definition set_low_mid (g : R) (e : EqParams) : EqParams :=
  mkEq (low_shelf e) (set_gain g (low_mid e)) (mid e) (high_mid e) (high_shelf e).

Definition set_high_mid (g : R) (e : EqParams) : EqParams :=
  mkEq (low_shelf e) (low_mid e) (mid e) (set_gain g (high_mid e)) (high_shelf e).

Definition set_high_shelf (g : R) (e : EqParams) : EqParams :=
  mkEq (low_shelf e) (low_mid e) (mid e) (high_mid e) (set_gain g (high_shelf e)).

Definition set_eq_params (e : EqParams) (self : MasteringEngine) : MasteringEngine :=
  mkEngine (target_lufs self) (target_peak self) (sample_rate self) e
           (compressor_params self) (limiter_params self).

(** The assignments of [_apply_multiband_eq] to [self.eq_params], from the
    mean spectral centroid of the buffer. *)
Definition retune (avg_centroid : R) (e : EqParams) : EqParams :=
  if Rlt_dec avg_centroid 1000 then set_high_shelf 2.0 (set_high_mid 1.5 e)
  else if Rlt_dec 4000 avg_centroid then set_low_mid 1.0 e
  else e.

Definition _apply_low_shelf (self : MasteringEngine) (audio : list R)
    (sample_rate : R) : result (list R) :=
  let freq := freq (low_shelf (eq_params self)) in
  let gain := gain (low_shelf (eq_params self)) in
  if Rlt_dec 0.1 (Rabs gain) then
    w0 <- Py.float_div (2 * PI * freq) sample_rate ;;
    let A := Rpower 10 (gain / 40) in
    let alpha := sin w0 / 2 * sqrt ((A + 1 / A) * (1 / 0.7 - 1) + 2) in
    let b0 := A * ((A + 1) - (A - 1) * cos w0 + 2 * sqrt A * alpha) in
    let b1 := 2 * A * ((A - 1) - (A + 1) * cos w0) in
    let b2 := A * ((A + 1) - (A - 1) * cos w0 - 2 * sqrt A * alpha) in
    let a0 := (A + 1) + (A - 1) * cos w0 + 2 * sqrt A * alpha in
    let a1 := -2 * ((A - 1) + (A + 1) * cos w0) in
    let a2 := (A + 1) + (A - 1) * cos w0 - 2 * sqrt A * alpha in
    filtfilt (taps (b0 / a0) (b1 / a0) (b2 / a0)) (taps 1 (a1 / a0) (a2 / a0)) audio
  else Ok audio.

Definition _peaking_filter (audio : list R) (sample_rate : R) (params : Band)
    : result (list R) :=
  let freq := freq params in
  let gain := gain params in
  let q := q params in
  w0 <- Py.float_div (2 * PI * freq) sample_rate ;;
  let A := Rpower 10 (gain / 40) in
  let alpha := sin w0 / (2 * q) in
  let b0 := 1 + alpha * A in
  let b1 := -2 * cos w0 in
  let b2 := 1 - alpha * A in
  let a0 := 1 + alpha / A in
  let a1 := -2 * cos w0 in
  let a2 := 1 - alpha / A in
  filtfilt (taps (b0 / a0) (b1 / a0) (b2 / a0)) (taps 1 (a1 / a0) (a2 / a0)) audio.

(** One round of the loop of [_apply_peaking_filters]. *)
Definition peaking_band (sample_rate : R) (params : Band) (audio : list R)
    : result (list R) :=
  if Rlt_dec 0.1 (Rabs (gain params)) then _peaking_filter audio sample_rate params
  else Ok audio.

Definition _apply_peaking_filters (self : MasteringEngine) (audio : list R)
    (sample_rate : R) : result (list R) :=
  audio <- peaking_band sample_rate (low_mid (eq_params self)) audio ;;
  audio <- peaking_band sample_rate (mid (eq_params self)) audio ;;
  peaking_band sample_rate (high_mid (eq_params self)) audio.

Definition _apply_high_shelf (self : MasteringEngine) (audio : list R)
    (sample_rate : R) : result (list R) :=
  let freq := freq (high_shelf (eq_params self)) in
  let gain := gain (high_shelf (eq_params self)) in
  if Rlt_dec 0.1 (Rabs gain) then
    w0 <- Py.float_div (2 * PI * freq) sample_rate ;;
    let A := Rpower 10 (gain / 40) in
    let alpha := sin w0 / 2 * sqrt ((A + 1 / A) * (1 / 0.7 - 1) + 2) in
    let b0 := A * ((A + 1) + (A - 1) * cos w0 + 2 * sqrt A * alpha) in
    let b1 := -2 * A * ((A - 1) + (A + 1) * cos w0) in
    let b2 := A * ((A + 1) + (A - 1) * cos w0 - 2 * sqrt A * alpha) in
    let a0 := (A + 1) - (A - 1) * cos w0 + 2 * sqrt A * alpha in
    let a1 := 2 * ((A - 1) - (A + 1) * cos w0) in
    let a2 := (A + 1) - (A - 1) * cos w0 - 2 * sqrt A * alpha in
    filtfilt (taps (b0 / a0) (b1 / a0) (b2 / a0)) (taps 1 (a1 / a0) (a2 / a0)) audio
  else Ok audio.

(** ** Stage 3: the compressor *)

(** The loop that fills [smoothed_envelope[1:]], from the previous smoothed
    value. *)
Fixpoint smooth (alpha_attack alpha_release prev : R) (envelope : list R)
    : list R :=
  match envelope with
  | [] => []
  | e :: envelope' =>
      let s :=
        if Rlt_dec prev e then alpha_attack * prev + (1 - alpha_attack) * e
        else alpha_release * prev + (1 - alpha_release) * e in
      s :: smooth alpha_attack alpha_release s envelope'
  end.

(** [smoothed_envelope]; the assignment to its index [0] needs a sample. *)
Definition smoothed_envelope (alpha_attack alpha_release : R) (envelope : list R)
    : result (list R) :=
  match envelope with
  | [] => Raise (IndexError "index 0 is out of bounds for axis 0 with size 0")
  | e0 :: envelope' => Ok (e0 :: smooth alpha_attack alpha_release e0 envelope')
  end.

(** One element of [gain_reduction], from the element [env] of the smoothed
    envelope: the array of ones overwritten by the two [np.where]. *)
Definition gain_reduction_at (threshold ratio knee env : R) : R :=
  let gain_reduction := 1 in
  let above_threshold := if Rlt_dec threshold env then true else false in
  let below_knee := if Rlt_dec env (threshold / knee) then true else false in
  let hard_compressed := (env - threshold) / ratio + threshold in
  let knee_region := negb below_knee && negb above_threshold in
  let soft_compressed :=
    env + (1 / ratio - 1) * (env - threshold) ^ 2 / (2 * threshold * (knee - 1)) in
  let gain_reduction :=
    if above_threshold then hard_compressed / env else gain_reduction in
  let gain_reduction :=
    if knee_region then soft_compressed / env else gain_reduction in
  gain_reduction.

Definition _apply_compression (self : MasteringEngine) (audio : list R)
    : result (list R) :=
  let params := compressor_params self in
  let threshold := db_to_linear (c_threshold params) in
  let ratio := c_ratio params in
  let attack_samples := Py.int (c_attack params * sample_rate self) in
  let release_samples := Py.int (c_release params * sample_rate self) in
  let knee := db_to_linear (c_knee params) in
  let envelope := Np.abs audio in
  alpha_attack <- smoothing_coefficient attack_samples ;;
  alpha_release <- smoothing_coefficient release_samples ;;
  smoothed <- smoothed_envelope alpha_attack alpha_release envelope ;;
  let gain_reduction := map (gain_reduction_at threshold ratio knee) smoothed in
  let compressed := zip_with Rmult audio gain_reduction in
  let makeup_gain := db_to_linear (c_makeup_gain params) in
  Ok (Np.scale makeup_gain compressed).

(** ** Stage 4: the stereo enhancer *)

(** [dst[start:stop] = src] on one row: the shapes must agree, a source of
    one element apart, which is repeated. *)
Definition assign_slice (start stop : Z) (dst src : list R) : result (list R) :=
  let n := Z.of_nat (length dst) in
  let i := Py.clip n start in
  let j := Py.clip n stop in
  let width := (j - i)%nat in
  if (length src =? width)%nat then
    Ok (firstn i dst ++ src ++ skipn (i + width) dst)
  else if (length src =? 1)%nat then
    Ok (firstn i dst ++ repeat (hd 0 src) width ++ skipn (i + width) dst)
  else Raise (ValueError "could not broadcast input array").

Definition _enhance_stereo (self : MasteringEngine) (audio : list R)
    : result (list R) :=
  let n := Z.of_nat (length audio) in
  let stereo0 := repeat 0 (length audio) in
  let delay_samples := Py.int (0.001 * sample_rate self) in
  stereo0 <- assign_slice delay_samples n stereo0 (Py.slice_to (- delay_samples) audio) ;;
  stereo0 <- assign_slice 0 delay_samples stereo0 (Py.slice_to delay_samples audio) ;;
  let stereo1 := audio in
  stereo0 <- filtfilt (taps 1.0 0 0) (taps 1.0 (-0.5) 0.1) stereo0 ;;
  stereo1 <- filtfilt (taps 0.8 (-0.8) 0) (taps 1.0 (-0.7) 0.2) stereo1 ;;
  Ok (zip_with (fun l r => (l + r) / 2) stereo0 stereo1).

(** ** Stage 5: the exciter *)

Definition _apply_harmonic_excitation (audio : list R) : list R :=
  map (fun x =>
         let harmonic := x * (1 + 0.1 * tanh (x * 3)) in
         x + 0.3 * (harmonic - x))
      audio.

(** ** Stage 7: loudness *)

Definition _k_weighting (audio : list R) (sample_rate : R) : result (list R) :=
  let b_pre := taps 1.53512485958697 (-2.69169618940638) 1.19839281085285 in
  let a_pre := taps 1.0 (-1.69065929318241) 0.73248077421585 in
  audio_pre <- filtfilt b_pre a_pre audio ;;
  let b_hp := taps 1.0 (-2.0) 1.0 in
  let a_hp := taps 1.0 (-1.99004745483398) 0.99007225036621 in
  filtfilt b_hp a_hp audio_pre.

Definition mean_square (k_weighted : list R) : R :=
  Np.mean (map (fun x => x ^ 2) k_weighted).

Definition _calculate_lufs (audio : list R) (sample_rate : R) : result R :=
  k_weighted <- _k_weighting audio sample_rate ;;
  Ok (-0.691 + 10 * Np.log10 (mean_square k_weighted + 1e-12)).

Definition _normalize_loudness (self : MasteringEngine) (audio : list R)
    (sample_rate : R) : result (list R) :=
  current_lufs <- _calculate_lufs audio sample_rate ;;
  let gain_needed := target_lufs self - current_lufs in
  let linear_gain := db_to_linear gain_needed in
  Ok (Np.scale linear_gain audio).

(** ** The pipeline *)

Section Pipeline.

(** [np.mean(librosa.feature.spectral_centroid(y=audio, sr=sample_rate)[0])]:
    the analysis is librosa's, the engine only compares its mean.  The
    analysis can raise (it divides by the sample rate, for one). *)
Variable avg_centroid : list R -> R -> result R.

(** When the analysis raises, nothing has been assigned.  When it returns,
    the method assigns to [self.eq_params] before it filters: the engine
    returned is the mutated one, also when a filter raises. *)
Definition _apply_multiband_eq (self : MasteringEngine) (audio : list R)
    (sample_rate : R) : result (list R) * MasteringEngine :=
  match avg_centroid audio sample_rate with
  | Raise e => (Raise e, self)
  | Ok avg_centroid =>
      let self := set_eq_params (retune avg_centroid (eq_params self)) self in
      (audio <- _apply_low_shelf self audio sample_rate ;;
       audio <- _apply_peaking_filters self audio sample_rate ;;
       _apply_high_shelf self audio sample_rate,
       self)
  end.

(** Stages 3 to 7, which leave the engine alone. *)
Definition after_eq (self : MasteringEngine) (audio : list R) (sample_rate : R)
    : result (list R) :=
  audio <- _apply_compression self audio ;;
  audio <- _enhance_stereo self audio ;;
  let audio := _apply_harmonic_excitation audio in
  audio <- _apply_limiting self audio ;;
  _normalize_loudness self audio sample_rate.

(** [master_track]: the result or the exception, and the engine as the
    call leaves it.  The first log line takes [np.max] of the raw input. *)
Definition master_track (self : MasteringEngine) (audio : list Np.sample)
    (sample_rate : R) : result (list R) * MasteringEngine :=
  match audio with
  | [] => (Raise (ValueError "zero-size array to reduction operation maximum which has no identity"), self)
  | _ =>
      match _validate_input audio with
      | Raise e => (Raise e, self)
      | Ok audio =>
          match _apply_multiband_eq self audio sample_rate with
          | (Raise e, self) => (Raise e, self)
          | (Ok audio, self) => (after_eq self audio sample_rate, self)
          end
      end
  end.

End Pipeline.

(** ** Evaluating the filters: outward-rounded intervals

    The filter kernel runs on intervals with integer end points, in units
    of [2^-144]: an interval encloses every real its arguments enclose, so
    a bound computed on intervals is a bound on the reals of the model. *)

Module Interval.

Inductive itv : Type :=
| Itv (lo hi : Z)
| Top.

Definition prec : Z := 144.

Definition scale : Z := Eval vm_compute in (2 ^ 144)%Z.

(** A quotient rounded down and rounded up. *)
Definition floor_div (p d : Z) : Z := (p / d)%Z.

Definition ceil_div (p d : Z) : Z := (- ((- p) / d))%Z.

Definition min4 (a b c d : Z) : Z := Z.min (Z.min a b) (Z.min c d).

Definition max4 (a b c d : Z) : Z := Z.max (Z.max a b) (Z.max c d).

Definition add (x y : itv) : itv :=
  match x, y with
  | Itv a b, Itv c d => Itv (a + c) (b + d)
  | _, _ => Top
  end.

Definition sub (x y : itv) : itv :=
  match x, y with
  | Itv a b, Itv c d => Itv (a - d) (b - c)
  | _, _ => Top
  end.

Definition mul (x y : itv) : itv :=
  match x, y with
  | Itv a b, Itv c d =>
      Itv (Z.shiftr (min4 (a * c) (a * d) (b * c) (b * d)) prec)
          (- Z.shiftr (- max4 (a * c) (a * d) (b * c) (b * d)) prec)
  | _, _ => Top
  end.

(** The inverse of an interval of positive numbers. *)
Definition inv (y : itv) : itv :=
  match y with
  | Itv c d =>
      if (0 <? c)%Z then Itv (floor_div (scale * scale) d) (ceil_div (scale * scale) c)
      else Top
  | Top => Top
  end.

Definition div (x y : itv) : itv := mul x (inv y).

(** Whether the interval may hold zero. *)
Definition may_be_zero (x : itv) : bool :=
  match x with
  | Itv lo hi => (lo <=? 0)%Z && (0 <=? hi)%Z
  | Top => true
  end.

Definition ops : Signal.Ops itv :=
  Signal.mkOps itv (Itv 0 0) (Itv scale scale) add sub mul div may_be_zero.

(** The interval of a decimal constant. *)
Definition dec (q : Q) : itv :=
  Itv (floor_div (Qnum q * scale) (Zpos (Qden q)))
      (ceil_div (Qnum q * scale) (Zpos (Qden q))).

(** [x] lies in the interval. *)
Definition contains (x : R) (i : itv) : Prop :=
  match i with
  | Itv lo hi => IZR lo <= x * IZR scale <= IZR hi
  | Top => True
  end.

Definition contains_taps (t : Signal.Taps R) (t' : Signal.Taps itv) : Prop :=
  contains (Signal.t0 t) (Signal.t0 t')
  /\ contains (Signal.t1 t) (Signal.t1 t')
  /\ contains (Signal.t2 t) (Signal.t2 t').

(** [_k_weighting] on intervals. *)
Definition k_weighting (audio : list itv) : result (list itv) :=
  let b_pre :=
    Signal.mkTaps (dec 1.53512485958697) (dec (-2.69169618940638))
                  (dec 1.19839281085285) in
  let a_pre :=
    Signal.mkTaps (dec 1.0) (dec (-1.69065929318241)) (dec 0.73248077421585) in
  audio_pre <- Signal.filtfilt ops b_pre a_pre audio ;;
  let b_hp := Signal.mkTaps (dec 1.0) (dec (-2.0)) (dec 1.0) in
  let a_hp :=
    Signal.mkTaps (dec 1.0) (dec (-1.99004745483398)) (dec 0.99007225036621) in
  Signal.filtfilt ops b_hp a_hp audio_pre.

(** An enclosure of the sum of the squares. *)
Definition sum_squares (l : list itv) : itv :=
  fold_right (fun x s => add (mul x x) s) (Itv 0 0) l.

(** Whether the sum of the squares of the weighted buffer is enclosed
    above [1e-4]. *)
Definition weighted_energy_above (audio : list Q) : bool :=
  match k_weighting (map dec audio) with
  | Ok k_weighted =>
      match sum_squares k_weighted with
      | Itv lo _ => (scale <=? lo * 10000)%Z
      | Top => false
      end
  | Raise _ => false
  end.

End Interval.

Definition triangle10_Q : list Q :=
  [0.5; 0.25; 0; -0.25; -0.5; -0.25; 0; 0.25; 0.5; 0.25]%Q.

(** ** Vocabulary of the statements *)

(** The largest absolute value of a list, [0] for the list without
    elements. *)
Definition max_abs (l : list R) : R :=
  fold_right (fun x m => Rmax (Rabs x) m) 0 l.

(** The samples the limiter looks at for index [i]. *)
Definition window (lookahead : nat) (audio : list R) (i : nat) : list R :=
  firstn lookahead (skipn i audio).

(** The parameters every engine is built with and no method assigns to. *)
Definition factory_chain (self : MasteringEngine) : Prop :=
  sample_rate self = 22050
  /\ compressor_params self = _init_compressor_params
  /\ limiter_params self = _init_limiter_params.

(** The limiter's linear threshold and release coefficient. *)
Definition limiter_threshold : R := db_to_linear (-0.5).

Definition limiter_alpha : R := exp (-1 / 110).

(** [limited[i]] in closed form, for the factory parameters. *)
Definition limited_value (audio : list R) (i : nat) : R :=
  let current_peak := max_abs (window 44 audio i) in
  if Rlt_dec limiter_threshold current_peak then
    let gain_reduction := limiter_threshold / current_peak in
    nth i audio 0 *
      (if (0 <? i)%nat then limiter_alpha * gain_reduction + (1 - limiter_alpha) * 1.0
       else gain_reduction)
  else nth i audio 0.

(** The three cases of the equalizer's analysis. *)
Inductive centroid_class : Type := Dark | Bright | Neutral.

Definition classify (avg_centroid : R) : centroid_class :=
  if Rlt_dec avg_centroid 1000 then Dark
  else if Rlt_dec 4000 avg_centroid then Bright
  else Neutral.

(** The engine after [_apply_multiband_eq] has run on each buffer of a list
    in turn, and after [master_track] has. *)
Definition eq_run (avg_centroid : list R -> R -> result R) (self : MasteringEngine)
    (calls : list (list R * R)) : MasteringEngine :=
  fold_left
    (fun self call => snd (_apply_multiband_eq avg_centroid self (fst call) (snd call)))
    calls self.

Definition master_run (avg_centroid : list R -> R -> result R) (self : MasteringEngine)
    (calls : list (list Np.sample * R)) : MasteringEngine :=
  fold_left
    (fun self call => snd (master_track avg_centroid self (fst call) (snd call)))
    calls self.

(** The gains an engine can have after any number of analyses. *)
Definition gains_fixed (e : EqParams) : Prop :=
  gain (low_shelf e) = 0 /\ gain (mid e) = 0
  /\ (gain (low_mid e) = 0 \/ gain (low_mid e) = 1.0)
  /\ (gain (high_mid e) = 0 \/ gain (high_mid e) = 1.5)
  /\ (gain (high_shelf e) = 0 \/ gain (high_shelf e) = 2.0).

(** The compressor's linear threshold, knee and makeup gain, and the
    coefficients of its envelope follower, for the factory parameters. *)
Definition compressor_threshold : R := db_to_linear (-18.0).

Definition compressor_knee : R := db_to_linear 3.0.

Definition compressor_makeup_gain : R := db_to_linear 2.0.

Definition alpha_attack : R := exp (-1 / 220).

Definition alpha_release : R := exp (-1 / 2205).

(** The smoothed envelope of a buffer, for the factory parameters. *)
Definition envelope (audio : list R) : list R :=
  match Np.abs audio with
  | [] => []
  | e0 :: envelope' => e0 :: smooth alpha_attack alpha_release e0 envelope'
  end.

(** The compressor's gain at one value of the envelope. *)
Definition compressor_gain (env : R) : R :=
  gain_reduction_at compressor_threshold 2.5 compressor_knee env.

(** What the compressor, the enhancer and the limiter return within one
    call of [master_track], from the buffer the equalizer returned. *)
Definition stage_outputs (self : MasteringEngine) (audio : list R)
    : result (list R * list R * list R) :=
  compressed <- _apply_compression self audio ;;
  enhanced <- _enhance_stereo self compressed ;;
  limited <- _apply_limiting self (_apply_harmonic_excitation enhanced) ;;
  Ok (compressed, enhanced, limited).

(** The compressor, the enhancer and the limiter as they run at 22050 Hz:
    an attack of 220 and a release of 2205 samples in [envelope], a delay
    of 22 samples, a lookahead of 44 and a release of 110 samples in
    [limited_value]. *)
Definition compression_at_22050 (audio : list R) : result (list R) :=
  match audio with
  | [] => Raise (IndexError "index 0 is out of bounds for axis 0 with size 0")
  | _ => Ok (Np.scale compressor_makeup_gain
               (zip_with Rmult audio (map compressor_gain (envelope audio))))
  end.

Definition enhancement_at_22050 (audio : list R) : result (list R) :=
  stereo0 <- filtfilt (taps 1.0 0 0) (taps 1.0 (-0.5) 0.1)
               (firstn 22 audio ++ firstn (length audio - 22) audio) ;;
  stereo1 <- filtfilt (taps 0.8 (-0.8) 0) (taps 1.0 (-0.7) 0.2) audio ;;
  Ok (zip_with (fun l r => (l + r) / 2) stereo0 stereo1).

Definition limiting_at_22050 (audio : list R) : list R :=
  map (limited_value audio) (seq 0 (length audio)).

(** A stage that returns a buffer of the length of its input whenever it
    returns, and that returns on every buffer of more than [9] samples. *)
Definition keeps_length (stage : list R -> result (list R)) : Prop :=
  forall audio,
    (forall out, stage audio = Ok out -> length out = length audio)
    /\ ((9 < length audio)%nat -> exists out, stage audio = Ok out).

(** A stage that returns a buffer of the length of its input whenever it
    returns. *)
Definition preserves_length (stage : list R -> result (list R)) : Prop :=
  forall audio out, stage audio = Ok out -> length out = length audio.

(** Ten samples of a triangle wave, the shortest kind of buffer the chain
    masters. *)
Definition triangle10 : list R :=
  [0.5; 0.25; 0; -0.25; -0.5; -0.25; 0; 0.25; 0.5; 0.25].

(** The same wave at four times the level, above full scale. *)
Definition loud10 : list R := [2; 1; 0; -1; -2; -1; 0; 1; 2; 1].

(** The gain at frequency zero of a filter with normalized coefficients. *)
Definition dc_gain (b a : Signal.Taps R) : R :=
  (Signal.t0 b + Signal.t1 b + Signal.t2 b) / (1 + Signal.t1 a + Signal.t2 a).

(** A direct-current buffer: ten samples at [0.5]. *)
Definition dc10 : list R := repeat 0.5 10.

(** The centre frequencies and widths of the bands the equalizer can run,
    which no method assigns to. *)
Definition bands_fixed (e : EqParams) : Prop :=
  (freq (low_mid e) = 250 /\ q (low_mid e) = 0.8)
  /\ (freq (mid e) = 1000 /\ q (mid e) = 1.0)
  /\ (freq (high_mid e) = 4000 /\ q (high_mid e) = 0.8)
  /\ freq (high_shelf e) = 8000.

(** ** The caller: the mastering thread of the main window *)

Module MasteringThread.

(** The Qt signals of the thread, as they are emitted. *)
Inductive signal : Type :=
| progress_updated (value : Z)
| mastering_complete (message : string)
| error_occurred (message : string).

(** [str(e)]: the message the exception was raised with. *)
Definition str (e : exn) : string :=
  match e with
  | ValueError msg | IndexError msg | ZeroDivisionError msg
  | LinAlgError msg => msg
  end.

Record t : Type := mk {
  mastering_engine : MasteringEngine;
  audio : list Np.sample;
  sample_rate : R
}.

(** [run]: the signals emitted, in order, and the engine as the call
    leaves it.  The mastered buffer is bound to a local and dropped. *)
Definition run (avg_centroid : list R -> R -> result R) (self : t)
    : list signal * MasteringEngine :=
  let emitted := [progress_updated 10] in
  match master_track avg_centroid (mastering_engine self) (audio self)
          (sample_rate self) with
  | (Ok mastered_audio, engine) =>
      (emitted ++ [progress_updated 100;
                   mastering_complete "Mastering completed successfully!"],
       engine)
  | (Raise e, engine) => (emitted ++ [error_occurred (str e)], engine)
  end.

End MasteringThread.

(** * Properties *)

(** ** Exceptions and loops *)

Lemma mapM_ok {A B : Type} (f : A -> result B) (g : A -> B) (l : list A) :
  (forall a, In a l -> f a = Ok (g a)) -> mapM f l = Ok (map g l).
Proof.
  induction l as [|a l IH]; intros Hf; simpl.
  - reflexivity.
  - rewrite (Hf a (or_introl eq_refl)). simpl.
    rewrite IH by (intros; apply Hf; now right). reflexivity.
Qed.

(** ** Constants of the chain *)

Lemma int_of_pos (x : R) (z : Z) :
  IZR z <= x -> x < IZR z + 1 -> 0 <= x -> Py.int x = z.
Proof.
  intros Hlo Hhi Hx. unfold Py.int.
  destruct (Rle_dec 0 x) as [_|Hn]; [|contradiction].
  symmetry. apply Int_part_spec. lra.
Qed.

Lemma attack_samples_default : Py.int (0.01 * 22050) = 220%Z.
Proof. apply int_of_pos; lra. Qed.

Lemma release_samples_default : Py.int (0.1 * 22050) = 2205%Z.
Proof. apply int_of_pos; lra. Qed.

Lemma limiter_release_samples_default : Py.int (0.005 * 22050) = 110%Z.
Proof. apply int_of_pos; lra. Qed.

Lemma lookahead_samples_default : Py.int (0.002 * 22050) = 44%Z.
Proof. apply int_of_pos; lra. Qed.

Lemma delay_samples_default : Py.int (0.001 * 22050) = 22%Z.
Proof. apply int_of_pos; lra. Qed.

Lemma ln_10_pos : 0 < ln 10.
Proof. rewrite <- ln_1. apply ln_increasing; lra. Qed.

Lemma ln_10_lt_9 : ln 10 < 9.
Proof.
  rewrite <- (ln_exp 9). apply ln_increasing; [lra|].
  pose proof (exp_ineq1 9). lra.
Qed.

Lemma db_to_linear_pos (db : R) : 0 < db_to_linear db.
Proof. unfold db_to_linear, Rpower. apply exp_pos. Qed.

Lemma db_to_linear_0 : db_to_linear 0 = 1.
Proof.
  unfold db_to_linear, Rpower.
  replace (0 / 20 * ln 10) with 0 by lra. apply exp_0.
Qed.

Lemma db_to_linear_lt (x y : R) : x < y -> db_to_linear x < db_to_linear y.
Proof.
  intros H. unfold db_to_linear, Rpower. apply exp_increasing.
  pose proof ln_10_pos. nra.
Qed.

Lemma db_to_linear_neg (db : R) : db < 0 -> db_to_linear db < 1.
Proof. intros H. rewrite <- db_to_linear_0. now apply db_to_linear_lt. Qed.

Lemma db_to_linear_gt_1 (db : R) : 0 < db -> 1 < db_to_linear db.
Proof. intros H. rewrite <- db_to_linear_0. now apply db_to_linear_lt. Qed.

Lemma db_to_linear_plus (x y : R) :
  db_to_linear (x + y) = db_to_linear x * db_to_linear y.
Proof.
  unfold db_to_linear, Rpower. rewrite <- exp_plus. f_equal. lra.
Qed.

(** The limiter's threshold is above [0.775]. *)
Lemma limiter_threshold_lower : 0.775 < db_to_linear (-0.5).
Proof.
  unfold db_to_linear, Rpower.
  pose proof (exp_ineq1_le (-0.5 / 20 * ln 10)).
  pose proof ln_10_lt_9. lra.
Qed.

Lemma smoothing_coefficient_pos (n : Z) :
  (0 < n)%Z -> smoothing_coefficient n = Ok (exp (-1 / IZR n)).
Proof.
  intros H. unfold smoothing_coefficient, Py.true_div.
  destruct (Z.eqb_spec n 0) as [->|_]; [lia|]. reflexivity.
Qed.

Lemma exp_neg_inv_range (n : Z) : (0 < n)%Z -> 0 < exp (-1 / IZR n) < 1.
Proof.
  intros H. split; [apply exp_pos|].
  rewrite <- exp_0. apply exp_increasing.
  apply IZR_lt in H. unfold Rdiv.
  assert (0 < / IZR n) by now apply Rinv_0_lt_compat. lra.
Qed.

(** ** Peaks and windows *)

Lemma max_abs_nonneg (l : list R) : 0 <= max_abs l.
Proof.
  destruct l as [|x l]; simpl; [lra|].
  eapply Rle_trans; [apply Rabs_pos | apply Rmax_l].
Qed.

Lemma fold_left_Rmax_abs (l : list R) (a : R) :
  0 <= a -> fold_left Rmax (map Rabs l) a = Rmax a (max_abs l).
Proof.
  revert a. induction l as [|x l IH]; intros a Ha; simpl.
  - rewrite Rmax_left; lra.
  - rewrite IH.
    + now rewrite Rmax_assoc.
    + eapply Rle_trans; [exact Ha | apply Rmax_l].
Qed.

Lemma np_max_abs (l : list R) :
  l <> [] -> Np.max (Np.abs l) = Ok (max_abs l).
Proof.
  destruct l as [|x l]; [congruence|]. intros _. simpl.
  rewrite fold_left_Rmax_abs by apply Rabs_pos. reflexivity.
Qed.

Lemma max_abs_In (l : list R) (x : R) : In x l -> Rabs x <= max_abs l.
Proof.
  induction l as [|y l IH]; simpl; [tauto|].
  intros [->|H].
  - apply Rmax_l.
  - eapply Rle_trans; [now apply IH | apply Rmax_r].
Qed.

Lemma max_abs_le (l : list R) (c : R) :
  0 <= c -> (forall x, In x l -> Rabs x <= c) -> max_abs l <= c.
Proof.
  intros Hc. induction l as [|y l IH]; simpl; intros H; [lra|].
  apply Rmax_lub; [apply H; now left | apply IH; intros; apply H; now right].
Qed.

Lemma clip_of_nat (n i : nat) : (i <= n)%nat -> Py.clip (Z.of_nat n) (Z.of_nat i) = i.
Proof.
  intros H. unfold Py.clip.
  destruct (Z.ltb_spec (Z.of_nat i) 0); lia.
Qed.

Lemma slice_window (audio : list R) (i lookahead : nat) :
  (i <= length audio)%nat ->
  Py.slice (Z.of_nat i)
           (Z.min (Z.of_nat i + Z.of_nat lookahead) (Z.of_nat (length audio)))
           audio
  = window lookahead audio i.
Proof.
  intros Hi. unfold Py.slice, window.
  rewrite clip_of_nat by assumption.
  replace (Z.min (Z.of_nat i + Z.of_nat lookahead) (Z.of_nat (length audio)))
    with (Z.of_nat (Nat.min (i + lookahead) (length audio))) by lia.
  rewrite clip_of_nat by lia.
  replace (Nat.min (i + lookahead) (length audio) - i)%nat
    with (Nat.min lookahead (length (skipn i audio)))
    by (rewrite length_skipn; lia).
  rewrite <- firstn_firstn. now rewrite firstn_all.
Qed.

Lemma window_nonempty (audio : list R) (i lookahead : nat) :
  (i < length audio)%nat -> (0 < lookahead)%nat -> window lookahead audio i <> [].
Proof.
  intros Hi Hl Hw. apply (f_equal (@length R)) in Hw.
  unfold window in Hw. rewrite length_firstn, length_skipn in Hw.
  simpl in Hw. lia.
Qed.

(** ** The limiter *)

Lemma limit_at_factory (audio : list R) (i : nat) :
  (i < length audio)%nat ->
  limit_at limiter_threshold 110 44 audio i = Ok (limited_value audio i).
Proof.
  intros Hi. unfold limit_at, limited_value.
  change 44%Z with (Z.of_nat 44).
  rewrite slice_window by lia.
  rewrite np_max_abs by (apply window_nonempty; lia). simpl bind.
  destruct (Rlt_dec limiter_threshold (max_abs (window 44 audio i))); [|reflexivity].
  destruct (0 <? i)%nat; reflexivity.
Qed.

(** With the factory parameters the limiter never raises, and its output is
    [limited_value] at every index. *)
Lemma apply_limiting_factory (self : MasteringEngine) (audio : list R) :
  factory_chain self ->
  _apply_limiting self audio = Ok (map (limited_value audio) (seq 0 (length audio))).
Proof.
  intros (Hsr & _ & Hlim). unfold _apply_limiting.
  rewrite Hlim, Hsr. simpl l_threshold. simpl l_release. simpl l_lookahead.
  rewrite limiter_release_samples_default, lookahead_samples_default.
  apply mapM_ok. intros i Hi. apply in_seq in Hi.
  apply limit_at_factory. lia.
Qed.

Lemma factory_chain_init (tl tp : R) : factory_chain (__init__ tl tp).
Proof. repeat split. Qed.

Lemma nth_map_seq {A : Type} (f : nat -> A) (n i : nat) (d : A) :
  (i < n)%nat -> nth i (map f (seq 0 n)) d = f i.
Proof.
  intros H. rewrite (nth_indep _ d (f 0%nat)) by (rewrite length_map, length_seq; lia).
  rewrite (map_nth f (seq 0 n) 0%nat i). now rewrite seq_nth.
Qed.

(** C9.  Where the peak of the lookahead window [[i, min(i + 44, n))] does
    not exceed the linear threshold, the limiter returns the input sample
    itself. *)
Theorem limiter_leaves_quiet_samples (self : MasteringEngine) (audio : list R) (i : nat) :
  factory_chain self ->
  (i < length audio)%nat ->
  max_abs (window 44 audio i) <= db_to_linear (-0.5) ->
  exists limited,
    _apply_limiting self audio = Ok limited
    /\ length limited = length audio
    /\ nth i limited 0 = nth i audio 0.
Proof.
  intros Hf Hi Hpeak. eexists. split; [now apply apply_limiting_factory|]. split.
  - now rewrite length_map, length_seq.
  - rewrite nth_map_seq by assumption. unfold limited_value.
    destruct (Rlt_dec limiter_threshold (max_abs (window 44 audio i))) as [Hgt|_];
      [|reflexivity].
    unfold limiter_threshold in Hgt. lra.
Qed.

Lemma limiter_leaves_quiet_samples_witness :
  exists limited,
    _apply_limiting (__init__ (-14) (-1)) [2; 0.5] = Ok limited
    /\ length limited = 2%nat
    /\ nth 1 limited 0 = 0.5.
Proof.
  apply (limiter_leaves_quiet_samples (__init__ (-14) (-1)) [2; 0.5] 1).
  - apply factory_chain_init.
  - simpl. lia.
  - pose proof limiter_threshold_lower as H. simpl.
    apply Rmax_lub; [|lra].
    rewrite Rabs_pos_eq; lra.
Defined.

Lemma limiter_threshold_range : 0.775 < limiter_threshold < 1.
Proof.
  split; [apply limiter_threshold_lower|].
  apply db_to_linear_neg. lra.
Qed.

Lemma limiter_alpha_range : 0 < limiter_alpha <= 110 / 111.
Proof.
  unfold limiter_alpha. split; [apply exp_pos|].
  replace (-1 / 110) with (- (1 / 110)) by lra.
  rewrite exp_Ropp.
  pose proof (exp_ineq1_le (1 / 110)) as H.
  replace (110 / 111) with (/ (1 + 1 / 110)) by lra.
  apply Rinv_le_contravar; lra.
Qed.

Lemma max_abs_singleton (x : R) : max_abs [x] = Rabs x.
Proof. simpl. apply Rmax_left, Rabs_pos. Qed.

(** The value of [limited[i]] for [i > 0] when the window's peak [p] is
    above the threshold: the gain [threshold / p] is mixed with [1]. *)
Lemma limited_value_above (audio : list R) (i : nat) :
  (0 < i)%nat ->
  limiter_threshold < max_abs (window 44 audio i) ->
  limited_value audio i
  = nth i audio 0 *
      (limiter_alpha * (limiter_threshold / max_abs (window 44 audio i))
       + (1 - limiter_alpha)).
Proof.
  intros Hi Hp. unfold limited_value.
  destruct (Rlt_dec limiter_threshold (max_abs (window 44 audio i))); [|contradiction].
  destruct (Nat.ltb_spec 0 i); [|lia]. f_equal. lra.
Qed.

(** C1, on the code.  On [[0; 2]] the limiter returns, at index [1], the
    sample [alpha * threshold + 2 * (1 - alpha)], which lies above the
    threshold by more than [0.009]: the gain [threshold / peak] is mixed
    with unity gain at every index but the first. *)
Theorem limiter_overshoots :
  exists limited,
    _apply_limiting (__init__ (-14) (-1)) [0; 2] = Ok limited
    /\ nth 1 limited 0
       = limiter_alpha * db_to_linear (-0.5) + 2 * (1 - limiter_alpha)
    /\ db_to_linear (-0.5) + 0.009 < max_abs limited.
Proof.
  eexists. split; [apply apply_limiting_factory, factory_chain_init|].
  pose proof limiter_threshold_range as HT.
  pose proof limiter_alpha_range as Ha.
  assert (Hw : max_abs (window 44 [0; 2] 1) = 2).
  { unfold window. simpl skipn. simpl firstn.
    rewrite max_abs_singleton. apply Rabs_pos_eq. lra. }
  assert (H1 : limited_value [0; 2] 1
               = limiter_alpha * limiter_threshold + 2 * (1 - limiter_alpha)).
  { rewrite limited_value_above by (rewrite ?Hw; lra || lia).
    rewrite Hw. simpl nth. field. }
  split.
  - simpl length. simpl seq. simpl map. simpl nth. exact H1.
  - eapply Rlt_le_trans; [|eapply Rle_trans; [apply Rle_abs | apply max_abs_In]].
    2:{ simpl length. simpl seq. simpl map. right. left. reflexivity. }
    rewrite H1. fold limiter_threshold. nra.
Qed.

(** At index [0] the gain is not mixed, and the first output sample stays
    within the threshold. *)
Lemma limiter_first_sample_bounded (audio : list R) :
  audio <> [] -> Rabs (limited_value audio 0) <= limiter_threshold.
Proof.
  intros Hne. pose proof limiter_threshold_range as HT.
  destruct audio as [|x audio]; [congruence|].
  unfold limited_value. simpl nth.
  set (p := max_abs (window 44 (x :: audio) 0)).
  assert (Hx : Rabs x <= p) by (apply max_abs_In; now left).
  destruct (Rlt_dec limiter_threshold p) as [Hp|Hp]; [|lra].
  cbn [Nat.ltb Nat.leb].
  rewrite Rabs_mult, (Rabs_pos_eq (limiter_threshold / p)).
  - assert (Hip : 0 < / p) by (apply Rinv_0_lt_compat; lra).
    replace limiter_threshold with (p * (limiter_threshold / p)) at 2
      by (field; lra).
    apply Rmult_le_compat_r; [|exact Hx].
    unfold Rdiv. nra.
  - assert (Hip : 0 < / p) by (apply Rinv_0_lt_compat; lra).
    unfold Rdiv. nra.
Qed.

(** The overshoot has no bound: whatever the tolerance, some buffer of two
    samples leaves the limiter above the threshold by more than it. *)
Lemma limiter_overshoot_unbounded (self : MasteringEngine) (eps : R) :
  factory_chain self ->
  exists audio limited,
    _apply_limiting self audio = Ok limited
    /\ limiter_threshold + eps < max_abs limited.
Proof.
  intros Hf.
  pose proof limiter_threshold_range as HT.
  pose proof limiter_alpha_range as Ha.
  set (M := 1 + Rabs eps / (1 - limiter_alpha)).
  assert (HM : 1 <= M).
  { unfold M. assert (0 <= Rabs eps / (1 - limiter_alpha)); [|lra].
    apply Rmult_le_pos; [apply Rabs_pos|].
    left. apply Rinv_0_lt_compat. lra. }
  exists [0; M]. eexists. split; [now apply apply_limiting_factory|].
  assert (Hw : max_abs (window 44 [0; M] 1) = M).
  { unfold window. simpl skipn. simpl firstn.
    rewrite max_abs_singleton. apply Rabs_pos_eq. lra. }
  assert (H1 : limited_value [0; M] 1
               = limiter_alpha * limiter_threshold + (1 - limiter_alpha) * M).
  { rewrite limited_value_above by (rewrite ?Hw; lra || lia).
    rewrite Hw. simpl nth. field. lra. }
  eapply Rlt_le_trans; [|eapply Rle_trans; [apply Rle_abs | apply max_abs_In]].
  2:{ simpl length. simpl seq. simpl map. right. left. reflexivity. }
  rewrite H1. unfold M.
  replace ((1 - limiter_alpha) * (1 + Rabs eps / (1 - limiter_alpha)))
    with ((1 - limiter_alpha) + Rabs eps) by (field; lra).
  pose proof (Rle_abs eps). nra.
Qed.

(** ** The equalizer's analysis *)

Lemma eq_params_after_eq avg (self : MasteringEngine) (audio : list R) (sr c : R) :
  avg audio sr = Ok c ->
  eq_params (snd (_apply_multiband_eq avg self audio sr))
  = retune c (eq_params self).
Proof. intros H. unfold _apply_multiband_eq. now rewrite H. Qed.

Lemma apply_multiband_eq_raises avg (self : MasteringEngine) (audio : list R)
    (sr : R) (e : exn) :
  avg audio sr = Raise e ->
  _apply_multiband_eq avg self audio sr = (Raise e, self).
Proof. intros H. unfold _apply_multiband_eq. now rewrite H. Qed.

Lemma retune_dark (c : R) (e : EqParams) :
  c < 1000 -> retune c e = set_high_shelf 2.0 (set_high_mid 1.5 e).
Proof. intros H. unfold retune. destruct (Rlt_dec c 1000); [reflexivity|lra]. Qed.

Lemma retune_bright (c : R) (e : EqParams) :
  4000 < c -> retune c e = set_low_mid 1.0 e.
Proof.
  intros H. unfold retune.
  destruct (Rlt_dec c 1000); [lra|].
  destruct (Rlt_dec 4000 c); [reflexivity|lra].
Qed.

Lemma retune_neutral (c : R) (e : EqParams) :
  1000 <= c <= 4000 -> retune c e = e.
Proof.
  intros H. unfold retune.
  destruct (Rlt_dec c 1000); [lra|].
  destruct (Rlt_dec 4000 c); [lra|reflexivity].
Qed.

(** C4, as the code has it.  The analysis assigns: for a centroid below
    1000 Hz the gain of [high_mid] becomes 1.5 dB and that of [high_shelf]
    2.0 dB, for a centroid above 4000 Hz the gain of [low_mid] becomes
    1.0 dB, whatever the gains were; every other band, every frequency and
    every Q is kept, and between 1000 and 4000 Hz all of [eq_params] is.
    On the gains a new engine starts with these are the boosts by +1.5,
    +2.0 and +1.0 dB.  [c] is the centroid the analysis returns. *)
Theorem eq_analysis_assigns avg (self : MasteringEngine) (audio : list R)
    (sr c : R) :
  avg audio sr = Ok c ->
  let prior := eq_params self in
  let next := eq_params (snd (_apply_multiband_eq avg self audio sr)) in
  (c < 1000 ->
     gain (high_mid next) = 1.5 /\ gain (high_shelf next) = 2.0
     /\ low_shelf next = low_shelf prior /\ low_mid next = low_mid prior
     /\ mid next = mid prior
     /\ freq (high_mid next) = freq (high_mid prior)
     /\ q (high_mid next) = q (high_mid prior)
     /\ freq (high_shelf next) = freq (high_shelf prior)
     /\ q (high_shelf next) = q (high_shelf prior)
     /\ (prior = _init_eq_params ->
         gain (high_mid next) = gain (high_mid prior) + 1.5
         /\ gain (high_shelf next) = gain (high_shelf prior) + 2.0))
  /\ (4000 < c ->
     gain (low_mid next) = 1.0
     /\ low_shelf next = low_shelf prior /\ mid next = mid prior
     /\ high_mid next = high_mid prior /\ high_shelf next = high_shelf prior
     /\ freq (low_mid next) = freq (low_mid prior)
     /\ q (low_mid next) = q (low_mid prior)
     /\ (prior = _init_eq_params ->
         gain (low_mid next) = gain (low_mid prior) + 1.0))
  /\ (1000 <= c <= 4000 -> next = prior).
Proof.
  intros Hc prior next. subst next. rewrite (eq_params_after_eq _ _ _ _ c Hc).
  clear Hc. subst prior. generalize (eq_params self) as prior. intros prior.
  split; [|split].
  - intros Hc. rewrite retune_dark by assumption. simpl.
    repeat (split; [reflexivity|]).
    intros ->. simpl. split; lra.
  - intros Hc. rewrite retune_bright by assumption. simpl.
    repeat (split; [reflexivity|]).
    intros ->. simpl. lra.
  - intros Hc. now apply retune_neutral.
Qed.

Lemma eq_analysis_assigns_witness :
  let self := __init__ (-14) (-1) in
  let next :=
    eq_params (snd (_apply_multiband_eq (fun _ _ => Ok 500) self [0.5] 22050)) in
  gain (high_mid next) = gain (high_mid (eq_params self)) + 1.5
  /\ gain (high_shelf next) = gain (high_shelf (eq_params self)) + 2.0.
Proof.
  intros self next.
  destruct (eq_analysis_assigns (fun _ _ => Ok 500) self [0.5] 22050 500 eq_refl)
    as [Hdark _].
  apply Hdark; [lra | reflexivity].
Defined.

(** C4, as stated, fails on an engine that has mastered a dark buffer
    before: the second analysis of a dark buffer finds [high_mid] at 1.5 dB
    and leaves it there, where a boost relative to the prior gain would
    give 3.0 dB. *)
Lemma eq_boost_is_not_relative :
  let avg := fun (_ : list R) (_ : R) => Ok 500 in
  let prior := snd (_apply_multiband_eq avg (__init__ (-14) (-1)) [0.5] 22050) in
  let next := snd (_apply_multiband_eq avg prior [0.5] 22050) in
  (avg [0.5] 22050 = Ok 500 /\ 500 < 1000)
  /\ gain (high_mid (eq_params prior)) = 1.5
  /\ gain (high_mid (eq_params next)) = 1.5
  /\ gain (high_mid (eq_params next)) <> gain (high_mid (eq_params prior)) + 1.5
  /\ gain (high_shelf (eq_params next)) <> gain (high_shelf (eq_params prior)) + 2.0.
Proof.
  intros avg prior next. subst next prior.
  rewrite !(eq_params_after_eq avg _ _ _ 500 eq_refl).
  rewrite !retune_dark by lra. simpl.
  repeat split; lra.
Qed.

Lemma classify_dark (c : R) : classify c = Dark <-> c < 1000.
Proof.
  unfold classify. destruct (Rlt_dec c 1000); [tauto|].
  destruct (Rlt_dec 4000 c); split; (discriminate || lra).
Qed.

Lemma classify_bright (c : R) : classify c = Bright <-> 4000 < c.
Proof.
  unfold classify. destruct (Rlt_dec c 1000).
  - split; (discriminate || lra).
  - destruct (Rlt_dec 4000 c); [tauto|]. split; (discriminate || lra).
Qed.

Lemma retune_classify (c c' : R) (e : EqParams) :
  classify c = classify c' -> retune c e = retune c' e.
Proof.
  unfold classify, retune.
  destruct (Rlt_dec c 1000), (Rlt_dec c' 1000); try reflexivity;
    destruct (Rlt_dec 4000 c), (Rlt_dec 4000 c'); try reflexivity; discriminate.
Qed.

Lemma retune_idempotent (c : R) (e : EqParams) : retune c (retune c e) = retune c e.
Proof.
  unfold retune.
  destruct (Rlt_dec c 1000); [reflexivity|].
  destruct (Rlt_dec 4000 c); reflexivity.
Qed.

Lemma eq_run_snoc avg (self : MasteringEngine) calls call :
  eq_run avg self (calls ++ [call])
  = snd (_apply_multiband_eq avg (eq_run avg self calls) (fst call) (snd call)).
Proof. unfold eq_run. now rewrite fold_left_app. Qed.

Lemma master_run_snoc avg (self : MasteringEngine) calls call :
  master_run avg self (calls ++ [call])
  = snd (master_track avg (master_run avg self calls) (fst call) (snd call)).
Proof. unfold master_run. now rewrite fold_left_app. Qed.

(** What [master_track] does to the engine: nothing when validation
    refuses the input, the equalizer's assignment otherwise. *)
Lemma master_track_engine avg (self : MasteringEngine) audio (sr : R) :
  snd (master_track avg self audio sr) = self
  \/ exists c, snd (master_track avg self audio sr)
               = set_eq_params (retune c (eq_params self)) self.
Proof.
  unfold master_track. destruct audio as [|s audio]; [now left|].
  destruct (_validate_input (s :: audio)) as [valid|e]; [|now left].
  unfold _apply_multiband_eq.
  destruct (avg valid sr) as [c|e]; [|now left].
  right. exists c.
  match goal with |- context [match ?r with Ok _ => _ | Raise _ => _ end] =>
    destruct r end; reflexivity.
Qed.

Lemma gains_fixed_init : gains_fixed _init_eq_params.
Proof. unfold gains_fixed; simpl. repeat split; try lra; left; lra. Qed.

Lemma gains_fixed_retune (c : R) (e : EqParams) :
  gains_fixed e -> gains_fixed (retune c e).
Proof.
  unfold gains_fixed, retune. intros (H1 & H2 & H3 & H4 & H5).
  destruct (Rlt_dec c 1000); [|destruct (Rlt_dec 4000 c)]; simpl;
    repeat split; auto.
Qed.

(** C10.  The analysis assigns fixed gains: a second analysis of a buffer
    of the same class changes nothing; after any positive number of
    analyses of dark buffers [high_mid] is at 1.5 dB and [high_shelf] at
    2.0 dB, after bright ones [low_mid] is at 1.0 dB; and whatever
    [master_track] has been called on, the gains of an engine are the
    initial 0 dB or these values.  A buffer has a class when the analysis
    returns its centroid. *)
Theorem eq_analysis_is_idempotent avg :
  (forall self a1 s1 a2 s2 c1 c2,
      avg a1 s1 = Ok c1 -> avg a2 s2 = Ok c2 ->
      classify c1 = classify c2 ->
      eq_params (eq_run avg self [(a1, s1); (a2, s2)])
      = eq_params (eq_run avg self [(a1, s1)]))
  /\ (forall self calls,
      calls <> [] ->
      (forall call, In call calls ->
         exists c, avg (fst call) (snd call) = Ok c /\ classify c = Dark) ->
      gain (high_mid (eq_params (eq_run avg self calls))) = 1.5
      /\ gain (high_shelf (eq_params (eq_run avg self calls))) = 2.0)
  /\ (forall self calls,
      calls <> [] ->
      (forall call, In call calls ->
         exists c, avg (fst call) (snd call) = Ok c /\ classify c = Bright) ->
      gain (low_mid (eq_params (eq_run avg self calls))) = 1.0)
  /\ (forall tl tp calls,
      gains_fixed (eq_params (master_run avg (__init__ tl tp) calls))).
Proof.
  split; [|split; [|split]].
  - intros self a1 s1 a2 s2 c1 c2 H1 H2 Hc.
    change [(a1, s1); (a2, s2)] with ([(a1, s1)] ++ [(a2, s2)]).
    rewrite eq_run_snoc. simpl fst. simpl snd.
    rewrite (eq_params_after_eq _ _ _ _ c2 H2).
    change (eq_run avg self [(a1, s1)]) with (snd (_apply_multiband_eq avg self a1 s1)).
    rewrite (eq_params_after_eq _ _ _ _ c1 H1).
    rewrite <- (retune_classify _ _ _ Hc). apply retune_idempotent.
  - intros self calls Hne Hdark.
    destruct (exists_last Hne) as (calls' & call & ->).
    destruct (Hdark call) as (c & Hc & Hclass);
      [apply in_or_app; right; now left|].
    rewrite eq_run_snoc, (eq_params_after_eq _ _ _ _ c Hc).
    rewrite retune_dark; [split; reflexivity|].
    now apply classify_dark.
  - intros self calls Hne Hbright.
    destruct (exists_last Hne) as (calls' & call & ->).
    destruct (Hbright call) as (c & Hc & Hclass);
      [apply in_or_app; right; now left|].
    rewrite eq_run_snoc, (eq_params_after_eq _ _ _ _ c Hc).
    rewrite retune_bright; [reflexivity|].
    now apply classify_bright.
  - intros tl' tp calls. induction calls as [|call calls IH] using rev_ind.
    + apply gains_fixed_init.
    + rewrite master_run_snoc.
      destruct (master_track_engine avg (master_run avg (__init__ tl' tp) calls)
                  (fst call) (snd call)) as [->|(c & ->)]; [exact IH|].
      simpl eq_params. now apply gains_fixed_retune.
Qed.

(** ** Validation *)

Lemma max_abs_scale (l : list R) (k : R) :
  0 <= k -> max_abs (map (fun x => x * k) l) = max_abs l * k.
Proof.
  intros Hk. induction l as [|x l IH]; simpl; [lra|].
  rewrite IH, Rabs_mult, (Rabs_pos_eq k) by assumption.
  rewrite !(Rmult_comm _ k). now apply RmaxRmult.
Qed.

Lemma validate_input_cases (audio : list Np.sample) :
  audio <> [] ->
  let clean := Np.nan_to_num audio in
  let peak := max_abs clean in
  _validate_input audio
  = if Rlt_dec peak 1e-10 then Raise (ValueError "Input audio is silent")
    else if Rlt_dec 1.0 peak then Ok (map (fun x => x / peak * 0.95) clean)
    else Ok clean.
Proof.
  intros Hne clean peak. unfold _validate_input. fold clean.
  assert (Hc : clean <> []).
  { subst clean. destruct audio; [congruence|discriminate]. }
  rewrite np_max_abs by assumption. simpl bind. fold peak.
  destruct (Rlt_dec peak 1e-10); reflexivity.
Qed.

Lemma master_track_refused avg (self : MasteringEngine) (audio : list Np.sample)
    (sr : R) (e : exn) :
  _validate_input audio = Raise e ->
  master_track avg self audio sr = (Raise e, self).
Proof.
  intros H. unfold master_track. destruct audio as [|s audio].
  - simpl in H. now inversion H.
  - now rewrite H.
Qed.

(** C5.  Validation maps NaN and the infinities to zero and keeps finite
    samples.  With [peak] the largest absolute value of the sanitized
    buffer: below [1e-10] validation raises [ValueError] and [master_track]
    ends with this exception and the engine it was called on; above [1.0]
    the buffer is divided by [peak] and multiplied by [0.95], and its new
    peak is [0.95]; in between the sanitized buffer is returned as it
    is. *)
Theorem validation_contract avg (self : MasteringEngine) (audio : list Np.sample)
    (sr : R) :
  let clean := Np.nan_to_num audio in
  let peak := max_abs clean in
  Forall2 (fun s x => match s with Np.Finite y => x = y | _ => x = 0 end) audio clean
  /\ (peak < 1e-10 ->
      exists msg,
        _validate_input audio = Raise (ValueError msg)
        /\ master_track avg self audio sr = (Raise (ValueError msg), self))
  /\ (1.0 < peak ->
      exists valid,
        _validate_input audio = Ok valid
        /\ valid = map (fun x => x / peak * 0.95) clean
        /\ max_abs valid = 0.95)
  /\ (1e-10 <= peak <= 1.0 -> _validate_input audio = Ok clean).
Proof.
  intros clean peak. split; [|split; [|split]].
  - subst clean. induction audio as [|s audio IH]; simpl; constructor; auto.
    destruct s; reflexivity.
  - intros Hp. destruct audio as [|s audio].
    + eexists. split; [reflexivity|]. reflexivity.
    + exists "Input audio is silent"%string.
      assert (H : _validate_input (s :: audio)
                  = Raise (ValueError "Input audio is silent")).
      { rewrite validate_input_cases by discriminate. fold clean. fold peak.
        destruct (Rlt_dec peak 1e-10); [reflexivity|contradiction]. }
      split; [exact H|]. now apply master_track_refused.
  - intros Hp. destruct audio as [|s audio].
    + subst peak clean. simpl in Hp. lra.
    + eexists. split; [|split; [reflexivity|]].
      * rewrite validate_input_cases by discriminate. fold clean. fold peak.
        destruct (Rlt_dec peak 1e-10); [lra|].
        destruct (Rlt_dec 1.0 peak); [reflexivity|contradiction].
      * replace (map (fun x => x / peak * 0.95) clean)
          with (map (fun x => x * (/ peak * 0.95)) clean)
          by (apply map_ext; intros; unfold Rdiv; ring).
        assert (0 < / peak) by (apply Rinv_0_lt_compat; lra).
        rewrite max_abs_scale by nra. fold peak. field. lra.
  - intros Hp. destruct audio as [|s audio].
    + subst peak clean. simpl in Hp. lra.
    + rewrite validate_input_cases by discriminate. fold clean. fold peak.
      destruct (Rlt_dec peak 1e-10); [lra|].
      destruct (Rlt_dec 1.0 peak); [lra|reflexivity].
Qed.

Lemma validation_contract_witness :
  (exists valid,
      _validate_input [Np.NaN; Np.Finite 2; Np.Finite (-4); Np.PosInf] = Ok valid
      /\ valid = map (fun x => x / max_abs [0; 2; -4; 0] * 0.95) [0; 2; -4; 0]
      /\ max_abs valid = 0.95)
  /\ (exists msg,
      master_track (fun _ _ => Ok 2000) (__init__ (-14) (-1)) [Np.NaN; Np.Finite 0] 22050
      = (Raise (ValueError msg), __init__ (-14) (-1))).
Proof.
  split.
  - apply (validation_contract (fun _ _ => Ok 2000) (__init__ (-14) (-1))
             [Np.NaN; Np.Finite 2; Np.Finite (-4); Np.PosInf] 22050).
    eapply Rlt_le_trans; [|apply (max_abs_In _ (-4))].
    + rewrite Rabs_left; lra.
    + simpl. tauto.
  - destruct (validation_contract (fun _ _ => Ok 2000) (__init__ (-14) (-1))
                [Np.NaN; Np.Finite 0] 22050) as (_ & Hsilent & _).
    destruct Hsilent as (msg & _ & Hm).
    + apply Rle_lt_trans with 0; [|lra].
      apply max_abs_le; [lra|].
      simpl. intros x [<-|[<-|[]]]; rewrite Rabs_R0; lra.
    + now exists msg.
Defined.

(** ** The compressor *)

Lemma compressor_threshold_pos : 0 < compressor_threshold.
Proof. apply db_to_linear_pos. Qed.

Lemma compressor_threshold_lt_1 : compressor_threshold < 1.
Proof. apply db_to_linear_neg. lra. Qed.

Lemma compressor_knee_gt_1 : 1 < compressor_knee.
Proof. apply db_to_linear_gt_1. lra. Qed.

Lemma knee_edge_range :
  0 < compressor_threshold / compressor_knee < compressor_threshold.
Proof.
  pose proof compressor_threshold_pos as HT.
  pose proof compressor_knee_gt_1 as HK.
  assert (HiK : 0 < / compressor_knee < 1).
  { split; [apply Rinv_0_lt_compat; lra|].
    rewrite <- Rinv_1. apply Rinv_lt_contravar; lra. }
  unfold Rdiv. nra.
Qed.

Lemma db_to_linear_m40 : db_to_linear (-40) = 0.01.
Proof.
  unfold db_to_linear.
  replace (-40 / 20) with (- INR 2) by (simpl; lra).
  rewrite Rpower_Ropp, Rpower_pow by lra. simpl. lra.
Qed.

(** The lower edge of the knee is above [0.01]. *)
Lemma knee_edge_lower : 0.01 < compressor_threshold / compressor_knee.
Proof.
  pose proof compressor_knee_gt_1 as HK.
  replace (compressor_threshold / compressor_knee) with (db_to_linear (-21)).
  - rewrite <- db_to_linear_m40. apply db_to_linear_lt. lra.
  - unfold compressor_threshold, compressor_knee.
    replace (-18.0) with (-21 + 3.0) by lra.
    rewrite db_to_linear_plus. field.
    apply Rgt_not_eq, db_to_linear_pos.
Qed.

Lemma apply_compression_factory (self : MasteringEngine) (audio : list R) :
  factory_chain self ->
  _apply_compression self audio
  = match audio with
    | [] => Raise (IndexError "index 0 is out of bounds for axis 0 with size 0")
    | _ => Ok (Np.scale compressor_makeup_gain
                 (zip_with Rmult audio (map compressor_gain (envelope audio))))
    end.
Proof.
  intros (Hsr & Hcomp & _). unfold _apply_compression.
  rewrite Hcomp, Hsr. simpl c_threshold. simpl c_ratio. simpl c_attack.
  simpl c_release. simpl c_knee. simpl c_makeup_gain.
  rewrite attack_samples_default, release_samples_default.
  rewrite !smoothing_coefficient_pos by lia. simpl bind.
  destruct audio as [|x audio]; reflexivity.
Qed.

Lemma length_zip_with {A B C : Type} (f : A -> B -> C) (l : list A) (l' : list B) :
  length l = length l' -> length (zip_with f l l') = length l.
Proof.
  revert l'. induction l as [|a l IH]; intros [|b l'] H; simpl in *; try lia.
  rewrite IH; lia.
Qed.

Lemma nth_zip_with {A B C : Type} (f : A -> B -> C) (l : list A) (l' : list B)
    (i : nat) (da : A) (db : B) (dc : C) :
  length l = length l' -> (i < length l)%nat ->
  nth i (zip_with f l l') dc = f (nth i l da) (nth i l' db).
Proof.
  revert l' i. induction l as [|a l IH]; intros [|b l'] i H Hi; simpl in *; try lia.
  destruct i; [reflexivity|]. apply IH; lia.
Qed.

Lemma length_smooth (aa ar prev : R) (env : list R) :
  length (smooth aa ar prev env) = length env.
Proof.
  revert prev. induction env as [|e env IH]; intros prev; simpl; [reflexivity|].
  now rewrite IH.
Qed.

Lemma length_envelope (audio : list R) : length (envelope audio) = length audio.
Proof.
  unfold envelope, Np.abs. destruct audio as [|x audio]; [reflexivity|].
  cbn [map length]. now rewrite length_smooth, length_map.
Qed.

Lemma compressor_gain_below (env : R) :
  env < compressor_threshold / compressor_knee -> compressor_gain env = 1.
Proof.
  intros H. pose proof knee_edge_range as HE.
  unfold compressor_gain, gain_reduction_at.
  destruct (Rlt_dec compressor_threshold env); [lra|].
  destruct (Rlt_dec env (compressor_threshold / compressor_knee)); [|lra].
  reflexivity.
Qed.

Lemma compressor_gain_above (env : R) :
  compressor_threshold < env ->
  compressor_gain env
  = (compressor_threshold + (env - compressor_threshold) / 2.5) / env.
Proof.
  intros H. pose proof knee_edge_range as HE.
  unfold compressor_gain, gain_reduction_at.
  destruct (Rlt_dec compressor_threshold env); [|lra].
  destruct (Rlt_dec env (compressor_threshold / compressor_knee)); simpl;
    f_equal; lra.
Qed.

Lemma compressor_gain_knee (env : R) :
  compressor_threshold / compressor_knee <= env <= compressor_threshold ->
  compressor_gain env
  = (env + (1 / 2.5 - 1) * (env - compressor_threshold) ^ 2
           / (2 * compressor_threshold * (compressor_knee - 1))) / env.
Proof.
  intros H. unfold compressor_gain, gain_reduction_at.
  destruct (Rlt_dec compressor_threshold env); [lra|].
  destruct (Rlt_dec env (compressor_threshold / compressor_knee)); [lra|].
  reflexivity.
Qed.

(** C6.  The gain of the compressor is defined at every value of the
    smoothed envelope: it is [1] below [threshold / knee], at [0] in
    particular, where neither quotient by the envelope is selected (a gain
    other than [1] comes with a positive envelope); it is
    [(T + (env - T) / ratio) / env] above the threshold [T]; and the
    compressor multiplies each sample by the gain at its envelope and by
    the makeup gain. *)
Theorem compressor_gain_is_total (env : R) :
  (env < compressor_threshold / compressor_knee -> compressor_gain env = 1)
  /\ compressor_gain 0 = 1
  /\ (compressor_gain env <> 1 -> 0 < env)
  /\ (compressor_threshold < env ->
      compressor_gain env
      = (compressor_threshold + (env - compressor_threshold) / 2.5) / env)
  /\ (forall self audio,
      factory_chain self -> audio <> [] ->
      exists compressed,
        _apply_compression self audio = Ok compressed
        /\ length compressed = length audio
        /\ forall i, (i < length audio)%nat ->
             nth i compressed 0
             = nth i audio 0 * compressor_gain (nth i (envelope audio) 0)
               * db_to_linear 2.0).
Proof.
  split; [apply compressor_gain_below|].
  split; [apply compressor_gain_below, knee_edge_range|].
  split.
  { intros Hg. destruct (Rlt_dec 0 env) as [Hpos|Hneg]; [exact Hpos|].
    exfalso. apply Hg, compressor_gain_below.
    pose proof knee_edge_range. lra. }
  split; [apply compressor_gain_above|].
  intros self audio Hf Hne. eexists. split.
  - rewrite apply_compression_factory by assumption.
    destruct audio; [congruence|reflexivity].
  - assert (Hlen : length audio = length (map compressor_gain (envelope audio)))
      by now rewrite length_map, length_envelope.
    unfold Np.scale. split.
    + rewrite length_map. now apply length_zip_with.
    + intros i Hi.
      rewrite (nth_indep _ 0 (0 * compressor_makeup_gain))
        by (rewrite length_map, length_zip_with; assumption).
      rewrite (map_nth (fun x => x * compressor_makeup_gain)).
      rewrite (nth_zip_with _ _ _ _ 0 (compressor_gain 0)) by assumption.
      rewrite (map_nth compressor_gain). reflexivity.
Qed.

Lemma compressor_gain_is_total_witness :
  compressor_gain 0 = 1
  /\ compressor_gain 1 = (compressor_threshold + (1 - compressor_threshold) / 2.5) / 1.
Proof.
  destruct (compressor_gain_is_total 0) as (Hbelow & _).
  destruct (compressor_gain_is_total 1) as (_ & _ & _ & Habove & _).
  split.
  - apply Hbelow, knee_edge_range.
  - apply Habove, compressor_threshold_lt_1.
Defined.

Lemma alpha_attack_range : 0 < alpha_attack < 1.
Proof. apply (exp_neg_inv_range 220). lia. Qed.

Lemma alpha_release_range : 0 < alpha_release < 1.
Proof. apply (exp_neg_inv_range 2205). lia. Qed.

(** The follower stays below every bound that its input and its previous
    value are below: each step is a mean of the two with weights in
    [(0, 1)]. *)
Lemma smooth_lt (aa ar prev c : R) (env : list R) :
  0 < aa < 1 -> 0 < ar < 1 ->
  prev < c -> Forall (fun e => e < c) env ->
  Forall (fun e => e < c) (smooth aa ar prev env).
Proof.
  intros Haa Har. revert prev.
  induction env as [|e env IH]; intros prev Hp He; simpl; [constructor|].
  inversion He as [|? ? He0 He']; subst.
  assert (Hs : (if Rlt_dec prev e then aa * prev + (1 - aa) * e
                else ar * prev + (1 - ar) * e) < c)
    by (destruct (Rlt_dec prev e); nra).
  constructor; [exact Hs|]. now apply IH.
Qed.

Lemma envelope_lt (audio : list R) (c : R) :
  Forall (fun x => Rabs x < c) audio -> Forall (fun e => e < c) (envelope audio).
Proof.
  intros H. unfold envelope, Np.abs.
  destruct audio as [|x audio]; [constructor|]. cbn [map].
  inversion H as [|? ? Hx Ha]; subst.
  constructor; [exact Hx|].
  apply smooth_lt; [apply alpha_attack_range | apply alpha_release_range | exact Hx |].
  clear -Ha. induction Ha; simpl; constructor; auto.
Qed.

Lemma compressor_gain_at_threshold : compressor_gain compressor_threshold = 1.
Proof.
  pose proof knee_edge_range as HE.
  rewrite compressor_gain_knee by lra.
  replace ((compressor_threshold - compressor_threshold) ^ 2) with 0 by ring.
  unfold Rdiv at 2. rewrite Rmult_0_r, Rmult_0_l, Rplus_0_r.
  field. lra.
Qed.

Lemma zip_with_unit_gains (audio env : list R) :
  length audio = length env ->
  Forall (fun e => compressor_gain e = 1) env ->
  zip_with Rmult audio (map compressor_gain env) = audio.
Proof.
  revert env. induction audio as [|x audio IH]; intros [|e env] Hl Hg;
    simpl in *; try reflexivity; try discriminate.
  inversion Hg as [|? ? He Hg']; subst.
  rewrite He, IH by (assumption || lia). f_equal. lra.
Qed.

(** C3, as the code has it.  Where the smoothed envelope stays below
    [threshold / knee], the lower edge of the soft knee (or sits on the
    threshold itself), the compressor returns the makeup gain times the
    input. *)
Theorem compressor_transparent_below_knee (self : MasteringEngine) (audio : list R) :
  factory_chain self ->
  audio <> [] ->
  Forall (fun e => e < compressor_threshold / compressor_knee
                   \/ e = compressor_threshold)
         (envelope audio) ->
  _apply_compression self audio = Ok (map (fun x => db_to_linear 2.0 * x) audio).
Proof.
  intros Hf Hne Henv. rewrite apply_compression_factory by assumption.
  destruct audio as [|x audio]; [congruence|].
  rewrite zip_with_unit_gains.
  - unfold Np.scale, compressor_makeup_gain. f_equal.
    apply map_ext. intros. ring.
  - now rewrite length_envelope.
  - eapply Forall_impl; [|exact Henv]. intros e [He| ->].
    + now apply compressor_gain_below.
    + apply compressor_gain_at_threshold.
Qed.

Lemma compressor_transparent_below_knee_witness :
  _apply_compression (__init__ (-14) (-1)) [0.001; -0.002; 0]
  = Ok (map (fun x => db_to_linear 2.0 * x) [0.001; -0.002; 0]).
Proof.
  apply compressor_transparent_below_knee.
  - apply factory_chain_init.
  - discriminate.
  - eapply Forall_impl; [|apply (envelope_lt _ 0.01)].
    + intros e He. left. pose proof knee_edge_lower. lra.
    + repeat constructor.
      * rewrite Rabs_pos_eq; lra.
      * rewrite Rabs_left; lra.
      * rewrite Rabs_R0; lra.
Defined.

(** C3, as stated, fails inside the knee: the one-sample buffer at
    [threshold / knee] has its envelope below the threshold, and the
    compressor returns less than the makeup gain times the sample. *)
Lemma compressor_colours_the_knee :
  let x := compressor_threshold / compressor_knee in
  Forall (fun e => e <= compressor_threshold) (envelope [x])
  /\ exists compressed,
       _apply_compression (__init__ (-14) (-1)) [x] = Ok compressed
       /\ nth 0 compressed 0 < db_to_linear 2.0 * x
       /\ compressed <> map (fun s => db_to_linear 2.0 * s) [x].
Proof.
  intros x.
  pose proof knee_edge_range as HE. fold x in HE.
  pose proof compressor_threshold_pos as HT.
  pose proof compressor_knee_gt_1 as HK.
  pose proof (db_to_linear_pos 2.0) as Hm.
  assert (Henv : envelope [x] = [x]).
  { unfold envelope. simpl. rewrite Rabs_pos_eq by lra. reflexivity. }
  split.
  - rewrite Henv. repeat constructor. lra.
  - eexists. split.
    + rewrite apply_compression_factory by apply factory_chain_init.
      rewrite Henv. reflexivity.
    + set (c := (1 / 2.5 - 1) * (x - compressor_threshold) ^ 2
                / (2 * compressor_threshold * (compressor_knee - 1))).
      assert (Hc : c < 0).
      { unfold c, Rdiv.
        assert (0 < (x - compressor_threshold) ^ 2) by nra.
        assert (0 < / (2 * compressor_threshold * (compressor_knee - 1)))
          by (apply Rinv_0_lt_compat; nra).
        assert (0 < (x - compressor_threshold) ^ 2
                    * / (2 * compressor_threshold * (compressor_knee - 1)))
          by now apply Rmult_lt_0_compat.
        nra. }
      assert (Hout : nth 0 (Np.scale compressor_makeup_gain
                              (zip_with Rmult [x] (map compressor_gain [x]))) 0
                     = (x + c) * db_to_linear 2.0).
      { simpl. rewrite compressor_gain_knee by (fold x; lra).
        fold x. fold c. unfold compressor_makeup_gain. field. lra. }
      assert (Hlt : (x + c) * db_to_linear 2.0 < db_to_linear 2.0 * x) by nra.
      split.
      * rewrite Hout. exact Hlt.
      * intros Heq. apply (f_equal (fun l => nth 0 l 0)) in Heq.
        rewrite Hout in Heq. simpl in Heq. lra.
Qed.

(** ** The zero-phase filter: shapes *)

Section KernelShapes.

Context {F : Type} (O : Signal.Ops F).

Lemma length_lfilter_from (b a : Signal.Taps F) (z0 z1 : F) (x : list F) :
  length (Signal.lfilter_from O b a z0 z1 x) = length x.
Proof.
  revert z0 z1. induction x as [|xn x IH]; intros z0 z1; simpl; [reflexivity|].
  now rewrite IH.
Qed.

Lemma length_lfilter (b a : Signal.Taps F) (z0 z1 : F) (x : list F) :
  length (Signal.lfilter O b a z0 z1 x) = length x.
Proof. apply length_lfilter_from. Qed.

Lemma length_odd_ext (x : list F) (n : nat) :
  (n < length x)%nat -> length (Signal.odd_ext O x n) = (n + length x + n)%nat.
Proof.
  intros H. unfold Signal.odd_ext.
  assert (Htl : forall l : list F, length (tl l) = (length l - 1)%nat)
    by (intros [|? ?]; simpl; lia).
  rewrite !length_app, !length_map, length_rev, !length_firstn, !Htl, length_rev.
  lia.
Qed.

(** [filtfilt] returns for the signals of more than [9] samples whose
    filter has an initial state, and for no others; what it returns has
    the length of the signal.  The length is checked first. *)
Lemma filtfilt_long (b a : Signal.Taps F) (x : list F) (zi : F * F) :
  (9 < length x)%nat ->
  Signal.lfilter_zi O b a = Ok zi ->
  exists y, Signal.filtfilt O b a x = Ok y /\ length y = length x.
Proof.
  intros H Hzi. unfold Signal.filtfilt. change Signal.edge with 9%nat.
  destruct (Nat.leb_spec (length x) 9) as [Hle|_]; [lia|].
  rewrite Hzi. destruct zi as [zi0 zi1]. cbn [bind].
  eexists. split; [reflexivity|].
  rewrite length_firstn, length_skipn, !length_rev, !length_lfilter,
    length_rev, length_lfilter, length_odd_ext by lia.
  lia.
Qed.

Lemma filtfilt_singular (b a : Signal.Taps F) (x : list F) (e : exn) :
  (9 < length x)%nat ->
  Signal.lfilter_zi O b a = Raise e ->
  Signal.filtfilt O b a x = Raise e.
Proof.
  intros H Hzi. unfold Signal.filtfilt. change Signal.edge with 9%nat.
  destruct (Nat.leb_spec (length x) 9) as [Hle|_]; [lia|].
  now rewrite Hzi.
Qed.

Lemma filtfilt_short (b a : Signal.Taps F) (x : list F) :
  (length x <= 9)%nat ->
  exists msg, Signal.filtfilt O b a x = Raise (ValueError msg).
Proof.
  intros H. unfold Signal.filtfilt. change Signal.edge with 9%nat.
  destruct (Nat.leb_spec (length x) 9) as [_|Hgt]; [|lia].
  eexists. reflexivity.
Qed.

Lemma filtfilt_ok_inv (b a : Signal.Taps F) (x y : list F) :
  Signal.filtfilt O b a x = Ok y -> (9 < length x)%nat /\ length y = length x.
Proof.
  intros H. destruct (Nat.le_gt_cases (length x) 9) as [Hle|Hgt].
  - destruct (filtfilt_short b a x Hle) as (msg & Hm). congruence.
  - split; [exact Hgt|].
    destruct (Signal.lfilter_zi O b a) as [zi|e] eqn:Hzi.
    + destruct (filtfilt_long b a x zi Hgt Hzi) as (y' & Hy & Hl). congruence.
    + rewrite (filtfilt_singular b a x e Hgt Hzi) in H. discriminate.
Qed.

End KernelShapes.

(** ** Stages 3, 4 and 6 and the engine's own sample rate *)

Lemma master_track_keeps_chain avg (self : MasteringEngine) audio (sr : R) :
  let self' := snd (master_track avg self audio sr) in
  sample_rate self' = sample_rate self
  /\ compressor_params self' = compressor_params self
  /\ limiter_params self' = limiter_params self
  /\ target_lufs self' = target_lufs self
  /\ target_peak self' = target_peak self.
Proof.
  intros self'. subst self'.
  destruct (master_track_engine avg self audio sr) as [->|(c & ->)];
    repeat split.
Qed.

Lemma master_run_keeps_chain avg (self : MasteringEngine) calls :
  factory_chain self -> factory_chain (master_run avg self calls).
Proof.
  intros Hf. induction calls as [|call calls IH] using rev_ind; [exact Hf|].
  rewrite master_run_snoc.
  destruct (master_track_keeps_chain avg (master_run avg self calls)
              (fst call) (snd call)) as (H1 & H2 & H3 & _).
  destruct IH as (I1 & I2 & I3).
  repeat split; congruence.
Qed.

Lemma enhance_stereo_ext (self self' : MasteringEngine) (audio : list R) :
  sample_rate self = sample_rate self' ->
  _enhance_stereo self audio = _enhance_stereo self' audio.
Proof. intros H. unfold _enhance_stereo. now rewrite H. Qed.

Lemma apply_compression_ext (self self' : MasteringEngine) (audio : list R) :
  sample_rate self = sample_rate self' ->
  compressor_params self = compressor_params self' ->
  _apply_compression self audio = _apply_compression self' audio.
Proof. intros H H'. unfold _apply_compression. now rewrite H, H'. Qed.

Lemma apply_limiting_ext (self self' : MasteringEngine) (audio : list R) :
  sample_rate self = sample_rate self' ->
  limiter_params self = limiter_params self' ->
  _apply_limiting self audio = _apply_limiting self' audio.
Proof. intros H H'. unfold _apply_limiting. now rewrite H, H'. Qed.

(** ** Lengths along the pipeline *)

Lemma keeps_length_bind (f g : list R -> result (list R)) :
  keeps_length f -> keeps_length g ->
  keeps_length (fun audio => out <- f audio ;; g out).
Proof.
  intros Hf Hg audio. destruct (Hf audio) as [Hlen Hok]. split.
  - intros out H. destruct (f audio) as [mid_out|e] eqn:E; simpl in H; [|discriminate].
    destruct (Hg mid_out) as [Hlen' _].
    rewrite (Hlen' out H). now apply Hlen.
  - intros Hlong. destruct (Hok Hlong) as (mid_out & E). rewrite E. simpl.
    destruct (Hg mid_out) as [_ Hok']. apply Hok'.
    rewrite (Hlen mid_out E). exact Hlong.
Qed.

Lemma keeps_length_pure (f : list R -> list R) :
  (forall audio, length (f audio) = length audio) ->
  keeps_length (fun audio => Ok (f audio)).
Proof.
  intros H audio. split.
  - intros out E. inversion E. apply H.
  - intros _. now eexists.
Qed.

(** The initial state of the filter exists when the determinant
    [1 + a1 + a2] of the normalized denominator is not zero; otherwise
    [np.linalg.solve] raises. *)
Lemma lfilter_zi_regular (b a : Signal.Taps R) :
  let a' := Signal.normalize Signal.R_ops (Signal.t0 a) a in
  1 + Signal.t1 a' + Signal.t2 a' <> 0 ->
  exists zi, Signal.lfilter_zi Signal.R_ops b a = Ok zi.
Proof.
  intros a' H. unfold Signal.lfilter_zi. fold a'. cbn [Signal.is_zero Signal.R_ops].
  change (Signal.add Signal.R_ops
            (Signal.add Signal.R_ops (Signal.one Signal.R_ops) (Signal.t1 a'))
            (Signal.t2 a'))
    with (1 + Signal.t1 a' + Signal.t2 a').
  destruct (Req_dec_T (1 + Signal.t1 a' + Signal.t2 a') 0) as [E|_]; [contradiction|].
  now eexists.
Qed.

Lemma lfilter_zi_singular (b a : Signal.Taps R) :
  let a' := Signal.normalize Signal.R_ops (Signal.t0 a) a in
  1 + Signal.t1 a' + Signal.t2 a' = 0 ->
  Signal.lfilter_zi Signal.R_ops b a = Raise (LinAlgError "Singular matrix").
Proof.
  intros a' H. unfold Signal.lfilter_zi. fold a'. cbn [Signal.is_zero Signal.R_ops].
  change (Signal.add Signal.R_ops
            (Signal.add Signal.R_ops (Signal.one Signal.R_ops) (Signal.t1 a'))
            (Signal.t2 a'))
    with (1 + Signal.t1 a' + Signal.t2 a').
  destruct (Req_dec_T (1 + Signal.t1 a' + Signal.t2 a') 0) as [_|N];
    [reflexivity|contradiction].
Qed.

Lemma preserves_length_filtfilt (b a : Signal.Taps R) :
  preserves_length (filtfilt b a).
Proof. intros audio out H. now apply filtfilt_ok_inv in H. Qed.

Lemma filtfilt_returns (b a : Signal.Taps R) (audio : list R) :
  let a' := Signal.normalize Signal.R_ops (Signal.t0 a) a in
  1 + Signal.t1 a' + Signal.t2 a' <> 0 ->
  (9 < length audio)%nat ->
  exists out, filtfilt b a audio = Ok out /\ length out = length audio.
Proof.
  intros a' H Hlong. destruct (lfilter_zi_regular b a H) as (zi & Hzi).
  exact (filtfilt_long Signal.R_ops b a audio zi Hlong Hzi).
Qed.

Lemma keeps_length_filtfilt (b a : Signal.Taps R) :
  let a' := Signal.normalize Signal.R_ops (Signal.t0 a) a in
  1 + Signal.t1 a' + Signal.t2 a' <> 0 ->
  keeps_length (filtfilt b a).
Proof.
  intros a' H audio. split.
  - apply preserves_length_filtfilt.
  - intros Hlong. destruct (filtfilt_returns b a audio H Hlong) as (y & Hy & _).
    now exists y.
Qed.

Lemma preserves_length_bind (f g : list R -> result (list R)) :
  preserves_length f -> preserves_length g ->
  preserves_length (fun audio => out <- f audio ;; g out).
Proof.
  intros Hf Hg audio out H.
  destruct (f audio) as [mid_out|e] eqn:E; simpl in H; [|discriminate].
  rewrite (Hg mid_out out H). now apply Hf.
Qed.

Lemma preserves_length_low_shelf (self : MasteringEngine) (sr : R) :
  preserves_length (fun audio => _apply_low_shelf self audio sr).
Proof.
  intros audio out. unfold _apply_low_shelf.
  destruct (Rlt_dec 0.1 (Rabs (gain (low_shelf (eq_params self))))).
  - destruct (Py.float_div _ sr) as [w0|e]; cbn [bind]; [|discriminate].
    apply preserves_length_filtfilt.
  - now intros [= <-].
Qed.

Lemma preserves_length_high_shelf (self : MasteringEngine) (sr : R) :
  preserves_length (fun audio => _apply_high_shelf self audio sr).
Proof.
  intros audio out. unfold _apply_high_shelf.
  destruct (Rlt_dec 0.1 (Rabs (gain (high_shelf (eq_params self))))).
  - destruct (Py.float_div _ sr) as [w0|e]; cbn [bind]; [|discriminate].
    apply preserves_length_filtfilt.
  - now intros [= <-].
Qed.

Lemma preserves_length_peaking_band (sr : R) (params : Band) :
  preserves_length (peaking_band sr params).
Proof.
  intros audio out. unfold peaking_band, _peaking_filter.
  destruct (Rlt_dec 0.1 (Rabs (gain params))).
  - destruct (Py.float_div _ sr) as [w0|e]; cbn [bind]; [|discriminate].
    apply preserves_length_filtfilt.
  - now intros [= <-].
Qed.

Lemma preserves_length_peaking_filters (self : MasteringEngine) (sr : R) :
  preserves_length (fun audio => _apply_peaking_filters self audio sr).
Proof.
  unfold _apply_peaking_filters.
  apply (preserves_length_bind (peaking_band sr (low_mid (eq_params self)))).
  - apply preserves_length_peaking_band.
  - apply (preserves_length_bind (peaking_band sr (mid (eq_params self))));
      apply preserves_length_peaking_band.
Qed.

(** The three filter stages of the equalizer, on the gains found in
    [self]. *)
Lemma preserves_length_eq_filters (self : MasteringEngine) (sr : R) :
  preserves_length (fun audio =>
                      audio <- _apply_low_shelf self audio sr ;;
                      audio <- _apply_peaking_filters self audio sr ;;
                      _apply_high_shelf self audio sr).
Proof.
  apply (preserves_length_bind (fun audio => _apply_low_shelf self audio sr)).
  - apply preserves_length_low_shelf.
  - apply (preserves_length_bind (fun audio => _apply_peaking_filters self audio sr)).
    + apply preserves_length_peaking_filters.
    + apply preserves_length_high_shelf.
Qed.

Lemma keeps_length_compression (self : MasteringEngine) :
  factory_chain self -> keeps_length (_apply_compression self).
Proof.
  intros Hf audio. rewrite apply_compression_factory by assumption.
  assert (Hlen : length (Np.scale compressor_makeup_gain
                           (zip_with Rmult audio (map compressor_gain (envelope audio))))
                 = length audio).
  { unfold Np.scale. rewrite length_map, length_zip_with; [reflexivity|].
    now rewrite length_map, length_envelope. }
  destruct audio as [|x audio].
  - split; [discriminate | simpl; lia].
  - split; [intros out E; inversion E; exact Hlen | intros _; now eexists].
Qed.

Lemma keeps_length_limiting (self : MasteringEngine) :
  factory_chain self -> keeps_length (_apply_limiting self).
Proof.
  intros Hf audio. rewrite apply_limiting_factory by assumption. split.
  - intros out E. inversion E. now rewrite length_map, length_seq.
  - intros _. now eexists.
Qed.

Lemma length_excitation (audio : list R) :
  length (_apply_harmonic_excitation audio) = length audio.
Proof. apply length_map. Qed.

Lemma clip_nonneg (n k : Z) : (0 <= k)%Z -> Py.clip n k = Z.to_nat (Z.min k n).
Proof. intros H. unfold Py.clip. destruct (Z.ltb_spec k 0); [lia|reflexivity]. Qed.

Lemma clip_neg (n k : Z) : (k < 0)%Z -> Py.clip n k = Z.to_nat (Z.max (k + n) 0).
Proof. intros H. unfold Py.clip. destruct (Z.ltb_spec k 0); [reflexivity|lia]. Qed.

Lemma assign_slice_fits (start stop : Z) (dst src : list R) :
  let n := Z.of_nat (length dst) in
  length src = (Py.clip n stop - Py.clip n start)%nat ->
  (Py.clip n start + length src <= length dst)%nat ->
  exists row, assign_slice start stop dst src = Ok row /\ length row = length dst.
Proof.
  intros n Hsrc Hfit. unfold assign_slice. fold n. rewrite <- Hsrc.
  rewrite Nat.eqb_refl. eexists. split; [reflexivity|].
  rewrite !length_app, length_firstn, length_skipn. lia.
Qed.

Lemma keeps_length_enhance_stereo (self : MasteringEngine) :
  factory_chain self -> keeps_length (_enhance_stereo self).
Proof.
  intros (Hsr & _) audio. unfold _enhance_stereo.
  rewrite Hsr, delay_samples_default.
  set (n := length audio).
  destruct (assign_slice_fits 22 (Z.of_nat n) (repeat 0 n) (Py.slice_to (Z.opp 22) audio))
    as (row & -> & Hrow).
  { unfold Py.slice_to. rewrite length_firstn, repeat_length. fold n.
    rewrite ?(clip_neg _ (Z.opp 22)), ?(clip_nonneg _ 22),
      ?(clip_nonneg _ (Z.of_nat n)) by lia.
    lia. }
  { unfold Py.slice_to. rewrite length_firstn, repeat_length. fold n.
    rewrite ?(clip_neg _ (Z.opp 22)), ?(clip_nonneg _ 22),
      ?(clip_nonneg _ (Z.of_nat n)) by lia.
    lia. }
  rewrite repeat_length in Hrow. simpl bind.
  destruct (assign_slice_fits 0 22 row (Py.slice_to 22 audio)) as (row' & -> & Hrow').
  { unfold Py.slice_to. rewrite length_firstn, Hrow. fold n.
    rewrite ?(clip_nonneg _ 22), ?(clip_nonneg _ 0) by lia. lia. }
  { unfold Py.slice_to. rewrite length_firstn, Hrow. fold n.
    rewrite ?(clip_nonneg _ 22), ?(clip_nonneg _ 0) by lia. lia. }
  rewrite Hrow in Hrow'. simpl bind.
  destruct (keeps_length_filtfilt (taps 1.0 0 0) (taps 1.0 (-0.5) 0.1)
              ltac:(simpl; lra) row') as [Hl0 Hok0].
  destruct (keeps_length_filtfilt (taps 0.8 (-0.8) 0) (taps 1.0 (-0.7) 0.2)
              ltac:(simpl; lra) audio) as [Hl1 Hok1].
  split.
  - intros out E.
    destruct (filtfilt (taps 1.0 0 0) (taps 1.0 (-0.5) 0.1) row') as [s0|] eqn:E0;
      simpl in E; [|discriminate].
    destruct (filtfilt (taps 0.8 (-0.8) 0) (taps 1.0 (-0.7) 0.2) audio) as [s1|] eqn:E1;
      simpl in E; [|discriminate].
    inversion E. rewrite length_zip_with.
    + rewrite (Hl0 s0 eq_refl). exact Hrow'.
    + rewrite (Hl0 s0 eq_refl), (Hl1 s1 eq_refl). exact Hrow'.
  - intros Hlong.
    destruct Hok0 as (s0 & ->); [rewrite Hrow'; exact Hlong|].
    destruct (Hok1 Hlong) as (s1 & ->). simpl. now eexists.
Qed.

Lemma keeps_length_k_weighting (sr : R) :
  keeps_length (fun audio => _k_weighting audio sr).
Proof.
  unfold _k_weighting.
  apply (keeps_length_bind (filtfilt _ _) (filtfilt _ _));
    apply keeps_length_filtfilt; simpl; lra.
Qed.

Lemma keeps_length_normalize (self : MasteringEngine) (sr : R) :
  keeps_length (fun audio => _normalize_loudness self audio sr).
Proof.
  intros audio. unfold _normalize_loudness, _calculate_lufs.
  destruct (keeps_length_k_weighting sr audio) as [_ Hok]. split.
  - intros out E. destruct (_k_weighting audio sr); simpl in E; [|discriminate].
    inversion E. apply length_map.
  - intros Hlong. destruct (Hok Hlong) as (kw & ->). simpl. now eexists.
Qed.

Lemma keeps_length_after_eq (self : MasteringEngine) (sr : R) :
  factory_chain self -> keeps_length (fun audio => after_eq self audio sr).
Proof.
  intros Hf. unfold after_eq.
  apply (keeps_length_bind (_apply_compression self)); [now apply keeps_length_compression|].
  apply (keeps_length_bind (_enhance_stereo self)); [now apply keeps_length_enhance_stereo|].
  apply (keeps_length_bind (fun audio => Ok (_apply_harmonic_excitation audio))
           (fun audio => audio <- _apply_limiting self audio ;;
                         _normalize_loudness self audio sr)).
  - apply keeps_length_pure, length_excitation.
  - apply (keeps_length_bind (_apply_limiting self)); [now apply keeps_length_limiting|].
    apply keeps_length_normalize.
Qed.

Lemma validate_input_length (audio : list Np.sample) (valid : list R) :
  _validate_input audio = Ok valid -> length valid = length audio.
Proof.
  destruct audio as [|s audio]; [discriminate|].
  rewrite validate_input_cases by discriminate. cbv zeta.
  destruct (Rlt_dec _ _); [discriminate|].
  destruct (Rlt_dec _ _); intros [= <-];
    unfold Np.nan_to_num; simpl; now rewrite ?length_map.
Qed.

Lemma factory_chain_set_eq (e : EqParams) (self : MasteringEngine) :
  factory_chain self -> factory_chain (set_eq_params e self).
Proof. intros H. exact H. Qed.

(** The stereo enhancer refuses what its filters refuse. *)
Lemma enhance_stereo_short (self : MasteringEngine) (audio : list R) :
  factory_chain self -> (length audio <= 9)%nat ->
  exists e, _enhance_stereo self audio = Raise e.
Proof.
  intros Hf Hshort.
  destruct (_enhance_stereo self audio) as [out|e] eqn:E; [|now exists e].
  exfalso. revert E. unfold _enhance_stereo.
  destruct (assign_slice _ _ _ _) as [row|]; simpl; [|discriminate].
  destruct (assign_slice _ _ _ _) as [row'|]; simpl; [|discriminate].
  destruct (filtfilt _ _ row'); simpl; [|discriminate].
  destruct (filtfilt _ _ audio) as [s1|] eqn:E1; simpl; [|discriminate].
  apply filtfilt_ok_inv in E1. lia.
Qed.

Lemma after_eq_short (self : MasteringEngine) (audio : list R) (sr : R) :
  factory_chain self -> (length audio <= 9)%nat ->
  exists e, after_eq self audio sr = Raise e.
Proof.
  intros Hf Hshort. unfold after_eq.
  destruct (_apply_compression self audio) as [compressed|e] eqn:E;
    simpl; [|now exists e].
  destruct (keeps_length_compression self Hf audio) as [Hlen _].
  destruct (enhance_stereo_short self compressed Hf) as (e & ->).
  - rewrite (Hlen _ E). exact Hshort.
  - now exists e.
Qed.

(** ** When the equalizer returns *)

Lemma master_run_gains_fixed avg (tl' tp : R) calls :
  gains_fixed (eq_params (master_run avg (__init__ tl' tp) calls)).
Proof.
  induction calls as [|call calls IH] using rev_ind; [apply gains_fixed_init|].
  rewrite master_run_snoc.
  destruct (master_track_engine avg (master_run avg (__init__ tl' tp) calls)
              (fst call) (snd call)) as [->|(c & ->)]; [exact IH|].
  simpl eq_params. now apply gains_fixed_retune.
Qed.

Lemma bands_fixed_init : bands_fixed _init_eq_params.
Proof. unfold bands_fixed; simpl. repeat split; lra. Qed.

Lemma bands_fixed_retune (c : R) (e : EqParams) :
  bands_fixed e -> bands_fixed (retune c e).
Proof.
  unfold bands_fixed, retune. intros H.
  destruct (Rlt_dec c 1000); [|destruct (Rlt_dec 4000 c)]; simpl; exact H.
Qed.

Lemma master_run_bands_fixed avg (tl tp : R) calls :
  bands_fixed (eq_params (master_run avg (__init__ tl tp) calls)).
Proof.
  induction calls as [|call calls IH] using rev_ind; [apply bands_fixed_init|].
  rewrite master_run_snoc.
  destruct (master_track_engine avg (master_run avg (__init__ tl tp) calls)
              (fst call) (snd call)) as [->|(c & ->)]; [exact IH|].
  simpl eq_params. now apply bands_fixed_retune.
Qed.

(** The angle [w0] of a band at or below the Nyquist frequency. *)
Lemma band_angle (f sr : R) :
  0 < f -> 2 * f <= sr -> 0 < 2 * PI * f / sr <= PI.
Proof.
  intros Hf Hsr. pose proof PI_RGT_0 as Hpi.
  assert (Hi : 0 < / sr) by (apply Rinv_0_lt_compat; lra).
  assert (Ht : 0 < 2 * f / sr <= 1).
  { unfold Rdiv. split; [nra|].
    apply Rmult_le_reg_r with sr; [lra|].
    rewrite Rmult_assoc, Rinv_l by lra. lra. }
  replace (2 * PI * f / sr) with (PI * (2 * f / sr)) by (field; lra).
  nra.
Qed.

Lemma sin_cos_band (w : R) : 0 < w <= PI -> 0 <= sin w /\ -1 <= cos w < 1.
Proof.
  intros [H0 [H1| ->]].
  - pose proof (sin_gt_0 w H0 H1) as Hs.
    pose proof (sin2_cos2 w) as Hsc. unfold Rsqr in Hsc.
    pose proof (COS_bound w) as Hc.
    split; [lra|]. split; [lra|].
    destruct (Rlt_dec (cos w) 1) as [H|H]; [exact H|].
    assert (cos w = 1) by lra. nra.
  - rewrite sin_PI, cos_PI. lra.
Qed.

Lemma peaking_band_flat (sr : R) (params : Band) (audio : list R) :
  Rabs (gain params) <= 0.1 -> peaking_band sr params audio = Ok audio.
Proof.
  intros H. unfold peaking_band. destruct (Rlt_dec _ _); [lra|reflexivity].
Qed.

Lemma low_shelf_flat (self : MasteringEngine) (audio : list R) (sr : R) :
  Rabs (gain (low_shelf (eq_params self))) <= 0.1 ->
  _apply_low_shelf self audio sr = Ok audio.
Proof.
  intros H. unfold _apply_low_shelf. destruct (Rlt_dec _ _); [lra|reflexivity].
Qed.

Lemma high_shelf_flat (self : MasteringEngine) (audio : list R) (sr : R) :
  Rabs (gain (high_shelf (eq_params self))) <= 0.1 ->
  _apply_high_shelf self audio sr = Ok audio.
Proof.
  intros H. unfold _apply_high_shelf. destruct (Rlt_dec _ _); [lra|reflexivity].
Qed.

Lemma float_div_ok (a b : R) : b <> 0 -> Py.float_div a b = Ok (a / b).
Proof.
  intros H. unfold Py.float_div. destruct (Req_dec_T b 0); [contradiction|reflexivity].
Qed.

(** The determinant of the initial-state system of a biquad normalized
    by [a0]. *)
Lemma biquad_regular (a0 a1 a2 : R) :
  a0 <> 0 -> a0 + a1 + a2 <> 0 ->
  let a := taps 1 (a1 / a0) (a2 / a0) in
  let a' := Signal.normalize Signal.R_ops (Signal.t0 a) a in
  1 + Signal.t1 a' + Signal.t2 a' <> 0.
Proof.
  intros Ha0 Hs a a'. subst a' a. simpl. intros H. apply Hs.
  replace (a0 + a1 + a2) with (a0 * (1 + a1 / a0 / 1 + a2 / a0 / 1))
    by (field; exact Ha0).
  rewrite H. ring.
Qed.

Lemma biquad_singular (a0 a1 a2 : R) :
  a0 <> 0 -> a0 + a1 + a2 = 0 ->
  let a := taps 1 (a1 / a0) (a2 / a0) in
  let a' := Signal.normalize Signal.R_ops (Signal.t0 a) a in
  1 + Signal.t1 a' + Signal.t2 a' = 0.
Proof.
  intros Ha0 Hs a a'. subst a' a. simpl.
  replace (1 + a1 / a0 / 1 + a2 / a0 / 1) with ((a0 + a1 + a2) / a0)
    by (field; exact Ha0).
  rewrite Hs. unfold Rdiv. ring.
Qed.

(** Up to the Nyquist frequency a peaking filter and the high shelf have
    an initial state: [sin w0 >= 0] keeps [a0] positive and [cos w0 < 1]
    keeps the determinant away from zero. *)
Lemma peaking_filter_returns (sr : R) (params : Band) (audio : list R) :
  (9 < length audio)%nat ->
  0 < freq params -> 2 * freq params <= sr -> 0 < q params ->
  exists out,
    _peaking_filter audio sr params = Ok out /\ length out = length audio.
Proof.
  intros Hn Hf Hsr Hq. unfold _peaking_filter.
  rewrite float_div_ok by lra. cbn [bind]. cbv zeta.
  destruct (sin_cos_band _ (band_angle _ _ Hf Hsr)) as (Hs & Hc).
  set (w0 := 2 * PI * freq params / sr) in *.
  set (A := Rpower 10 (gain params / 40)).
  assert (HA : 0 < A) by (unfold A, Rpower; apply exp_pos).
  set (alpha := sin w0 / (2 * q params)).
  assert (Halpha : 0 <= alpha).
  { unfold alpha, Rdiv. apply Rmult_le_pos; [lra|].
    left. apply Rinv_0_lt_compat. lra. }
  assert (HaA : 0 <= alpha / A).
  { unfold Rdiv. apply Rmult_le_pos; [exact Halpha|].
    left. now apply Rinv_0_lt_compat. }
  apply filtfilt_returns; [apply biquad_regular; lra|exact Hn].
Qed.

Lemma peaking_band_returns (sr : R) (params : Band) (audio : list R) :
  (9 < length audio)%nat ->
  0 < freq params -> 2 * freq params <= sr -> 0 < q params ->
  exists out,
    peaking_band sr params audio = Ok out /\ length out = length audio.
Proof.
  intros. unfold peaking_band.
  destruct (Rlt_dec _ _); [now apply peaking_filter_returns|now exists audio].
Qed.

Lemma high_shelf_returns (self : MasteringEngine) (sr : R) (audio : list R) :
  (9 < length audio)%nat ->
  0 < freq (high_shelf (eq_params self)) ->
  2 * freq (high_shelf (eq_params self)) <= sr ->
  exists out,
    _apply_high_shelf self audio sr = Ok out /\ length out = length audio.
Proof.
  intros Hn Hf Hsr. unfold _apply_high_shelf. cbv zeta.
  destruct (Rlt_dec _ _); [|now exists audio].
  rewrite float_div_ok by lra. cbn [bind].
  destruct (sin_cos_band _ (band_angle _ _ Hf Hsr)) as (Hs & Hc).
  set (w0 := 2 * PI * freq (high_shelf (eq_params self)) / sr) in *.
  set (A := Rpower 10 (gain (high_shelf (eq_params self)) / 40)).
  assert (HA : 0 < A) by (unfold A, Rpower; apply exp_pos).
  set (alpha := sin w0 / 2 * sqrt ((A + 1 / A) * (1 / 0.7 - 1) + 2)).
  assert (Halpha : 0 <= alpha).
  { unfold alpha. apply Rmult_le_pos; [lra|apply sqrt_pos]. }
  pose proof (sqrt_pos A) as HsA. set (sA := sqrt A) in *.
  assert (Hp : 0 <= sA * alpha) by now apply Rmult_le_pos.
  assert (Hm : 0 < A * (1 - cos w0)) by (apply Rmult_lt_0_compat; lra).
  assert (Hq : 0 < 1 + cos w0 + A * (1 - cos w0)) by lra.
  apply filtfilt_returns; [apply biquad_regular; nra|exact Hn].
Qed.

(** On the gains and bands of an engine built by [__init__], above
    16 kHz, the equalizer's filters return on every buffer of more than
    [9] samples. *)
Lemma eq_filters_return (self : MasteringEngine) (sr : R) (audio : list R) :
  16000 < sr -> (9 < length audio)%nat ->
  gains_fixed (eq_params self) -> bands_fixed (eq_params self) ->
  exists out,
    (a <- _apply_low_shelf self audio sr ;;
     a <- _apply_peaking_filters self a sr ;;
     _apply_high_shelf self a sr) = Ok out
    /\ length out = length audio.
Proof.
  intros Hsr Hn (Hg & _) ((F1 & Q1) & (F2 & Q2) & (F3 & Q3) & F4).
  rewrite low_shelf_flat by (rewrite Hg, Rabs_R0; lra). cbn [bind].
  unfold _apply_peaking_filters.
  destruct (peaking_band_returns sr (low_mid (eq_params self)) audio)
    as (a1 & -> & L1); rewrite ?F1, ?Q1; try (exact Hn || lra). cbn [bind].
  destruct (peaking_band_returns sr (mid (eq_params self)) a1)
    as (a2 & -> & L2); rewrite ?F2, ?Q2, ?L1; try (exact Hn || lra). cbn [bind].
  destruct (peaking_band_returns sr (high_mid (eq_params self)) a2)
    as (a3 & -> & L3); rewrite ?F3, ?Q3, ?L2, ?L1; try (exact Hn || lra).
  cbn [bind].
  destruct (high_shelf_returns self sr a3) as (a4 & -> & L4);
    rewrite ?F4, ?L3, ?L2, ?L1; try (exact Hn || lra).
  exists a4. split; [reflexivity|]. congruence.
Qed.

(** ** The whole call *)

(** [master_track] on an input that validation accepts: when the analysis
    raises the call ends there, with the engine as it was; when it returns
    the equalizer assigns, then come the filters and the rest of the
    chain. *)
Lemma master_track_valid avg (self : MasteringEngine) (audio : list Np.sample)
    (sr : R) (valid : list R) (c : R) :
  _validate_input audio = Ok valid ->
  avg valid sr = Ok c ->
  let self' := set_eq_params (retune c (eq_params self)) self in
  master_track avg self audio sr
  = (filtered <- (a <- _apply_low_shelf self' valid sr ;;
                  a <- _apply_peaking_filters self' a sr ;;
                  _apply_high_shelf self' a sr) ;;
     after_eq self' filtered sr, self').
Proof.
  intros Ev Hc self'. unfold master_track.
  destruct audio as [|s audio]; [discriminate|].
  rewrite Ev. unfold _apply_multiband_eq. rewrite Hc. fold self'.
  match goal with |- context [match ?r with Ok _ => _ | Raise _ => _ end] =>
    destruct r as [filtered|e] end; reflexivity.
Qed.

Lemma master_track_analysis_raises avg (self : MasteringEngine)
    (audio : list Np.sample) (sr : R) (valid : list R) (e : exn) :
  _validate_input audio = Ok valid ->
  avg valid sr = Raise e ->
  master_track avg self audio sr = (Raise e, self).
Proof.
  intros Ev He. unfold master_track.
  destruct audio as [|s audio]; [discriminate|].
  rewrite Ev. unfold _apply_multiband_eq. now rewrite He.
Qed.

(** [master_track] raises on every buffer of at most [9] samples, the
    padding of [filtfilt]. *)
Lemma master_track_short avg (self : MasteringEngine) (audio : list Np.sample) (sr : R) :
  factory_chain self -> (length audio <= 9)%nat ->
  exists e, fst (master_track avg self audio sr) = Raise e.
Proof.
  intros Hf Hshort.
  destruct (_validate_input audio) as [valid|e] eqn:Ev.
  2:{ rewrite (master_track_refused avg self audio sr e Ev). now exists e. }
  destruct (avg valid sr) as [c|e] eqn:Hc.
  2:{ rewrite (master_track_analysis_raises avg self audio sr valid e Ev Hc).
      now exists e. }
  rewrite (master_track_valid avg self audio sr valid c Ev Hc). cbv zeta.
  apply validate_input_length in Ev.
  set (self' := set_eq_params _ self).
  pose proof (preserves_length_eq_filters self' sr valid) as Hlen.
  cbv beta in Hlen.
  destruct (a <- _apply_low_shelf self' valid sr ;; _) as [filtered|e];
    [|now exists e].
  cbn [bind fst]. apply after_eq_short.
  - apply factory_chain_set_eq, Hf.
  - rewrite (Hlen _ eq_refl), Ev. exact Hshort.
Qed.

(** On an engine with the factory chain, the gains and the bands of
    [__init__]: [master_track] returns a buffer of the length of the input
    when validation accepts the input, the analysis returns, the input has
    more than [9] samples and the sample rate is above 16 kHz. *)
Lemma master_track_returns avg (self : MasteringEngine) (audio : list Np.sample)
    (sr : R) (valid : list R) (c : R) :
  factory_chain self ->
  gains_fixed (eq_params self) -> bands_fixed (eq_params self) ->
  _validate_input audio = Ok valid ->
  avg valid sr = Ok c ->
  (9 < length audio)%nat ->
  16000 < sr ->
  exists out,
    fst (master_track avg self audio sr) = Ok out /\ length out = length audio.
Proof.
  intros Hf Hg Hb Ev Hc Hlong Hsr.
  rewrite (master_track_valid avg self audio sr valid c Ev Hc). cbv zeta.
  apply validate_input_length in Ev.
  set (self' := set_eq_params _ self).
  assert (Hf' : factory_chain self') by apply factory_chain_set_eq, Hf.
  destruct (eq_filters_return self' sr valid Hsr) as (filtered & E & Hlen);
    [rewrite Ev; exact Hlong|apply gains_fixed_retune, Hg
    |apply bands_fixed_retune, Hb|].
  rewrite E. cbn [bind fst].
  destruct (keeps_length_after_eq self' sr Hf' filtered) as [Hlen' Hok'].
  destruct Hok' as (out & E'); [rewrite Hlen, Ev; exact Hlong|].
  exists out. split; [exact E'|].
  rewrite (Hlen' _ E'), Hlen. exact Ev.
Qed.

(** C7, as the code has it.  On an engine built by [__init__] and used
    through [master_track]: when validation accepts the input, the input
    has more than [9] samples, the analysis returns and the [sample_rate]
    argument is above 16 kHz (so that every band the equalizer can run
    lies below the Nyquist frequency), [master_track] returns a buffer of
    the length of the input. *)
Theorem master_track_keeps_length avg (tl tp : R)
    (calls : list (list Np.sample * R))
    (audio : list Np.sample) (sr : R) (valid : list R) (c : R) :
  let self := master_run avg (__init__ tl tp) calls in
  _validate_input audio = Ok valid ->
  avg valid sr = Ok c ->
  (9 < length audio)%nat ->
  16000 < sr ->
  exists out,
    fst (master_track avg self audio sr) = Ok out /\ length out = length audio.
Proof.
  intros self Ev Hc Hlong Hsr.
  apply (master_track_returns avg self audio sr valid c); try assumption.
  - apply master_run_keeps_chain, factory_chain_init.
  - apply master_run_gains_fixed.
  - apply master_run_bands_fixed.
Qed.

Lemma validate_input_in_range (audio : list Np.sample) :
  audio <> [] ->
  1e-10 <= max_abs (Np.nan_to_num audio) <= 1.0 ->
  _validate_input audio = Ok (Np.nan_to_num audio).
Proof.
  intros Hne Hp. rewrite validate_input_cases by assumption. cbv zeta.
  destruct (Rlt_dec _ _); [lra|]. destruct (Rlt_dec _ _); [lra|reflexivity].
Qed.

Lemma nan_to_num_finite (l : list R) : Np.nan_to_num (map Np.Finite l) = l.
Proof.
  unfold Np.nan_to_num. rewrite map_map. simpl. apply map_id.
Qed.

Lemma Forall_abs_le_triangle10 : forall x, In x triangle10 -> Rabs x <= 0.5.
Proof.
  intros x Hx. unfold triangle10 in Hx. simpl in Hx.
  repeat (destruct Hx as [<-|Hx];
          [apply Rabs_le; lra|]).
  contradiction.
Qed.

Lemma validate_triangle10 :
  _validate_input (map Np.Finite triangle10) = Ok triangle10.
Proof.
  rewrite validate_input_in_range; rewrite ?nan_to_num_finite;
    [reflexivity | discriminate |].
  split.
  - apply Rle_trans with (Rabs 0.5); [rewrite Rabs_pos_eq; lra|].
    apply max_abs_In. now left.
  - apply max_abs_le; [lra|]. intros x Hx.
    apply Forall_abs_le_triangle10 in Hx. lra.
Qed.

Lemma master_track_keeps_length_witness :
  exists out,
    fst (master_track (fun _ _ => Ok 500)
           (master_run (fun _ _ => Ok 500) (__init__ (-14) (-1)) [])
           (map Np.Finite triangle10) 22050) = Ok out
    /\ length out = 10%nat.
Proof.
  apply (master_track_keeps_length (fun _ _ => Ok 500) (-14) (-1) []
           (map Np.Finite triangle10) 22050 triangle10 500).
  - apply validate_triangle10.
  - reflexivity.
  - simpl. lia.
  - lra.
Defined.

(** C7, as stated, fails on short buffers: validation accepts the single
    sample [0.5], and [master_track] ends with an exception, the one
    [filtfilt] raises in the stereo enhancer, and returns no buffer. *)
Lemma master_track_refuses_short_input :
  let audio := [Np.Finite 0.5] in
  let run := master_track (fun _ _ => Ok 2000) (__init__ (-14) (-1)) audio 22050 in
  _validate_input audio = Ok [0.5]
  /\ (exists e, fst run = Raise e)
  /\ ~ (exists out, fst run = Ok out /\ length out = length audio).
Proof.
  intros audio run.
  assert (Hv : _validate_input audio = Ok [0.5]).
  { subst audio. change [Np.Finite 0.5] with (map Np.Finite [0.5]).
    rewrite validate_input_in_range; rewrite ?nan_to_num_finite;
      [reflexivity | discriminate |].
    rewrite max_abs_singleton, Rabs_pos_eq; lra. }
  destruct (master_track_short (fun _ _ => Ok 2000) (__init__ (-14) (-1)) audio 22050)
    as (e & He).
  { apply factory_chain_init. }
  { simpl. lia. }
  fold run in He. split; [exact Hv|]. split; [now exists e|].
  intros (out & Hout & _). congruence.
Qed.

(** ** The zero-phase filter: a scalar gain passes through *)

Section KernelGain.

Variable g : R.

Local Abbreviation O := Signal.R_ops.

Lemma lfilter_from_scale (b a : Signal.Taps R) (z0 z1 : R) (x : list R) :
  Signal.lfilter_from O b a (z0 * g) (z1 * g) (Np.scale g x)
  = Np.scale g (Signal.lfilter_from O b a z0 z1 x).
Proof.
  unfold Np.scale.
  revert z0 z1. induction x as [|xn x IH]; intros z0 z1; [reflexivity|].
  cbn [map Signal.lfilter_from]. f_equal.
  - unfold O. simpl. ring.
  - rewrite <- IH. f_equal; unfold O; simpl; ring.
Qed.

Lemma hd_scale (x : list R) : hd 0 (Np.scale g x) = hd 0 x * g.
Proof. destruct x; simpl; ring. Qed.

Lemma rev_scale (x : list R) : rev (Np.scale g x) = Np.scale g (rev x).
Proof. unfold Np.scale. now rewrite map_rev. Qed.

Lemma tl_scale (x : list R) : tl (Np.scale g x) = Np.scale g (tl x).
Proof. now destruct x. Qed.

Lemma odd_ext_scale (x : list R) (n : nat) :
  Signal.odd_ext O (Np.scale g x) n = Np.scale g (Signal.odd_ext O x n).
Proof.
  unfold Signal.odd_ext.
  rewrite rev_scale, !tl_scale, !hd_scale.
  unfold Np.scale. rewrite !map_app, !firstn_map, <- !map_rev, !map_map.
  f_equal; [|f_equal]; apply map_ext; intros v;
    unfold Signal.two, O; simpl; ring.
Qed.

Lemma filtfilt_scale (b a : Signal.Taps R) (x : list R) :
  filtfilt b a (Np.scale g x)
  = y <- filtfilt b a x ;; Ok (Np.scale g y).
Proof.
  unfold filtfilt, Signal.filtfilt. fold O.
  replace (length (Np.scale g x)) with (length x) by (symmetry; apply length_map).
  destruct (length x <=? Signal.edge)%nat; [reflexivity|].
  destruct (Signal.lfilter_zi O b a) as [[zi0 zi1]|e]; cbn [bind]; [|reflexivity].
  rewrite odd_ext_scale, hd_scale. unfold Signal.lfilter.
  replace (Signal.mul O zi0 (hd 0 (Signal.odd_ext O x Signal.edge) * g))
    with (Signal.mul O zi0 (hd (Signal.zero O) (Signal.odd_ext O x Signal.edge)) * g)
    by (unfold O; simpl; ring).
  replace (Signal.mul O zi1 (hd 0 (Signal.odd_ext O x Signal.edge) * g))
    with (Signal.mul O zi1 (hd (Signal.zero O) (Signal.odd_ext O x Signal.edge)) * g)
    by (unfold O; simpl; ring).
  rewrite lfilter_from_scale.
  set (y := Signal.lfilter_from O _ _ _ _ (Signal.odd_ext O x Signal.edge)).
  change (Signal.zero O) with 0.
  rewrite rev_scale, hd_scale.
  replace (Signal.mul O zi0 (hd 0 (rev y) * g))
    with (Signal.mul O zi0 (hd 0 (rev y)) * g) by (unfold O; simpl; ring).
  replace (Signal.mul O zi1 (hd 0 (rev y) * g))
    with (Signal.mul O zi1 (hd 0 (rev y)) * g) by (unfold O; simpl; ring).
  rewrite lfilter_from_scale, rev_scale.
  set (y' := rev (Signal.lfilter_from O _ _ _ _ (rev y))).
  unfold Np.scale. rewrite length_map, skipn_map, firstn_map. reflexivity.
Qed.

Lemma k_weighting_scale (audio : list R) (sr : R) :
  _k_weighting (Np.scale g audio) sr
  = kw <- _k_weighting audio sr ;; Ok (Np.scale g kw).
Proof.
  unfold _k_weighting. rewrite filtfilt_scale.
  destruct (filtfilt _ _ audio) as [pre|e]; [|reflexivity].
  simpl bind. apply filtfilt_scale.
Qed.

Lemma sum_squares_scale (l : list R) :
  Np.sum (map (fun x => x ^ 2) (Np.scale g l))
  = g ^ 2 * Np.sum (map (fun x => x ^ 2) l).
Proof.
  unfold Np.scale, Np.sum.
  induction l as [|x l IH]; simpl; [ring|].
  simpl in IH. rewrite IH. ring.
Qed.

Lemma mean_square_scale (l : list R) :
  mean_square (Np.scale g l) = g ^ 2 * mean_square l.
Proof.
  unfold mean_square, Np.mean. rewrite sum_squares_scale.
  unfold Np.scale. rewrite !length_map. unfold Rdiv. ring.
Qed.

End KernelGain.

(** ** The zero-phase filter on a constant signal *)

Lemma In_firstn {A : Type} (n : nat) (l : list A) (x : A) :
  In x (firstn n l) -> In x l.
Proof.
  intros H. rewrite <- (firstn_skipn n l). apply in_or_app. now left.
Qed.

Lemma In_skipn {A : Type} (n : nat) (l : list A) (x : A) :
  In x (skipn n l) -> In x l.
Proof.
  intros H. rewrite <- (firstn_skipn n l). apply in_or_app. now right.
Qed.

Section KernelConstant.

Local Abbreviation O := Signal.R_ops.

(** From the state [lfilter_zi] scaled by [c], a run over the constant [c]
    stays in that state and returns the constant [c * dc_gain]. *)
Lemma lfilter_from_constant (b a : Signal.Taps R) (c : R) (n : nat) :
  1 + Signal.t1 a + Signal.t2 a <> 0 ->
  let B0 := Signal.t1 b - Signal.t1 a * Signal.t0 b in
  let B1 := Signal.t2 b - Signal.t2 a * Signal.t0 b in
  let zi0 := (B0 + B1) / (1 + Signal.t1 a + Signal.t2 a) in
  let zi1 := B1 - Signal.t2 a * zi0 in
  Signal.lfilter_from O b a (zi0 * c) (zi1 * c) (repeat c n)
  = repeat (c * dc_gain b a) n.
Proof.
  intros HD B0 B1 zi0 zi1.
  induction n as [|n IH]; [reflexivity|].
  cbn [repeat Signal.lfilter_from]. unfold O at 1 2 3 4 5 6 7 8 9 10 11. cbn.
  assert (Hy : Signal.t0 b * c + zi0 * c = c * dc_gain b a).
  { unfold dc_gain, zi0, B0, B1. field. exact HD. }
  rewrite Hy. f_equal.
  replace (Signal.t1 b * c + zi1 * c - Signal.t1 a * (c * dc_gain b a))
    with (zi0 * c).
  - replace (Signal.t2 b * c - Signal.t2 a * (c * dc_gain b a)) with (zi1 * c).
    + exact IH.
    + unfold dc_gain, zi1, zi0, B0, B1. field. exact HD.
  - unfold dc_gain, zi1, zi0, B0, B1. field. exact HD.
Qed.

Lemma odd_ext_constant (c : R) (n k : nat) :
  (k < n)%nat -> Signal.odd_ext O (repeat c n) k = repeat c (k + n + k).
Proof.
  intros Hk.
  replace (k + n + k)%nat with (length (Signal.odd_ext O (repeat c n) k))
    by (rewrite length_odd_ext; rewrite repeat_length; lia).
  apply Forall_eq_repeat. unfold Signal.odd_ext.
  assert (Hall : forall l : list R, Forall (eq c) l ->
                   Forall (eq c) (map (fun v => Signal.sub O (Signal.mul O (Signal.two O) c) v) l)).
  { intros l Hl. induction Hl as [|v l <- _ IHl]; simpl; constructor; [|exact IHl].
    unfold Signal.two. simpl. ring. }
  assert (Hrep : forall m, Forall (eq c) (repeat c m)).
  { intros m. induction m; simpl; constructor; auto. }
  assert (Hsub : forall (l : list R) m, Forall (eq c) l -> Forall (eq c) (firstn m (tl l))).
  { intros l m Hl. apply Forall_forall. intros v Hv.
    apply In_firstn in Hv. rewrite Forall_forall in Hl. apply Hl.
    destruct l; simpl in *; [contradiction|now right]. }
  assert (Hrev : forall l : list R, Forall (eq c) l -> Forall (eq c) (rev l)).
  { intros l Hl. apply Forall_forall. intros v Hv. apply in_rev in Hv.
    rewrite Forall_forall in Hl. now apply Hl. }
  assert (Hhd : forall l : list R, l <> [] -> Forall (eq c) l -> hd (Signal.zero O) l = c).
  { intros [|v l] Hne Hl; [congruence|]. inversion Hl; subst. reflexivity. }
  assert (Hne : repeat c n <> []) by (destruct n; [lia|discriminate]).
  rewrite !Hhd; auto.
  - apply Forall_app. split; [apply Hall, Hrev, Hsub, Hrep|].
    apply Forall_app. split; [apply Hrep|]. apply Hall, Hsub, Hrev, Hrep.
  - intros H. apply (f_equal (@length R)) in H. rewrite length_rev in H.
    destruct n; simpl in H; lia.
Qed.

Lemma lfilter_zi_constant (b a : Signal.Taps R) (zi0 zi1 c : R) (n : nat) :
  let b' := Signal.normalize O (Signal.t0 a) b in
  let a' := Signal.normalize O (Signal.t0 a) a in
  1 + Signal.t1 a' + Signal.t2 a' <> 0 ->
  Signal.lfilter_zi O b a = Ok (zi0, zi1) ->
  Signal.lfilter O b a (Signal.mul O zi0 c) (Signal.mul O zi1 c) (repeat c n)
  = repeat (c * dc_gain b' a') n.
Proof.
  intros b' a' HD. unfold Signal.lfilter_zi, Signal.lfilter. fold b' a'.
  cbn [Signal.is_zero Signal.R_ops].
  change (Signal.add O (Signal.add O (Signal.one O) (Signal.t1 a')) (Signal.t2 a'))
    with (1 + Signal.t1 a' + Signal.t2 a').
  destruct (Req_dec_T (1 + Signal.t1 a' + Signal.t2 a') 0) as [E|_]; [contradiction|].
  intros [= <- <-].
  exact (lfilter_from_constant b' a' c n HD).
Qed.

(** [filtfilt] returns a constant signal scaled by the square of the gain
    at frequency zero. *)
Lemma filtfilt_constant (b a : Signal.Taps R) (c : R) (n : nat) :
  (9 < n)%nat ->
  let b' := Signal.normalize O (Signal.t0 a) b in
  let a' := Signal.normalize O (Signal.t0 a) a in
  1 + Signal.t1 a' + Signal.t2 a' <> 0 ->
  filtfilt b a (repeat c n) = Ok (repeat (c * dc_gain b' a' * dc_gain b' a') n).
Proof.
  intros Hn b' a' HD. unfold filtfilt, Signal.filtfilt. fold O.
  change Signal.edge with 9%nat. rewrite repeat_length.
  destruct (Nat.leb_spec n 9) as [Hle|_]; [lia|].
  destruct (lfilter_zi_regular b a HD) as ([zi0 zi1] & Hzi).
  pose proof (lfilter_zi_constant b a zi0 zi1 c (9 + n + 9) HD Hzi) as H1.
  pose proof (lfilter_zi_constant b a zi0 zi1 (c * dc_gain b' a') (9 + n + 9) HD Hzi)
    as H2.
  subst b' a'. cbv zeta in H1, H2.
  fold O in Hzi. rewrite Hzi. cbn [bind].
  rewrite odd_ext_constant by exact Hn.
  assert (Hhd : forall v m, (0 < m)%nat -> hd (Signal.zero O) (repeat v m) = v)
    by (intros v [|m] Hm; [lia|reflexivity]).
  assert (Hrev : forall (v : R) m, rev (repeat v m) = repeat v m).
  { intros v m. rewrite (@Forall_eq_repeat _ v (rev (repeat v m))).
    - now rewrite length_rev, repeat_length.
    - apply Forall_forall. intros w Hw. apply in_rev in Hw.
      now apply repeat_spec in Hw. }
  rewrite Hhd by lia. rewrite H1, Hrev, Hhd by lia. rewrite H2, Hrev.
  rewrite repeat_length. f_equal.
  match goal with |- firstn ?k (skipn 9 (repeat ?v ?m)) = _ =>
    rewrite (@Forall_eq_repeat _ v (firstn k (skipn 9 (repeat v m)))) end.
  - rewrite length_firstn, length_skipn, repeat_length. f_equal. lia.
  - apply Forall_forall. intros w Hw.
    apply In_firstn, In_skipn in Hw.
    now apply repeat_spec in Hw.
Qed.

End KernelConstant.

(** ** Loudness *)

Lemma log10_Rpower (x : R) : Np.log10 (Rpower 10 x) = x.
Proof.
  unfold Np.log10, Rpower. rewrite ln_exp. field.
  apply Rgt_not_eq, ln_10_pos.
Qed.

Lemma Rpower_log10 (y : R) : 0 < y -> Rpower 10 (Np.log10 y) = y.
Proof.
  intros Hy. unfold Np.log10, Rpower.
  replace (ln y / ln 10 * ln 10) with (ln y)
    by (field; apply Rgt_not_eq, ln_10_pos).
  now apply exp_ln.
Qed.

Lemma log10_1e_12 : Np.log10 1e-12 = -12.
Proof.
  replace 1e-12 with (Rpower 10 (-12)); [apply log10_Rpower|].
  replace (-12) with (- INR 12) by (simpl; lra).
  rewrite Rpower_Ropp, Rpower_pow by lra. lra.
Qed.

(** The high-pass stage of the K-weighting has no gain at frequency zero:
    a constant buffer is weighted to silence. *)
Lemma k_weighting_constant (c : R) (n : nat) (sr : R) :
  (9 < n)%nat -> _k_weighting (repeat c n) sr = Ok (repeat 0 n).
Proof.
  intros Hn. unfold _k_weighting.
  rewrite filtfilt_constant by (exact Hn || (simpl; lra)). simpl bind.
  rewrite filtfilt_constant by (exact Hn || (simpl; lra)).
  f_equal. f_equal. unfold dc_gain. simpl.
  replace (1.0 / 1.0 + -2.0 / 1.0 + 1.0 / 1.0) with 0 by lra.
  unfold Rdiv. ring.
Qed.

Lemma mean_square_silence (n : nat) : mean_square (repeat 0 n) = 0.
Proof.
  unfold mean_square, Np.mean.
  replace (Np.sum (map (fun x => x ^ 2) (repeat 0 n))) with 0.
  - unfold Rdiv. ring.
  - unfold Np.sum. induction n as [|n IH]; simpl; [reflexivity|].
    simpl in IH. rewrite <- IH. ring.
Qed.

Lemma calculate_lufs_constant (c : R) (n : nat) (sr : R) :
  (9 < n)%nat -> _calculate_lufs (repeat c n) sr = Ok (-120.691).
Proof.
  intros Hn. unfold _calculate_lufs.
  rewrite k_weighting_constant by exact Hn. simpl bind.
  rewrite mean_square_silence, Rplus_0_l, log10_1e_12. f_equal. lra.
Qed.

Lemma scale_repeat (g c : R) (n : nat) : Np.scale g (repeat c n) = repeat (c * g) n.
Proof.
  unfold Np.scale. induction n as [|n IH]; simpl; [reflexivity|]. now rewrite IH.
Qed.

Lemma ln_le_compat (x y : R) : 0 < x -> x <= y -> ln x <= ln y.
Proof.
  intros Hx [Hlt| ->]; [|lra]. left. now apply ln_increasing.
Qed.

Lemma ln_le_minus_1 (r : R) : 0 < r -> ln r <= r - 1.
Proof.
  intros Hr. rewrite <- (ln_exp (r - 1)).
  apply ln_le_compat; [exact Hr|].
  pose proof (exp_ineq1_le (r - 1)). lra.
Qed.

Lemma ln_10_ge_1 : 1 <= ln 10.
Proof.
  rewrite <- (ln_exp 1). apply ln_le_compat; [apply exp_pos|].
  pose proof exp_le_3. lra.
Qed.

Lemma log10_le_compat (x y : R) : 0 < x -> x <= y -> Np.log10 x <= Np.log10 y.
Proof.
  intros Hx Hxy. unfold Np.log10, Rdiv.
  apply Rmult_le_compat_r; [|now apply ln_le_compat].
  left. apply Rinv_0_lt_compat, ln_10_pos.
Qed.

Lemma log10_div (x y : R) :
  0 < x -> 0 < y -> Np.log10 (x / y) = Np.log10 x - Np.log10 y.
Proof.
  intros Hx Hy. unfold Np.log10, Rdiv.
  rewrite ln_mult, ln_Rinv by (assumption || now apply Rinv_0_lt_compat).
  ring.
Qed.

(** Ten times the decimal logarithm of a number within [1e-6] of [1] is
    within [1e-4] of [0]. *)
Lemma log10_near_1 (r : R) :
  1 - 1e-6 <= r <= 1 + 1e-6 -> Rabs (10 * Np.log10 r) <= 1e-4.
Proof.
  intros [Hlo Hhi].
  assert (Hr : 0 < r) by lra.
  assert (Hup : ln r <= 1e-6) by (pose proof (ln_le_minus_1 r Hr); lra).
  assert (Hir : 0 < / r) by now apply Rinv_0_lt_compat.
  assert (Hinv : / r <= 1 + 2e-6).
  { apply Rmult_le_reg_l with r; [exact Hr|].
    rewrite Rinv_r by lra. nra. }
  assert (Hdn : - 2e-6 <= ln r).
  { pose proof (ln_le_minus_1 (/ r) Hir) as H.
    rewrite ln_Rinv in H by exact Hr. lra. }
  pose proof ln_10_ge_1 as H10.
  assert (Hi10 : 0 < / ln 10 <= 1).
  { split; [apply Rinv_0_lt_compat; lra|].
    rewrite <- Rinv_1. apply Rinv_le_contravar; lra. }
  unfold Np.log10, Rdiv. apply Rabs_le. split; nra.
Qed.

Lemma Rpower_10_m6 : Rpower 10 (-6) = 1e-6.
Proof.
  replace (-6) with (- INR 6) by (simpl; lra).
  rewrite Rpower_Ropp, Rpower_pow by lra. lra.
Qed.

Lemma Rpower_10_lower (x : R) : -6 <= x -> 1e-6 <= Rpower 10 x.
Proof.
  intros H. rewrite <- Rpower_10_m6. apply Rle_Rpower; lra.
Qed.

Lemma sum_squares_nonneg (l : list R) : 0 <= Np.sum (map (fun x => x ^ 2) l).
Proof.
  unfold Np.sum. induction l as [|x l IH]; simpl; [lra|].
  simpl in IH. nra.
Qed.

Lemma mean_square_nonneg (l : list R) : 0 <= mean_square l.
Proof.
  unfold mean_square, Np.mean. rewrite length_map.
  pose proof (sum_squares_nonneg l) as Hs.
  destruct l as [|x l].
  - simpl. unfold Rdiv. lra.
  - apply Rmult_le_pos; [exact Hs|].
    left. apply Rinv_0_lt_compat, lt_0_INR. simpl. lia.
Qed.

Lemma db_to_linear_sq (d : R) : db_to_linear d ^ 2 = Rpower 10 (d / 10).
Proof.
  unfold db_to_linear. simpl. rewrite Rmult_1_r, <- Rpower_plus. f_equal. lra.
Qed.

(** The loudness of a buffer after a scalar gain, from the mean square of
    the weighted buffer before the gain. *)
Lemma calculate_lufs_scale (g : R) (audio kw : list R) (sr : R) :
  _k_weighting audio sr = Ok kw ->
  _calculate_lufs (Np.scale g audio) sr
  = Ok (-0.691 + 10 * Np.log10 (g ^ 2 * mean_square kw + 1e-12)).
Proof.
  intros Hk. unfold _calculate_lufs.
  rewrite k_weighting_scale, Hk. simpl bind.
  now rewrite mean_square_scale.
Qed.

(** The deviation from the target after normalization: with [m] the mean
    square of the weighted input and [K] the energy of the target, the
    re-measured loudness is [10 * log10 (m / (m + 1e-12) + 1e-12 / K)]
    above the target. *)
Lemma remeasured_deviation (target m : R) :
  0 <= m ->
  let u := m + 1e-12 in
  let K := Rpower 10 ((target + 0.691) / 10) in
  let g := db_to_linear (target - (-0.691 + 10 * Np.log10 u)) in
  -0.691 + 10 * Np.log10 (g ^ 2 * m + 1e-12) - target
  = 10 * Np.log10 (m / u + 1e-12 / K).
Proof.
  intros Hm u K g.
  assert (Hu : 0 < u) by (unfold u; lra).
  assert (HK : 0 < K) by apply exp_pos.
  assert (Hg : g ^ 2 = K / u).
  { unfold g. rewrite db_to_linear_sq.
    replace ((target - (-0.691 + 10 * Np.log10 u)) / 10)
      with ((target + 0.691) / 10 + - Np.log10 u) by lra.
    rewrite Rpower_plus, Rpower_Ropp, Rpower_log10 by exact Hu. reflexivity. }
  assert (Hpos : 0 < m / u + 1e-12 / K).
  { assert (0 <= m / u) by (apply Rmult_le_pos; [lra|left; now apply Rinv_0_lt_compat]).
    assert (0 < 1e-12 / K) by (apply Rmult_lt_0_compat; [lra|now apply Rinv_0_lt_compat]).
    lra. }
  replace (g ^ 2 * m + 1e-12) with ((m / u + 1e-12 / K) * K)
    by (rewrite Hg; field; lra).
  replace target with (10 * Np.log10 K - 0.691) at 1
    by (unfold K; rewrite log10_Rpower; lra).
  replace ((m / u + 1e-12 / K) * K) with ((m / u + 1e-12 / K) / (/ K))
    by (field; lra).
  rewrite log10_div by (assumption || now apply Rinv_0_lt_compat).
  replace (/ K) with (1 / K) by lra.
  rewrite (log10_div 1 K) by lra.
  replace (Np.log10 1) with 0; [lra|].
  unfold Np.log10. rewrite ln_1. lra.
Qed.

Lemma inv_upper (x : R) : 1e-6 <= x -> 0 < / x <= 1e6.
Proof.
  intros Hx. split; [apply Rinv_0_lt_compat; lra|].
  replace 1e6 with (/ 1e-6) by lra.
  apply Rinv_le_contravar; lra.
Qed.

(** C2, as the code has it.  When the loudness measured on the input is at
    least -60 LUFS and the target is at least -60 LUFS, the loudness
    measured again on the output of the normalizer is within [1e-4] of the
    target. *)
Theorem normalized_loudness_near_target (self : MasteringEngine) (audio : list R)
    (sr current_lufs : R) :
  _calculate_lufs audio sr = Ok current_lufs ->
  -60 <= current_lufs ->
  -60 <= target_lufs self ->
  exists normalized lufs,
    _normalize_loudness self audio sr = Ok normalized
    /\ _calculate_lufs normalized sr = Ok lufs
    /\ Rabs (lufs - target_lufs self) <= 1e-4.
Proof.
  intros Hlufs Hin Htarget.
  unfold _normalize_loudness. rewrite Hlufs. simpl bind.
  unfold _calculate_lufs in Hlufs.
  destruct (_k_weighting audio sr) as [kw|e] eqn:Hk; simpl in Hlufs; [|discriminate].
  injection Hlufs as <-.
  set (m := mean_square kw) in *.
  pose proof (mean_square_nonneg kw) as Hm. fold m in Hm.
  eexists. eexists. split; [reflexivity|].
  split; [apply (calculate_lufs_scale _ _ kw); exact Hk|].
  fold m. rewrite remeasured_deviation by exact Hm.
  apply log10_near_1.
  set (u := m + 1e-12) in *.
  set (K := Rpower 10 ((target_lufs self + 0.691) / 10)).
  assert (Hu0 : 0 < u) by (unfold u; lra).
  assert (Hu : 1e-6 <= u).
  { rewrite <- (Rpower_log10 u Hu0). apply Rpower_10_lower. lra. }
  assert (HK : 1e-6 <= K) by (apply Rpower_10_lower; lra).
  destruct (inv_upper u Hu) as [Hiu0 Hiu].
  destruct (inv_upper K HK) as [HiK0 HiK].
  assert (Hmu : m / u = 1 - 1e-12 * / u) by (unfold u; field; fold u; lra).
  rewrite Hmu. unfold Rdiv. lra.
Qed.

(** C2, as stated, fails on a direct-current buffer: validation accepts
    ten samples at [0.5], the high-pass stage of the K-weighting removes
    them, and the loudness measured on the normalized buffer is
    [-120.691] LUFS for a target of [-14]. *)
Lemma normalizer_misses_target_on_dc :
  let self := __init__ (-14) (-1) in
  _validate_input (map Np.Finite dc10) = Ok dc10
  /\ exists normalized,
       _normalize_loudness self dc10 22050 = Ok normalized
       /\ _calculate_lufs normalized 22050 = Ok (-120.691)
       /\ ~ Rabs (-120.691 - target_lufs self) <= 1e-4.
Proof.
  intros self. split.
  - rewrite validate_input_in_range; rewrite ?nan_to_num_finite;
      [reflexivity | discriminate |].
    split.
    + apply Rle_trans with (Rabs 0.5); [rewrite Rabs_pos_eq; lra|].
      apply max_abs_In. now left.
    + apply max_abs_le; [lra|]. intros x Hx.
      apply repeat_spec in Hx. subst x. rewrite Rabs_pos_eq; lra.
  - unfold _normalize_loudness, dc10.
    rewrite calculate_lufs_constant by lia. cbn [bind].
    rewrite scale_repeat. eexists. split; [reflexivity|]. split.
    + apply calculate_lufs_constant. lia.
    + simpl target_lufs. rewrite Rabs_left; lra.
Qed.

(** ** Intervals enclose the reals *)

Section IntervalSound.

Import Interval.

Local Open Scope R_scope.

Lemma scale_pos : 0 < IZR scale.
Proof. apply IZR_lt. reflexivity. Qed.

Lemma floor_div_le (p d : Z) : (0 < d)%Z -> IZR (floor_div p d) * IZR d <= IZR p.
Proof.
  intros Hd. unfold floor_div. rewrite <- mult_IZR. apply IZR_le.
  pose proof (Z.mul_div_le p d Hd). lia.
Qed.

Lemma ceil_div_ge (p d : Z) : (0 < d)%Z -> IZR p <= IZR (ceil_div p d) * IZR d.
Proof.
  intros Hd. unfold ceil_div. rewrite <- mult_IZR. apply IZR_le.
  pose proof (Z.mul_div_le (- p) d Hd). lia.
Qed.

Lemma shiftr_floor (p : Z) : IZR (Z.shiftr p prec) * IZR scale <= IZR p.
Proof.
  rewrite Z.shiftr_div_pow2 by (unfold prec; lia).
  change (2 ^ prec)%Z with scale. apply floor_div_le. reflexivity.
Qed.

Lemma shiftr_ceil (p : Z) : IZR p <= IZR (- Z.shiftr (- p) prec) * IZR scale.
Proof.
  rewrite Z.shiftr_div_pow2 by (unfold prec; lia).
  change (2 ^ prec)%Z with scale. apply (ceil_div_ge p scale). reflexivity.
Qed.

Lemma corners_lower (a b c d X Y m : R) :
  a <= X <= b -> c <= Y <= d ->
  m <= a * c -> m <= a * d -> m <= b * c -> m <= b * d ->
  m <= X * Y.
Proof.
  intros HX HY Hac Had Hbc Hbd.
  destruct (Rle_dec 0 Y) as [HY0|HY0].
  - apply Rle_trans with (a * Y); [|nra].
    destruct (Rle_dec 0 a); nra.
  - apply Rle_trans with (b * Y); [|nra].
    destruct (Rle_dec 0 b); nra.
Qed.

Lemma corners_upper (a b c d X Y m : R) :
  a <= X <= b -> c <= Y <= d ->
  a * c <= m -> a * d <= m -> b * c <= m -> b * d <= m ->
  X * Y <= m.
Proof.
  intros HX HY Hac Had Hbc Hbd.
  destruct (Rle_dec 0 Y) as [HY0|HY0].
  - apply Rle_trans with (b * Y); [nra|].
    destruct (Rle_dec 0 b); nra.
  - apply Rle_trans with (a * Y); [nra|].
    destruct (Rle_dec 0 a); nra.
Qed.

Lemma contains_add (x y : R) (i j : itv) :
  contains x i -> contains y j -> contains (x + y) (add i j).
Proof.
  destruct i as [a b|], j as [c d|]; simpl; auto.
  intros Hx Hy. rewrite !plus_IZR. lra.
Qed.

Lemma contains_sub (x y : R) (i j : itv) :
  contains x i -> contains y j -> contains (x - y) (sub i j).
Proof.
  destruct i as [a b|], j as [c d|]; simpl; auto.
  intros Hx Hy. rewrite !minus_IZR. lra.
Qed.

Lemma contains_mul (x y : R) (i j : itv) :
  contains x i -> contains y j -> contains (x * y) (mul i j).
Proof.
  destruct i as [a b|], j as [c d|]; cbn [contains mul]; auto.
  intros Hx Hy. pose proof scale_pos as HS.
  set (X := x * IZR scale) in *. set (Y := y * IZR scale) in *.
  assert (HXY : x * y * IZR scale * IZR scale = X * Y) by (unfold X, Y; ring).
  split; apply Rmult_le_reg_r with (IZR scale); try exact HS; rewrite HXY.
  - eapply Rle_trans; [apply shiftr_floor|].
    apply (corners_lower (IZR a) (IZR b) (IZR c) (IZR d)); try assumption;
      rewrite <- mult_IZR; apply IZR_le; unfold min4; lia.
  - eapply Rle_trans; [|apply shiftr_ceil].
    apply (corners_upper (IZR a) (IZR b) (IZR c) (IZR d)); try assumption;
      rewrite <- mult_IZR; apply IZR_le; unfold max4; lia.
Qed.

Lemma contains_inv (y : R) (j : itv) : contains y j -> contains (/ y) (inv j).
Proof.
  destruct j as [c d|]; cbn [contains inv]; auto.
  destruct (Z.ltb_spec 0 c) as [Hc|Hc]; cbn [contains]; auto.
  intros [Hlo Hhi]. pose proof scale_pos as HS.
  apply IZR_lt in Hc.
  set (Y := y * IZR scale) in *.
  assert (HY : 0 < Y) by lra.
  assert (Hy : 0 < y) by (unfold Y in HY; nra).
  assert (Hd : (0 < d)%Z) by (apply lt_IZR; lra).
  assert (Hinv : / y * IZR scale * Y = IZR scale * IZR scale)
    by (unfold Y; field; lra).
  split; apply Rmult_le_reg_r with Y; try exact HY; rewrite Hinv, <- mult_IZR.
  - pose proof (floor_div_le (scale * scale) d Hd) as Hf.
    assert (Hq : (0 <= floor_div (scale * scale) d)%Z)
      by (apply Z.div_pos; [discriminate|exact Hd]).
    apply IZR_le in Hq.
    eapply Rle_trans; [|exact Hf]. apply Rmult_le_compat_l; lra.
  - assert (Hc' : (0 < c)%Z) by (apply lt_IZR; lra).
    pose proof (ceil_div_ge (scale * scale) c Hc') as Hf.
    assert (Hq : 0 <= IZR (ceil_div (scale * scale) c)).
    { assert (0 <= IZR (scale * scale)) by (apply IZR_le; discriminate).
      nra. }
    eapply Rle_trans; [exact Hf|]. apply Rmult_le_compat_l; lra.
Qed.

Lemma contains_div (x y : R) (i j : itv) :
  contains x i -> contains y j -> contains (x / y) (div i j).
Proof.
  intros Hx Hy. unfold Rdiv, div. apply contains_mul; [exact Hx|].
  now apply contains_inv.
Qed.

Lemma contains_dec (q : Q) : contains (Q2R q) (dec q).
Proof.
  unfold dec, contains, Q2R. destruct q as [n d]. simpl Qnum. simpl Qden.
  pose proof scale_pos as HS.
  assert (Hd : (0 < Z.pos d)%Z) by lia.
  pose proof (floor_div_le (n * scale) (Z.pos d) Hd) as Hlo.
  pose proof (ceil_div_ge (n * scale) (Z.pos d) Hd) as Hhi.
  rewrite mult_IZR in Hlo, Hhi. apply IZR_lt in Hd.
  assert (Hq : IZR n * / IZR (Z.pos d) * IZR scale * IZR (Z.pos d)
               = IZR n * IZR scale) by (field; lra).
  split; apply Rmult_le_reg_r with (IZR (Z.pos d)); try exact Hd; rewrite Hq; lra.
Qed.

Lemma contains_zero : contains 0 (Itv 0 0).
Proof. cbn [contains]. lra. Qed.

Lemma contains_one : contains 1 (Itv scale scale).
Proof. cbn [contains]. lra. Qed.

End IntervalSound.

(** ** The filters on intervals enclose the filters on reals *)

Section Forall2Facts.

Context {A B : Type} (rel : A -> B -> Prop).

Lemma Forall2_rev (l : list A) (l' : list B) :
  Forall2 rel l l' -> Forall2 rel (rev l) (rev l').
Proof.
  induction 1 as [|a b l l' Hab _ IH]; simpl; [constructor|].
  apply Forall2_app; [exact IH|]. now repeat constructor.
Qed.

Lemma Forall2_firstn (n : nat) (l : list A) (l' : list B) :
  Forall2 rel l l' -> Forall2 rel (firstn n l) (firstn n l').
Proof.
  intros H. revert n. induction H as [|a b l l' Hab _ IH]; intros [|n]; simpl;
    constructor; auto.
Qed.

Lemma Forall2_skipn (n : nat) (l : list A) (l' : list B) :
  Forall2 rel l l' -> Forall2 rel (skipn n l) (skipn n l').
Proof.
  intros H. revert n. induction H as [|a b l l' Hab Hl IH]; intros [|n]; simpl;
    try constructor; auto.
Qed.

Lemma Forall2_tl (l : list A) (l' : list B) :
  Forall2 rel l l' -> Forall2 rel (tl l) (tl l').
Proof. destruct 1; simpl; [constructor|assumption]. Qed.

Lemma Forall2_hd (d : A) (d' : B) (l : list A) (l' : list B) :
  rel d d' -> Forall2 rel l l' -> rel (hd d l) (hd d' l').
Proof. intros Hd. destruct 1; simpl; assumption. Qed.

Lemma Forall2_map2 (f : A -> A) (f' : B -> B) (l : list A) (l' : list B) :
  (forall a b, rel a b -> rel (f a) (f' b)) ->
  Forall2 rel l l' -> Forall2 rel (map f l) (map f' l').
Proof. intros Hf. induction 1; simpl; constructor; auto. Qed.

End Forall2Facts.

Section KernelEnclosure.

Import Interval.

Local Abbreviation OR := Signal.R_ops.

Lemma lfilter_from_contains (b a : Signal.Taps R) (b' a' : Signal.Taps itv)
    (x : list R) (x' : list itv) :
  contains_taps b b' -> contains_taps a a' ->
  Forall2 contains x x' ->
  forall z0 z1 z0' z1',
    contains z0 z0' -> contains z1 z1' ->
    Forall2 contains (Signal.lfilter_from OR b a z0 z1 x)
            (Signal.lfilter_from ops b' a' z0' z1' x').
Proof.
  intros (Hb0 & Hb1 & Hb2) (Ha0 & Ha1 & Ha2).
  induction 1 as [|xn xn' x x' Hxn _ IH]; intros z0 z1 z0' z1' Hz0 Hz1;
    cbn [Signal.lfilter_from]; [constructor|].
  assert (Hy : contains (Signal.add OR (Signal.mul OR (Signal.t0 b) xn) z0)
                 (Signal.add ops (Signal.mul ops (Signal.t0 b') xn') z0'))
    by (apply contains_add; [apply contains_mul|]; assumption).
  constructor; [exact Hy|]. apply IH.
  - apply contains_sub; [apply contains_add; [apply contains_mul|]|apply contains_mul];
      assumption.
  - apply contains_sub; apply contains_mul; assumption.
Qed.

Lemma normalize_contains (a0 : R) (a0' : itv) (t : Signal.Taps R) (t' : Signal.Taps itv) :
  contains a0 a0' -> contains_taps t t' ->
  contains_taps (Signal.normalize OR a0 t) (Signal.normalize ops a0' t').
Proof.
  intros Ha (H0 & H1 & H2). repeat split; apply contains_div; assumption.
Qed.

Lemma may_be_zero_sound (x : R) (i : itv) :
  contains x i -> may_be_zero i = false -> x <> 0.
Proof.
  destruct i as [lo hi|]; cbn [contains may_be_zero]; [|discriminate].
  intros [H1 H2] Hz ->. rewrite Rmult_0_l in H1, H2.
  apply andb_false_iff in Hz.
  destruct Hz as [Hz|Hz]; apply Z.leb_gt, IZR_lt in Hz; lra.
Qed.

(** Where the interval evaluation finds an initial state, the determinant
    is enclosed away from zero, and the state on the reals exists and is
    enclosed. *)
Lemma lfilter_zi_contains (b a : Signal.Taps R) (b' a' : Signal.Taps itv)
    (zi0' zi1' : itv) :
  contains_taps b b' -> contains_taps a a' ->
  Signal.lfilter_zi ops b' a' = Ok (zi0', zi1') ->
  exists zi0 zi1,
    Signal.lfilter_zi OR b a = Ok (zi0, zi1)
    /\ contains zi0 zi0' /\ contains zi1 zi1'.
Proof.
  intros Hb Ha. unfold Signal.lfilter_zi.
  destruct (normalize_contains _ _ _ _ (proj1 Ha) Hb) as (Hb0 & Hb1 & Hb2).
  destruct (normalize_contains _ _ _ _ (proj1 Ha) Ha) as (Ha0 & Ha1 & Ha2).
  set (bn := Signal.normalize OR (Signal.t0 a) b) in *.
  set (an := Signal.normalize OR (Signal.t0 a) a) in *.
  set (bn' := Signal.normalize ops (Signal.t0 a') b') in *.
  set (an' := Signal.normalize ops (Signal.t0 a') a') in *.
  assert (HB0 : contains (Signal.sub OR (Signal.t1 bn) (Signal.mul OR (Signal.t1 an) (Signal.t0 bn)))
                  (Signal.sub ops (Signal.t1 bn') (Signal.mul ops (Signal.t1 an') (Signal.t0 bn'))))
    by (apply contains_sub; [|apply contains_mul]; assumption).
  assert (HB1 : contains (Signal.sub OR (Signal.t2 bn) (Signal.mul OR (Signal.t2 an) (Signal.t0 bn)))
                  (Signal.sub ops (Signal.t2 bn') (Signal.mul ops (Signal.t2 an') (Signal.t0 bn'))))
    by (apply contains_sub; [|apply contains_mul]; assumption).
  assert (Hdet : contains (Signal.add OR (Signal.add OR (Signal.one OR) (Signal.t1 an))
                             (Signal.t2 an))
                   (Signal.add ops (Signal.add ops (Signal.one ops) (Signal.t1 an'))
                      (Signal.t2 an')))
    by (apply contains_add; [apply contains_add; [apply contains_one|]|]; assumption).
  set (det := Signal.add OR (Signal.add OR (Signal.one OR) (Signal.t1 an))
                (Signal.t2 an)) in *.
  set (det' := Signal.add ops (Signal.add ops (Signal.one ops) (Signal.t1 an'))
                 (Signal.t2 an')) in *.
  change (Signal.is_zero ops det') with (may_be_zero det').
  destruct (may_be_zero det') eqn:Ez; [discriminate|].
  intros Hzi'.
  apply (f_equal (fun r => match r with Ok z => z | Raise _ => (Top, Top) end)) in Hzi'.
  cbv beta iota in Hzi'.
  pose proof (may_be_zero_sound det det' Hdet Ez) as Hne.
  change (Signal.is_zero OR det) with (if Req_dec_T det 0 then true else false).
  destruct (Req_dec_T det 0) as [E|_]; [contradiction|].
  eexists _, _. split; [reflexivity|].
  assert (Hzi0 : contains
            (Signal.div OR
               (Signal.add OR
                  (Signal.sub OR (Signal.t1 bn) (Signal.mul OR (Signal.t1 an) (Signal.t0 bn)))
                  (Signal.sub OR (Signal.t2 bn) (Signal.mul OR (Signal.t2 an) (Signal.t0 bn))))
               det)
            (Signal.div ops
               (Signal.add ops
                  (Signal.sub ops (Signal.t1 bn') (Signal.mul ops (Signal.t1 an') (Signal.t0 bn')))
                  (Signal.sub ops (Signal.t2 bn') (Signal.mul ops (Signal.t2 an') (Signal.t0 bn'))))
               det'))
    by (apply contains_div; [now apply contains_add|exact Hdet]).
  apply (f_equal fst) in Hzi' as Hz0. apply (f_equal snd) in Hzi' as Hz1.
  cbn [fst snd] in Hz0, Hz1. rewrite <- Hz0, <- Hz1.
  split; [exact Hzi0|].
  apply contains_sub; [exact HB1|]. apply contains_mul; assumption.
Qed.

Lemma odd_ext_contains (x : list R) (x' : list itv) (n : nat) :
  Forall2 contains x x' ->
  Forall2 contains (Signal.odd_ext OR x n) (Signal.odd_ext ops x' n).
Proof.
  intros Hx. unfold Signal.odd_ext.
  assert (Htwo : contains (Signal.two OR) (Signal.two ops))
    by (apply contains_add; apply contains_one).
  assert (Hmap : forall e e' l l',
             contains e e' -> Forall2 contains l l' ->
             Forall2 contains
               (map (fun v => Signal.sub OR (Signal.mul OR (Signal.two OR) e) v) l)
               (map (fun v => Signal.sub ops (Signal.mul ops (Signal.two ops) e') v) l')).
  { intros e e' l l' He Hl. apply Forall2_map2; [|exact Hl].
    intros v v' Hv. apply contains_sub; [apply contains_mul|]; assumption. }
  apply Forall2_app; [|apply Forall2_app; [exact Hx|]].
  - apply Hmap.
    + apply Forall2_hd; [apply contains_zero|exact Hx].
    + apply Forall2_rev, Forall2_firstn, Forall2_tl, Hx.
  - apply Hmap.
    + apply Forall2_hd; [apply contains_zero|apply Forall2_rev, Hx].
    + apply Forall2_firstn, Forall2_tl, Forall2_rev, Hx.
Qed.

Lemma filtfilt_contains (b a : Signal.Taps R) (b' a' : Signal.Taps itv)
    (x : list R) (x' y' : list itv) :
  contains_taps b b' -> contains_taps a a' ->
  Forall2 contains x x' ->
  Signal.filtfilt ops b' a' x' = Ok y' ->
  exists y, filtfilt b a x = Ok y /\ Forall2 contains y y'.
Proof.
  intros Hb Ha Hx. unfold filtfilt, Signal.filtfilt. fold OR.
  rewrite <- (Forall2_length Hx).
  destruct (length x <=? Signal.edge)%nat; [discriminate|].
  destruct (Signal.lfilter_zi ops b' a') as [[zi0' zi1']|] eqn:Hzi';
    cbn [bind]; [|discriminate].
  destruct (lfilter_zi_contains b a b' a' zi0' zi1' Hb Ha Hzi')
    as (zi0 & zi1 & Hzi & Hzi0 & Hzi1).
  rewrite Hzi. cbn [bind].
  intros Hy'.
  apply (f_equal (fun r => match r with Ok l => l | Raise _ => [] end)) in Hy'.
  cbv beta iota zeta in Hy'. rewrite <- Hy'. clear Hy'.
  eexists. split; [reflexivity|].
  pose proof (odd_ext_contains x x' Signal.edge Hx) as Hext.
  pose proof (normalize_contains _ _ _ _ (proj1 Ha) Hb) as Hbn.
  pose proof (normalize_contains _ _ _ _ (proj1 Ha) Ha) as Han.
  assert (Hx0 : contains (hd (Signal.zero OR) (Signal.odd_ext OR x Signal.edge))
                  (hd (Signal.zero ops) (Signal.odd_ext ops x' Signal.edge)))
    by (apply Forall2_hd; [apply contains_zero|exact Hext]).
  unfold Signal.lfilter. cbv zeta.
  match goal with |- context [rev (Signal.lfilter_from OR ?bn ?an ?z0 ?z1 (rev ?yf))] =>
    match goal with |- context [rev (Signal.lfilter_from ops ?bn' ?an' ?z0' ?z1' (rev ?yf'))] =>
      assert (Hyf : Forall2 contains yf yf')
    end
  end.
  { apply lfilter_from_contains; try assumption; apply contains_mul; assumption. }
  assert (Hy0 : forall l l', Forall2 contains l l' ->
                  contains (hd (Signal.zero OR) (rev l)) (hd (Signal.zero ops) (rev l')))
    by (intros l l' Hl; apply Forall2_hd; [apply contains_zero|apply Forall2_rev, Hl]).
  match goal with |- Forall2 _ (firstn _ (skipn _ ?yb)) (firstn _ (skipn _ ?yc)) =>
    assert (Hyb : Forall2 contains yb yc)
  end.
  { apply Forall2_rev, lfilter_from_contains; try assumption.
    - apply Forall2_rev, Hyf.
    - apply contains_mul; [exact Hzi0|]. apply Hy0, Hyf.
    - apply contains_mul; [exact Hzi1|]. apply Hy0, Hyf. }
  rewrite (Forall2_length Hyb). apply Forall2_firstn, Forall2_skipn, Hyb.
Qed.

End KernelEnclosure.

(** ** The loudness of a concrete buffer *)

Lemma contains_taps_dec (q0 q1 q2 : Q) :
  Interval.contains_taps (taps (Q2R q0) (Q2R q1) (Q2R q2))
    (Signal.mkTaps (Interval.dec q0) (Interval.dec q1) (Interval.dec q2)).
Proof. repeat split; apply contains_dec. Qed.

Lemma k_weighting_contains (x : list R) (x' y' : list Interval.itv) (sr : R) :
  Forall2 Interval.contains x x' ->
  Interval.k_weighting x' = Ok y' ->
  exists y, _k_weighting x sr = Ok y /\ Forall2 Interval.contains y y'.
Proof.
  intros Hx. unfold Interval.k_weighting, _k_weighting.
  destruct (Signal.filtfilt Interval.ops _ _ x') as [pre'|] eqn:Hpre;
    cbn [bind]; [|discriminate].
  intros Hhp.
  destruct (filtfilt_contains _ _ _ _ x x' pre'
              (contains_taps_dec _ _ _) (contains_taps_dec _ _ _) Hx Hpre)
    as (pre & -> & Hp).
  cbn [bind].
  exact (filtfilt_contains _ _ _ _ pre pre' y'
           (contains_taps_dec _ _ _) (contains_taps_dec _ _ _) Hp Hhp).
Qed.

Lemma sum_squares_contains (y : list R) (y' : list Interval.itv) :
  Forall2 Interval.contains y y' ->
  Interval.contains (Np.sum (map (fun x => x ^ 2) y)) (Interval.sum_squares y').
Proof.
  unfold Np.sum, Interval.sum_squares.
  induction 1 as [|v v' y y' Hv _ IH]; cbn [map fold_right]; [apply contains_zero|].
  apply contains_add; [|exact IH].
  replace (v ^ 2) with (v * v) by ring. now apply contains_mul.
Qed.

Lemma contains_map_dec (l : list Q) :
  Forall2 Interval.contains (map Q2R l) (map Interval.dec l).
Proof. induction l; simpl; constructor; auto using contains_dec. Qed.

(** The interval evaluation decides a lower bound on the weighted energy
    of a buffer of decimal samples. *)
Lemma weighted_energy_above_sound (audio : list Q) (sr : R) :
  Interval.weighted_energy_above audio = true ->
  exists k_weighted,
    _k_weighting (map Q2R audio) sr = Ok k_weighted
    /\ 1e-4 <= Np.sum (map (fun x => x ^ 2) k_weighted).
Proof.
  unfold Interval.weighted_energy_above.
  destruct (Interval.k_weighting (map Interval.dec audio)) as [kw'|] eqn:Hk;
    [|discriminate].
  destruct (k_weighting_contains _ _ _ sr (contains_map_dec audio) Hk)
    as (kw & Hkw & Hc).
  pose proof (sum_squares_contains kw kw' Hc) as Hs.
  destruct (Interval.sum_squares kw') as [lo hi|]; [|discriminate].
  intros Hlo. apply Z.leb_le, IZR_le in Hlo. rewrite mult_IZR in Hlo.
  exists kw. split; [exact Hkw|].
  cbn [Interval.contains] in Hs. pose proof scale_pos. nra.
Qed.

Lemma triangle10_decimal : map Q2R triangle10_Q = triangle10.
Proof.
  unfold triangle10_Q, triangle10. cbn [map].
  repeat (f_equal; try (unfold Q2R; simpl; lra)).
Qed.

Lemma weighted_energy_triangle10 : Interval.weighted_energy_above triangle10_Q = true.
Proof. vm_compute. reflexivity. Qed.

Lemma log10_1e_5 : Np.log10 1e-5 = -5.
Proof.
  replace 1e-5 with (Rpower 10 (-5)); [apply log10_Rpower|].
  replace (-5) with (- INR 5) by (simpl; lra).
  rewrite Rpower_Ropp, Rpower_pow by lra. lra.
Qed.

(** The triangle wave measures above -60 LUFS. *)
Lemma calculate_lufs_triangle10 (sr : R) :
  exists lufs, _calculate_lufs triangle10 sr = Ok lufs /\ -60 <= lufs.
Proof.
  destruct (weighted_energy_above_sound triangle10_Q sr weighted_energy_triangle10)
    as (kw & Hkw & Hsum).
  rewrite triangle10_decimal in Hkw.
  unfold _calculate_lufs. rewrite Hkw. cbn [bind].
  eexists. split; [reflexivity|].
  destruct (keeps_length_k_weighting sr triangle10) as [Hlen _].
  specialize (Hlen kw Hkw).
  assert (Hm : 1e-5 <= mean_square kw).
  { unfold mean_square, Np.mean. rewrite length_map, Hlen.
    change (length triangle10) with 10%nat.
    replace (INR 10) with 10 by (simpl; lra). lra. }
  assert (Hlog : -5 <= Np.log10 (mean_square kw + 1e-12)).
  { rewrite <- log10_1e_5. apply log10_le_compat; lra. }
  lra.
Qed.

Lemma normalized_loudness_near_target_witness :
  exists normalized lufs,
    _normalize_loudness (__init__ (-14) (-1)) triangle10 22050 = Ok normalized
    /\ _calculate_lufs normalized 22050 = Ok lufs
    /\ Rabs (lufs - -14) <= 1e-4.
Proof.
  destruct (calculate_lufs_triangle10 22050) as (current_lufs & Hlufs & Hin).
  apply (normalized_loudness_near_target (__init__ (-14) (-1)) triangle10 22050
           current_lufs Hlufs Hin).
  simpl. lra.
Defined.

(** * Further properties of the chain *)

(** ** Validation, again *)

Lemma validate_input_loud (audio : list Np.sample) :
  audio <> [] ->
  1.0 < max_abs (Np.nan_to_num audio) ->
  _validate_input audio
  = Ok (map (fun x => x / max_abs (Np.nan_to_num audio) * 0.95) (Np.nan_to_num audio)).
Proof.
  intros Hne Hp. rewrite validate_input_cases by assumption. cbv zeta.
  destruct (Rlt_dec _ _); [lra|]. destruct (Rlt_dec _ _); [reflexivity|lra].
Qed.

Lemma max_abs_rescaled (l : list R) :
  0 < max_abs l -> max_abs (map (fun x => x / max_abs l * 0.95) l) = 0.95.
Proof.
  intros Hp.
  replace (map (fun x => x / max_abs l * 0.95) l)
    with (map (fun x => x * (/ max_abs l * 0.95)) l)
    by (apply map_ext; intros; unfold Rdiv; ring).
  assert (0 < / max_abs l) by now apply Rinv_0_lt_compat.
  rewrite max_abs_scale by nra. field. lra.
Qed.

(** X1.  What validation returns has the length of the input, a peak
    between [1e-10] and [1.0], every sample within [[-1, 1]], and is
    accepted unchanged when it is validated again. *)
Theorem validate_input_settles (audio : list Np.sample) (valid : list R) :
  _validate_input audio = Ok valid ->
  length valid = length audio
  /\ 1e-10 <= max_abs valid <= 1.0
  /\ (forall x, In x valid -> -1 <= x <= 1)
  /\ _validate_input (map Np.Finite valid) = Ok valid.
Proof.
  intros Hv.
  assert (Hlen : length valid = length audio) by now apply validate_input_length.
  assert (Hne : audio <> []) by (intros ->; discriminate).
  assert (Hpeak : 1e-10 <= max_abs valid <= 1.0).
  { rewrite validate_input_cases in Hv by assumption. cbv zeta in Hv.
    destruct (Rlt_dec _ _) as [|Hlo]; [discriminate|].
    destruct (Rlt_dec _ _) as [Hhi|Hhi]; injection Hv as <-.
    - rewrite max_abs_rescaled by lra. lra.
    - lra. }
  split; [exact Hlen|]. split; [exact Hpeak|]. split.
  - intros x Hx. apply max_abs_In in Hx.
    pose proof (Rle_abs x). pose proof (Rle_abs (- x)) as Hn.
    rewrite Rabs_Ropp in Hn. lra.
  - rewrite validate_input_in_range; rewrite ?nan_to_num_finite;
      [reflexivity | | exact Hpeak].
    destruct valid; [|discriminate]. destruct audio; [congruence|discriminate].
Qed.

Lemma validate_input_settles_witness :
  exists valid,
    _validate_input [Np.NaN; Np.Finite 2; Np.Finite (-4); Np.PosInf] = Ok valid
    /\ length valid = 4%nat
    /\ max_abs valid <= 1.0
    /\ _validate_input (map Np.Finite valid) = Ok valid.
Proof.
  assert (Hp : 1.0 < max_abs (Np.nan_to_num
                                [Np.NaN; Np.Finite 2; Np.Finite (-4); Np.PosInf])).
  { eapply Rlt_le_trans; [|apply (max_abs_In _ (-4)); simpl; tauto].
    rewrite Rabs_left; lra. }
  assert (Hne : [Np.NaN; Np.Finite 2; Np.Finite (-4); Np.PosInf] <> [])
    by discriminate.
  pose proof (validate_input_loud _ Hne Hp) as Hv.
  eexists. split; [exact Hv|].
  destruct (validate_input_settles _ _ Hv) as (Hl & Hm & _ & Hi).
  split; [exact Hl|]. split; [apply Hm|exact Hi].
Defined.

(** ** The equalizer's filters *)

Lemma set_eq_params_same (self : MasteringEngine) :
  set_eq_params (eq_params self) self = self.
Proof. now destruct self. Qed.

(** X2.  With every band gain within [0.1] dB of zero and a centroid from
    1000 to 4000 Hz, the equalizer returns the buffer it was given, of any
    length, and leaves the engine as it was: no filter runs.  [c] is the
    centroid the analysis returns. *)
Theorem equalizer_is_identity_when_flat avg (self : MasteringEngine)
    (audio : list R) (sr c : R) :
  Rabs (gain (low_shelf (eq_params self))) <= 0.1 ->
  Rabs (gain (low_mid (eq_params self))) <= 0.1 ->
  Rabs (gain (mid (eq_params self))) <= 0.1 ->
  Rabs (gain (high_mid (eq_params self))) <= 0.1 ->
  Rabs (gain (high_shelf (eq_params self))) <= 0.1 ->
  avg audio sr = Ok c ->
  1000 <= c <= 4000 ->
  _apply_multiband_eq avg self audio sr = (Ok audio, self).
Proof.
  intros H1 H2 H3 H4 H5 Ha Hc. unfold _apply_multiband_eq. rewrite Ha.
  rewrite retune_neutral by assumption. rewrite set_eq_params_same.
  rewrite low_shelf_flat by assumption. cbn [bind].
  unfold _apply_peaking_filters.
  rewrite (peaking_band_flat sr (low_mid _)) by assumption. cbn [bind].
  rewrite (peaking_band_flat sr (mid _)) by assumption. cbn [bind].
  rewrite (peaking_band_flat sr (high_mid _)) by assumption. cbn [bind].
  now rewrite high_shelf_flat by assumption.
Qed.

Lemma equalizer_is_identity_when_flat_witness :
  _apply_multiband_eq (fun _ _ => Ok 2000) (__init__ (-14) (-1)) [0.5; -0.25] 22050
  = (Ok [0.5; -0.25], __init__ (-14) (-1)).
Proof.
  apply (equalizer_is_identity_when_flat _ _ _ _ 2000); simpl;
    try reflexivity;
    try (replace 0.0 with 0 by lra; rewrite Rabs_R0); lra.
Defined.

(** X3.  On an engine that was built by [__init__] and used only through
    [master_track], the low shelf and the [mid] peaking band never filter:
    their gains stay at 0 dB, so both return the buffer they are given. *)
Theorem low_shelf_and_mid_band_never_run avg (tl' tp : R)
    (calls : list (list Np.sample * R)) (audio : list R) (sr : R) :
  let self := master_run avg (__init__ tl' tp) calls in
  _apply_low_shelf self audio sr = Ok audio
  /\ peaking_band sr (mid (eq_params self)) audio = Ok audio.
Proof.
  intros self.
  destruct (master_run_gains_fixed avg tl' tp calls) as (Hls & Hmid & _).
  fold self in Hls, Hmid. split.
  - apply low_shelf_flat. rewrite Hls, Rabs_R0. lra.
  - apply peaking_band_flat. rewrite Hmid, Rabs_R0. lra.
Qed.

(** ** The compressor, again *)

Lemma apply_compression_nth (self : MasteringEngine) (audio : list R) :
  factory_chain self -> audio <> [] ->
  exists compressed,
    _apply_compression self audio = Ok compressed
    /\ length compressed = length audio
    /\ forall i, (i < length audio)%nat ->
         nth i compressed 0
         = nth i audio 0 * compressor_gain (nth i (envelope audio) 0)
           * compressor_makeup_gain.
Proof.
  intros Hf Hne. eexists. split.
  - rewrite apply_compression_factory by assumption.
    destruct audio; [congruence|reflexivity].
  - assert (Hlen : length audio = length (map compressor_gain (envelope audio)))
      by now rewrite length_map, length_envelope.
    unfold Np.scale. split.
    + rewrite length_map. now apply length_zip_with.
    + intros i Hi.
      rewrite (nth_indep _ 0 (0 * compressor_makeup_gain))
        by (rewrite length_map, length_zip_with; assumption).
      rewrite (map_nth (fun x => x * compressor_makeup_gain)).
      rewrite (nth_zip_with _ _ _ _ 0 (compressor_gain 0)) by assumption.
      rewrite (map_nth compressor_gain). reflexivity.
Qed.

(** The gain stays between [0.4] and [1]: below the knee it is [1], inside
    the knee at least [0.7], above the threshold [0.4 + 0.6 T / env]. *)
Lemma compressor_gain_range (env : R) : 0.4 < compressor_gain env <= 1.
Proof.
  pose proof knee_edge_range as HE.
  pose proof compressor_threshold_pos as HT.
  pose proof compressor_knee_gt_1 as HK.
  set (T := compressor_threshold) in *. set (K := compressor_knee) in *.
  destruct (Rlt_dec env (T / K)) as [Hb|Hb].
  { rewrite compressor_gain_below by exact Hb. lra. }
  destruct (Rlt_dec T env) as [Ha|Ha].
  { rewrite compressor_gain_above by exact Ha. fold T.
    assert (Hi : 0 < / env) by (apply Rinv_0_lt_compat; lra).
    replace 2.5 with (5 / 2) by lra.
    replace ((T + (env - T) / (5 / 2)) / env) with (2 / 5 + 3 / 5 * (T * / env))
      by (field; lra).
    assert (0 < T * / env) by nra.
    assert (T * / env < 1).
    { apply Rmult_lt_reg_r with env; [lra|].
      rewrite Rmult_assoc, Rinv_l by lra. lra. }
    lra. }
  rewrite compressor_gain_knee by (fold T K; lra). fold T K.
  assert (Henv : 0 < env) by lra.
  assert (Hden : 0 < 2 * T * (K - 1)) by nra.
  assert (Hi : 0 < / env) by now apply Rinv_0_lt_compat.
  assert (Hid : 0 < / (2 * T * (K - 1))) by now apply Rinv_0_lt_compat.
  set (u := (env - T) ^ 2 / (2 * T * (K - 1)) / env).
  replace 2.5 with (5 / 2) by lra.
  replace ((env + (1 / (5 / 2) - 1) * (env - T) ^ 2 / (2 * T * (K - 1))) / env)
    with (1 - 3 / 5 * u) by (unfold u; field; lra).
  assert (Hu0 : 0 <= u).
  { unfold u, Rdiv. pose proof (pow2_ge_0 (env - T)).
    apply Rmult_le_pos; [apply Rmult_le_pos|]; lra. }
  assert (Hu : u <= / 2).
  { unfold u. apply Rmult_le_reg_r with (env * (2 * T * (K - 1))); [nra|].
    replace ((env - T) ^ 2 / (2 * T * (K - 1)) / env * (env * (2 * T * (K - 1))))
      with ((env - T) ^ 2) by (field; lra).
    assert (HKe : T <= K * env).
    { apply Rnot_lt_le in Hb. apply Rmult_le_compat_l with (r := K) in Hb; [|lra].
      replace (K * (T / K)) with T in Hb by (field; lra). exact Hb. }
    apply Rnot_lt_le in Ha. nra. }
  lra.
Qed.

(** X4.  The compressor never inverts a sample and never raises its level
    by more than the makeup gain: each output sample has the sign of its
    input and a magnitude between [0.4] and [1] times the makeup gain
    times the input's. *)
Theorem compressor_keeps_polarity (self : MasteringEngine) (audio : list R) :
  factory_chain self ->
  audio <> [] ->
  exists compressed,
    _apply_compression self audio = Ok compressed
    /\ length compressed = length audio
    /\ forall i, (i < length audio)%nat ->
         0 <= nth i compressed 0 * nth i audio 0
         /\ 0.4 * db_to_linear 2.0 * Rabs (nth i audio 0)
            <= Rabs (nth i compressed 0)
            <= db_to_linear 2.0 * Rabs (nth i audio 0).
Proof.
  intros Hf Hne.
  destruct (apply_compression_nth self audio Hf Hne) as (out & Hout & Hlen & Hnth).
  exists out. split; [exact Hout|]. split; [exact Hlen|].
  intros i Hi. rewrite (Hnth i Hi).
  pose proof (compressor_gain_range (nth i (envelope audio) 0)) as Hg.
  pose proof (db_to_linear_pos 2.0) as Hm.
  unfold compressor_makeup_gain.
  set (g := compressor_gain _) in *. set (m := db_to_linear 2.0) in *.
  set (x := nth i audio 0).
  split.
  - replace (x * g * m * x) with (g * m * (x * x)) by ring.
    assert (0 <= x * x) by nra. assert (0 < g * m) by nra. nra.
  - rewrite !Rabs_mult, (Rabs_pos_eq g), (Rabs_pos_eq m) by lra.
    pose proof (Rabs_pos x) as Hx.
    assert (Hmx : 0 <= m * Rabs x) by (apply Rmult_le_pos; lra).
    replace (Rabs x * g * m) with (g * (m * Rabs x)) by ring.
    replace (0.4 * m * Rabs x) with (0.4 * (m * Rabs x)) by ring.
    split; nra.
Qed.

Lemma compressor_keeps_polarity_witness :
  exists compressed,
    _apply_compression (__init__ (-14) (-1)) [0.5; -1] = Ok compressed
    /\ length compressed = 2%nat
    /\ 0 <= nth 1 compressed 0 * -1.
Proof.
  destruct (compressor_keeps_polarity (__init__ (-14) (-1)) [0.5; -1])
    as (out & Hout & Hlen & Hnth).
  - apply factory_chain_init.
  - discriminate.
  - exists out. split; [exact Hout|]. split; [exact Hlen|].
    apply (Hnth 1%nat). simpl. lia.
Defined.

Lemma apply_compression_quiet (self : MasteringEngine) (audio : list R) :
  factory_chain self ->
  audio <> [] ->
  max_abs audio < compressor_threshold / compressor_knee ->
  _apply_compression self audio = Ok (Np.scale compressor_makeup_gain audio).
Proof.
  intros Hf Hne Hpeak. rewrite apply_compression_factory by assumption.
  destruct audio as [|x audio]; [congruence|].
  rewrite zip_with_unit_gains; [reflexivity| |].
  - now rewrite length_envelope.
  - eapply Forall_impl;
      [|apply (envelope_lt _ (compressor_threshold / compressor_knee))].
    + intros e He. now apply compressor_gain_below.
    + apply Forall_forall. intros y Hy.
      eapply Rle_lt_trans; [apply max_abs_In, Hy|exact Hpeak].
Qed.

(** X5.  A buffer whose peak is below [threshold / knee] passes the
    compressor with the makeup gain alone: the smoothed envelope never
    exceeds the peak. *)
Theorem compressor_transparent_on_quiet_buffers (self : MasteringEngine)
    (audio : list R) :
  factory_chain self ->
  audio <> [] ->
  max_abs audio < db_to_linear (-18.0) / db_to_linear 3.0 ->
  _apply_compression self audio = Ok (map (fun x => db_to_linear 2.0 * x) audio).
Proof.
  intros Hf Hne Hpeak. rewrite apply_compression_quiet by assumption.
  unfold Np.scale, compressor_makeup_gain. f_equal.
  apply map_ext. intros. ring.
Qed.

Lemma compressor_transparent_on_quiet_buffers_witness :
  _apply_compression (__init__ (-14) (-1)) [0.005; -0.008]
  = Ok (map (fun x => db_to_linear 2.0 * x) [0.005; -0.008]).
Proof.
  apply compressor_transparent_on_quiet_buffers.
  - apply factory_chain_init.
  - discriminate.
  - apply Rle_lt_trans with 0.008; [|pose proof knee_edge_lower as H;
      unfold compressor_threshold, compressor_knee in H; lra].
    apply max_abs_le; [lra|].
    simpl. intros y [<-|[<-|[]]]; apply Rabs_le; lra.
Defined.

(** ** The limiter, again *)

Lemma limiter_alpha_lower : 1 - / 110 <= limiter_alpha.
Proof.
  unfold limiter_alpha. pose proof (exp_ineq1_le (-1 / 110)). lra.
Qed.

Lemma apply_limiting_quiet (self : MasteringEngine) (audio : list R) :
  factory_chain self ->
  max_abs audio <= limiter_threshold ->
  _apply_limiting self audio = Ok audio.
Proof.
  intros Hf Hpeak. rewrite apply_limiting_factory by exact Hf. f_equal.
  apply (nth_ext _ _ 0 0); [now rewrite length_map, length_seq|].
  rewrite length_map, length_seq. intros i Hi.
  rewrite nth_map_seq by assumption.
  unfold limited_value.
  destruct (Rlt_dec limiter_threshold (max_abs (window 44 audio i))) as [Hp|Hp];
    [|reflexivity].
  exfalso. apply (Rlt_irrefl limiter_threshold).
  eapply Rlt_le_trans; [exact Hp|].
  pose proof limiter_threshold_range as HT.
  apply max_abs_le; [lra|].
  intros x Hx. eapply Rle_trans; [|exact Hpeak].
  apply max_abs_In. unfold window in Hx.
  eapply In_skipn, In_firstn, Hx.
Qed.

(** X6.  What the limiter does bound.  It never raises the magnitude of a
    sample and never inverts it; where the lookahead peak [p] is above the
    threshold [T] the output stays within [T + (p - T) / 110]; and a
    buffer whose peak is within the threshold is returned as it is. *)
Theorem limiter_reduces_excess (self : MasteringEngine) (audio : list R) :
  factory_chain self ->
  exists limited,
    _apply_limiting self audio = Ok limited
    /\ length limited = length audio
    /\ (forall i, (i < length audio)%nat ->
          let p := max_abs (window 44 audio i) in
          Rabs (nth i limited 0) <= Rabs (nth i audio 0)
          /\ 0 <= nth i limited 0 * nth i audio 0
          /\ (db_to_linear (-0.5) < p ->
              Rabs (nth i limited 0)
              <= db_to_linear (-0.5) + (p - db_to_linear (-0.5)) / 110))
    /\ (max_abs audio <= db_to_linear (-0.5) -> limited = audio).
Proof.
  intros Hf. eexists. split; [now apply apply_limiting_factory|].
  split; [now rewrite length_map, length_seq|].
  pose proof limiter_threshold_range as HT.
  pose proof limiter_alpha_range as Ha.
  pose proof limiter_alpha_lower as Hal.
  fold limiter_threshold. set (T := limiter_threshold) in *.
  set (a := limiter_alpha) in *.
  split.
  - intros i Hi p. rewrite nth_map_seq by assumption.
    assert (Hx : Rabs (nth i audio 0) <= p).
    { apply max_abs_In. unfold window.
      assert (Hin : In (nth i audio 0) (firstn 44 (skipn i audio))).
      { destruct (skipn i audio) as [|y l] eqn:E.
        - apply (f_equal (@length R)) in E. rewrite length_skipn in E.
          simpl in E. lia.
        - replace (nth i audio 0) with y; [now left|].
          rewrite <- (firstn_skipn i audio) at 1.
          rewrite app_nth2 by (rewrite length_firstn; lia).
          rewrite length_firstn, E.
          replace (i - Nat.min i (length audio))%nat with 0%nat by lia.
          reflexivity. }
      exact Hin. }
    unfold limited_value. fold p. fold T. fold a.
    set (x := nth i audio 0) in *.
    destruct (Rlt_dec T p) as [Hp|Hp].
    + assert (Hip : 0 < / p) by (apply Rinv_0_lt_compat; lra).
      assert (Hq : 0 < T / p < 1).
      { unfold Rdiv. split; [nra|].
        apply Rmult_lt_reg_r with p; [lra|].
        rewrite Rmult_assoc, Rinv_l by lra. lra. }
      set (g := if (0 <? i)%nat then a * (T / p) + (1 - a) * 1.0 else T / p).
      assert (Hg : 0 < g <= a * (T / p) + (1 - a) /\ g <= 1).
      { unfold g. destruct (0 <? i)%nat; split; try split; nra. }
      destruct Hg as [[Hg0 Hg1] Hg2].
      rewrite Rabs_mult, (Rabs_pos_eq g) by lra.
      pose proof (Rabs_pos x) as Hax.
      split; [nra|]. split.
      * replace (x * g * x) with (g * (x * x)) by ring.
        assert (0 <= x * x) by nra. nra.
      * intros _.
        apply Rle_trans with (p * (a * (T / p) + (1 - a))).
        -- apply Rle_trans with (Rabs x * (a * (T / p) + (1 - a))).
           ++ apply Rmult_le_compat_l; lra.
           ++ apply Rmult_le_compat_r; [nra|lra].
        -- replace (p * (a * (T / p) + (1 - a))) with (a * T + (1 - a) * p)
             by (field; lra).
           nra.
    + split; [lra|]. split; [nra|]. intros Hc. lra.
  - intros Hpeak.
    pose proof (apply_limiting_quiet self audio Hf Hpeak) as H.
    rewrite apply_limiting_factory in H by exact Hf.
    exact (f_equal (fun r => match r with Ok l => l | Raise _ => audio end) H).
Qed.

Lemma limiter_reduces_excess_witness :
  exists limited,
    _apply_limiting (__init__ (-14) (-1)) [2; 0.5] = Ok limited
    /\ Rabs (nth 0 limited 0) <= Rabs 2.
Proof.
  destruct (limiter_reduces_excess (__init__ (-14) (-1)) [2; 0.5]
              (factory_chain_init _ _)) as (out & Hout & _ & Hnth & _).
  exists out. split; [exact Hout|].
  destruct (Hnth 0%nat) as [H _]; [simpl; lia|exact H].
Defined.

(** ** The exciter *)

Lemma tanh_range (x : R) : -1 < tanh x < 1.
Proof.
  unfold tanh, sinh, cosh.
  pose proof (exp_pos x) as Ha. pose proof (exp_pos (- x)) as Hb.
  set (a := exp x) in *. set (b := exp (- x)) in *.
  replace ((a - b) / 2 / ((a + b) / 2)) with ((a - b) / (a + b)) by (field; lra).
  unfold Rdiv. split.
  - apply Rmult_lt_reg_r with (a + b); [lra|].
    rewrite Rmult_assoc, Rinv_l by lra. lra.
  - apply Rmult_lt_reg_r with (a + b); [lra|].
    rewrite Rmult_assoc, Rinv_l by lra. lra.
Qed.

Lemma tanh_sign (x : R) : 0 <= x * tanh x.
Proof.
  unfold tanh, sinh, cosh.
  pose proof (exp_pos x) as Ha. pose proof (exp_pos (- x)) as Hb.
  assert (Hs : 0 < / ((exp x + exp (- x)) / 2)) by (apply Rinv_0_lt_compat; lra).
  destruct (Rtotal_order x 0) as [Hx|[->|Hx]].
  - assert (exp x < exp (- x)) by (apply exp_increasing; lra).
    unfold Rdiv. rewrite <- Rmult_assoc.
    apply Rmult_le_pos; [nra|lra].
  - lra.
  - assert (exp (- x) < exp x) by (apply exp_increasing; lra).
    unfold Rdiv. rewrite <- Rmult_assoc.
    apply Rmult_le_pos; [nra|lra].
Qed.

(** X7.  The exciter moves each sample upward, by at most three percent
    of its magnitude, and keeps its sign: what it adds,
    [0.03 * x * tanh (3 x)], is an even function of the sample. *)
Theorem exciter_never_lowers_a_sample (audio : list R) :
  Forall2 (fun x y => x <= y <= x + 0.03 * Rabs x /\ 0 <= x * y)
    audio (_apply_harmonic_excitation audio).
Proof.
  unfold _apply_harmonic_excitation.
  induction audio as [|x audio IH]; simpl; constructor; [|exact IH].
  pose proof (tanh_range (x * 3)) as Ht.
  pose proof (tanh_sign (x * 3)) as Hs.
  set (t := tanh (x * 3)) in *.
  replace (x + 0.3 * (x * (1 + 0.1 * t) - x)) with (x + 0.03 * (x * t)) by lra.
  assert (Hxt : 0 <= x * t) by lra.
  assert (Hle : x * t <= Rabs x).
  { destruct (Rle_dec 0 x) as [Hx|Hx].
    - rewrite Rabs_pos_eq by exact Hx. nra.
    - rewrite Rabs_left by lra. nra. }
  split; [lra|].
  replace (x * (x + 0.03 * (x * t))) with (x * x * (1 + 0.03 * t)) by ring.
  apply Rmult_le_pos; [nra|lra].
Qed.

(** ** The stereo enhancer *)

Lemma clip_minus_22 (n : nat) : Py.clip (Z.of_nat n) (Z.opp 22) = (n - 22)%nat.
Proof. rewrite clip_neg by lia. lia. Qed.

Lemma clip_22 (n : nat) : Py.clip (Z.of_nat n) 22 = Nat.min 22 n.
Proof. rewrite clip_nonneg by lia. lia. Qed.

Lemma clip_length (n : nat) : Py.clip (Z.of_nat n) (Z.of_nat n) = n.
Proof. rewrite clip_nonneg by lia. lia. Qed.

Lemma clip_0 (n : nat) : Py.clip (Z.of_nat n) 0 = 0%nat.
Proof. rewrite clip_nonneg by lia. lia. Qed.

Lemma assign_slice_exact (start stop : Z) (dst src : list R) :
  let n := Z.of_nat (length dst) in
  length src = (Py.clip n stop - Py.clip n start)%nat ->
  assign_slice start stop dst src
  = Ok (firstn (Py.clip n start) dst ++ src
          ++ skipn (Py.clip n start + length src) dst).
Proof.
  intros n Hsrc. unfold assign_slice. fold n. rewrite <- Hsrc.
  now rewrite Nat.eqb_refl.
Qed.

(** The row the enhancer filters as its left channel: the first [22]
    samples of the input, then the input from its start again. *)
Lemma delayed_channel (audio : list R) :
  let n := length audio in
  (stereo0 <- assign_slice 22 (Z.of_nat n) (repeat 0 n)
                (Py.slice_to (Z.opp 22) audio) ;;
   assign_slice 0 22 stereo0 (Py.slice_to 22 audio))
  = Ok (firstn 22 audio ++ firstn (n - 22) audio).
Proof.
  intros n.
  assert (Htail : Py.slice_to (Z.opp 22) audio = firstn (n - 22) audio).
  { unfold Py.slice_to. fold n. now rewrite clip_minus_22. }
  assert (Hhead : Py.slice_to 22 audio = firstn 22 audio).
  { unfold Py.slice_to. fold n. rewrite clip_22.
    destruct (Nat.le_ge_cases 22 n) as [H|H].
    - now rewrite Nat.min_l by exact H.
    - rewrite Nat.min_r by exact H.
      rewrite !firstn_all2 by (fold n; lia). reflexivity. }
  rewrite Htail, Hhead.
  rewrite assign_slice_exact
    by (rewrite repeat_length, clip_length, clip_22, length_firstn; fold n; lia).
  cbn [bind]. rewrite repeat_length, clip_22, length_firstn. fold n.
  set (row := firstn (Nat.min 22 n) (repeat 0 n) ++ _).
  assert (Hrow : length row = n).
  { subst row. rewrite !length_app, !length_firstn, length_skipn, repeat_length.
    fold n. lia. }
  rewrite assign_slice_exact
    by (rewrite Hrow, clip_22, clip_0, length_firstn; fold n; lia).
  rewrite Hrow, clip_0, length_firstn. fold n.
  cbn [firstn app Nat.add]. f_equal. f_equal.
  subst row. rewrite skipn_app, length_firstn, repeat_length.
  rewrite skipn_all2 by (rewrite length_firstn, repeat_length; lia).
  replace (Nat.min 22 n - Nat.min (Nat.min 22 n) n)%nat with 0%nat by lia.
  cbn [skipn app].
  rewrite skipn_all2 by (rewrite repeat_length; lia).
  apply app_nil_r.
Qed.

Lemma enhance_stereo_factory (self : MasteringEngine) (audio : list R) :
  factory_chain self ->
  _enhance_stereo self audio
  = (stereo0 <- filtfilt (taps 1.0 0 0) (taps 1.0 (-0.5) 0.1)
                  (firstn 22 audio ++ firstn (length audio - 22) audio) ;;
     stereo1 <- filtfilt (taps 0.8 (-0.8) 0) (taps 1.0 (-0.7) 0.2) audio ;;
     Ok (zip_with (fun l r => (l + r) / 2) stereo0 stereo1)).
Proof.
  intros (Hsr & _). unfold _enhance_stereo.
  rewrite Hsr, delay_samples_default.
  pose proof (delayed_channel audio) as H. cbv zeta in H.
  destruct (assign_slice 22 _ _ _) as [row|e]; cbn [bind] in *.
  - now rewrite H.
  - discriminate.
Qed.

Lemma firstn_of_repeat {A : Type} (k n : nat) (a : A) :
  firstn k (repeat a n) = repeat a (Nat.min k n).
Proof.
  revert n. induction k as [|k IH]; intros [|n]; simpl; try reflexivity.
  now rewrite IH.
Qed.

Lemma zip_with_repeat {A B C : Type} (f : A -> B -> C) (a : A) (b : B) (n : nat) :
  zip_with f (repeat a n) (repeat b n) = repeat (f a b) n.
Proof. induction n as [|n IH]; simpl; [reflexivity|now rewrite IH]. Qed.

(** X8.  The enhancer is no unity-gain stage.  Its right channel goes
    through a filter with numerator [0.8, -0.8], which removes a constant,
    and its left channel through one with direct-current gain [1 / 0.6]:
    a constant buffer of level [c] comes back at [25 / 18 * c]. *)
Theorem enhance_stereo_raises_dc (self : MasteringEngine) (c : R) (n : nat) :
  factory_chain self ->
  (9 < n)%nat ->
  _enhance_stereo self (repeat c n) = Ok (repeat (25 / 18 * c) n).
Proof.
  intros Hf Hn. rewrite enhance_stereo_factory by exact Hf.
  rewrite repeat_length.
  replace (firstn 22 (repeat c n) ++ firstn (n - 22) (repeat c n))
    with (repeat c n).
  2:{ rewrite !firstn_of_repeat, <- repeat_app. f_equal. lia. }
  rewrite filtfilt_constant by (exact Hn || (simpl; lra)). cbn [bind].
  rewrite filtfilt_constant by (exact Hn || (simpl; lra)). cbn [bind].
  rewrite zip_with_repeat. f_equal. f_equal.
  unfold dc_gain. simpl. lra.
Qed.

Lemma enhance_stereo_raises_dc_witness :
  _enhance_stereo (__init__ (-14) (-1)) (repeat 0.18 10) = Ok (repeat (25 / 18 * 0.18) 10).
Proof.
  apply enhance_stereo_raises_dc; [apply factory_chain_init|lia].
Defined.

(** ** Loudness *)

Lemma db_to_linear_le (x y : R) : x <= y -> db_to_linear x <= db_to_linear y.
Proof.
  intros [H| ->]; [left; now apply db_to_linear_lt|lra].
Qed.

(** The measurement has a floor: the [1e-12] under the logarithm keeps
    it at or above [-120.691]. *)
Lemma calculate_lufs_floor (audio : list R) (sr l : R) :
  _calculate_lufs audio sr = Ok l -> -120.691 <= l.
Proof.
  unfold _calculate_lufs.
  destruct (_k_weighting audio sr) as [kw|e]; cbn [bind]; [|discriminate].
  intros [= <-].
  pose proof (mean_square_nonneg kw) as Hm.
  assert (H : Np.log10 1e-12 <= Np.log10 (mean_square kw + 1e-12))
    by (apply log10_le_compat; lra).
  rewrite log10_1e_12 in H. lra.
Qed.

(** X9.  The normalizer is one positive gain on the whole buffer, and the
    floor of the measurement caps it: the gain is at most the target plus
    [120.691] decibels. *)
Theorem normalizer_gain_is_bounded (self : MasteringEngine) (audio : list R)
    (sr : R) (out : list R) :
  _normalize_loudness self audio sr = Ok out ->
  exists g,
    0 < g <= db_to_linear (target_lufs self + 120.691)
    /\ out = Np.scale g audio.
Proof.
  unfold _normalize_loudness.
  destruct (_calculate_lufs audio sr) as [l|e] eqn:El; cbn [bind]; [|discriminate].
  intros [= <-]. apply calculate_lufs_floor in El.
  exists (db_to_linear (target_lufs self - l)). split; [|reflexivity].
  split; [apply db_to_linear_pos|apply db_to_linear_le; lra].
Qed.

Lemma normalizer_gain_is_bounded_witness :
  exists g,
    0 < g <= db_to_linear (-14 + 120.691)
    /\ Np.scale (db_to_linear (-14 - -120.691)) dc10 = Np.scale g dc10.
Proof.
  apply (normalizer_gain_is_bounded (__init__ (-14) (-1)) dc10 22050).
  unfold _normalize_loudness, dc10.
  rewrite calculate_lufs_constant by lia. reflexivity.
Defined.

(** ** The whole call, again *)

(** X10.  A call that fails after validation still retunes the engine.
    On a dark buffer of at most [9] samples that validation accepts,
    [master_track] raises, and the engine is left with the high-mid gain
    at [1.5] and the high-shelf gain at [2.0].  [c] is the centroid the
    analysis returns. *)
Theorem failed_call_still_retunes avg (self : MasteringEngine)
    (audio : list Np.sample) (sr : R) (valid : list R) (c : R) :
  factory_chain self ->
  (length audio <= 9)%nat ->
  _validate_input audio = Ok valid ->
  avg valid sr = Ok c ->
  c < 1000 ->
  exists e self',
    master_track avg self audio sr = (Raise e, self')
    /\ gain (high_mid (eq_params self')) = 1.5
    /\ gain (high_shelf (eq_params self')) = 2.0.
Proof.
  intros Hf Hshort Ev Hc Hdark.
  destruct (master_track_short avg self audio sr Hf Hshort) as (e & He).
  rewrite (master_track_valid avg self audio sr valid c Ev Hc) in *. cbv zeta in *.
  simpl fst in He. exists e. eexists. split; [now rewrite He|].
  simpl eq_params. rewrite retune_dark by exact Hdark. split; reflexivity.
Qed.

Lemma failed_call_still_retunes_witness :
  exists e self',
    master_track (fun _ _ => Ok 500) (__init__ (-14) (-1))
      [Np.Finite 0.5; Np.Finite (-0.25)] 22050 = (Raise e, self')
    /\ gain (high_mid (eq_params self')) = 1.5
    /\ gain (high_shelf (eq_params self')) = 2.0.
Proof.
  apply (failed_call_still_retunes (fun _ _ => Ok 500) (__init__ (-14) (-1))
           [Np.Finite 0.5; Np.Finite (-0.25)] 22050 [0.5; -0.25] 500).
  - apply factory_chain_init.
  - simpl. lia.
  - apply validate_input_in_range; [discriminate|].
    simpl. unfold Rmax.
    repeat (destruct (Rle_dec _ _)); rewrite ?Rabs_right, ?Rabs_left in * by lra; lra.
  - reflexivity.
  - lra.
Defined.

(** *** The engine's [target_peak] *)

Lemma eq_filters_ext (self self' : MasteringEngine) (audio : list R) (sr : R) :
  eq_params self = eq_params self' ->
  (a <- _apply_low_shelf self audio sr ;;
   a <- _apply_peaking_filters self a sr ;;
   _apply_high_shelf self a sr)
  = (a <- _apply_low_shelf self' audio sr ;;
     a <- _apply_peaking_filters self' a sr ;;
     _apply_high_shelf self' a sr).
Proof.
  intros H. unfold _apply_low_shelf, _apply_peaking_filters, _apply_high_shelf.
  now rewrite H.
Qed.

Lemma after_eq_ext (self self' : MasteringEngine) (audio : list R) (sr : R) :
  target_lufs self = target_lufs self' ->
  sample_rate self = sample_rate self' ->
  compressor_params self = compressor_params self' ->
  limiter_params self = limiter_params self' ->
  after_eq self audio sr = after_eq self' audio sr.
Proof.
  intros Hl Hs Hc Hlim. unfold after_eq.
  rewrite (apply_compression_ext self self') by assumption.
  destruct (_apply_compression self' audio) as [a|e]; [|reflexivity]. cbn [bind].
  rewrite (enhance_stereo_ext self self') by assumption.
  destruct (_enhance_stereo self' a) as [a'|e]; [|reflexivity]. cbn [bind].
  rewrite (apply_limiting_ext self self') by assumption.
  destruct (_apply_limiting self' _) as [a''|e]; [|reflexivity]. cbn [bind].
  unfold _normalize_loudness. now rewrite Hl.
Qed.

Lemma master_track_target_peak avg (tl tp tp' sr0 : R) (eq : EqParams)
    (c : CompressorParams) (l : LimiterParams) (audio : list Np.sample) (sr : R) :
  exists r eq',
    master_track avg (mkEngine tl tp sr0 eq c l) audio sr
    = (r, mkEngine tl tp sr0 eq' c l)
    /\ master_track avg (mkEngine tl tp' sr0 eq c l) audio sr
       = (r, mkEngine tl tp' sr0 eq' c l).
Proof.
  destruct (_validate_input audio) as [valid|e] eqn:Ev.
  2:{ rewrite !(master_track_refused avg _ audio sr e Ev). now eexists _, eq. }
  destruct (avg valid sr) as [centroid|e] eqn:Hc.
  2:{ rewrite !(master_track_analysis_raises avg _ audio sr valid e Ev Hc).
      now eexists _, eq. }
  rewrite !(master_track_valid avg _ audio sr valid centroid Ev Hc). cbv zeta.
  cbn [eq_params set_eq_params target_lufs target_peak sample_rate
       compressor_params limiter_params].
  set (eq' := retune centroid eq).
  rewrite (eq_filters_ext (mkEngine tl tp sr0 eq' c l) (mkEngine tl tp' sr0 eq' c l))
    by reflexivity.
  destruct (a <- _apply_low_shelf _ valid sr ;; _) as [filtered|e]; cbn [bind].
  - rewrite (after_eq_ext (mkEngine tl tp sr0 eq' c l) (mkEngine tl tp' sr0 eq' c l))
      by reflexivity.
    now eexists _, eq'.
  - now eexists _, eq'.
Qed.

Lemma master_run_target_peak avg (tl tp tp' : R) calls :
  exists eq',
    master_run avg (__init__ tl tp) calls
    = mkEngine tl tp 22050 eq' _init_compressor_params _init_limiter_params
    /\ master_run avg (__init__ tl tp') calls
       = mkEngine tl tp' 22050 eq' _init_compressor_params _init_limiter_params.
Proof.
  induction calls as [|call calls IH] using rev_ind.
  - now exists _init_eq_params.
  - destruct IH as (eq & H & H'). rewrite !master_run_snoc, H, H'.
    destruct (master_track_target_peak avg tl tp tp' 22050 eq _init_compressor_params
                _init_limiter_params (fst call) (snd call)) as (r & eq' & -> & ->).
    now exists eq'.
Qed.

(** X11.  The engine's [target_peak] is stored and never read: two engines
    built with the same [target_lufs] and different [target_peak], taken
    through the same calls, answer every further call alike. *)
Theorem target_peak_is_never_read avg (tl tp tp' : R) calls
    (audio : list Np.sample) (sr : R) :
  fst (master_track avg (master_run avg (__init__ tl tp) calls) audio sr)
  = fst (master_track avg (master_run avg (__init__ tl tp') calls) audio sr).
Proof.
  destruct (master_run_target_peak avg tl tp tp' calls) as (eq & -> & ->).
  destruct (master_track_target_peak avg tl tp tp' 22050 eq _init_compressor_params
              _init_limiter_params audio sr) as (r & eq' & -> & ->).
  reflexivity.
Qed.

(** *** The mastering thread *)

(** X12.  What the mastering thread of the main window signals, on an
    engine built by [__init__] and used through [master_track].  When
    validation accepts the buffer, the analysis returns, the buffer has
    more than [9] samples and the sample rate is above 16 kHz: progress
    10, progress 100 and the completion message.  On a silent buffer:
    progress 10 and the error [Input audio is silent], with the engine
    left alone.  On a buffer of at most [9] samples: progress 10 and an
    error.  When the analysis raises: progress 10 and the error with the
    message of the analysis, with the engine left alone. *)
Theorem mastering_thread_signals avg (tl tp : R)
    (calls : list (list Np.sample * R)) (audio : list Np.sample) (sr : R) :
  let engine := master_run avg (__init__ tl tp) calls in
  let self := MasteringThread.mk engine audio sr in
  let peak := max_abs (Np.nan_to_num audio) in
  let events := fst (MasteringThread.run avg self) in
  (forall valid c,
      _validate_input audio = Ok valid -> avg valid sr = Ok c ->
      (9 < length audio)%nat -> 16000 < sr ->
      events = [MasteringThread.progress_updated 10;
                MasteringThread.progress_updated 100;
                MasteringThread.mastering_complete
                  "Mastering completed successfully!"])
  /\ (audio <> [] -> peak < 1e-10 ->
      MasteringThread.run avg self
      = ([MasteringThread.progress_updated 10;
          MasteringThread.error_occurred "Input audio is silent"],
         engine))
  /\ ((length audio <= 9)%nat ->
      exists message,
        events = [MasteringThread.progress_updated 10;
                  MasteringThread.error_occurred message])
  /\ (forall valid e,
      _validate_input audio = Ok valid -> avg valid sr = Raise e ->
      MasteringThread.run avg self
      = ([MasteringThread.progress_updated 10;
          MasteringThread.error_occurred (MasteringThread.str e)],
         engine)).
Proof.
  intros engine self peak events. subst events self. unfold MasteringThread.run.
  cbn [MasteringThread.mastering_engine MasteringThread.audio
       MasteringThread.sample_rate].
  assert (Hf : factory_chain engine)
    by apply master_run_keeps_chain, factory_chain_init.
  repeat split.
  - intros valid c Ev Hc Hlong Hsr.
    destruct (master_track_returns avg engine audio sr valid c Hf
                (master_run_gains_fixed avg tl tp calls)
                (master_run_bands_fixed avg tl tp calls) Ev Hc Hlong Hsr)
      as (out & Hout & _).
    destruct (master_track _ _ _ _) as [r engine']. simpl in Hout. now rewrite Hout.
  - intros Hne Hpeak.
    pose proof (validate_input_cases audio Hne) as Hv. cbv zeta in Hv. fold peak in Hv.
    destruct (Rlt_dec peak 1e-10); [|lra].
    now rewrite (master_track_refused avg _ audio _ _ Hv).
  - intros Hshort.
    destruct (master_track_short avg engine audio sr Hf Hshort) as (e & He).
    destruct (master_track _ _ _ _) as [r engine']. simpl in He. rewrite He.
    now eexists.
  - intros valid e Ev He.
    now rewrite (master_track_analysis_raises avg engine audio sr valid e Ev He).
Qed.

Lemma mastering_thread_signals_witness :
  fst (MasteringThread.run (fun _ _ => Ok 2000)
         (MasteringThread.mk (master_run (fun _ _ => Ok 2000) (__init__ (-14) (-1)) [])
            (map Np.Finite triangle10) 22050))
  = [MasteringThread.progress_updated 10;
     MasteringThread.progress_updated 100;
     MasteringThread.mastering_complete "Mastering completed successfully!"].
Proof.
  apply (mastering_thread_signals (fun _ _ => Ok 2000) (-14) (-1) []
           (map Np.Finite triangle10) 22050) with (valid := triangle10) (c := 2000).
  - apply validate_triangle10.
  - reflexivity.
  - simpl. lia.
  - lra.
Defined.

(** ** The equalizer on a constant buffer *)

(** A normalized biquad whose numerator and denominator have the same sum
    has unit gain at direct current. *)
Lemma filtfilt_unity_dc (b0 b1 b2 a0 a1 a2 c : R) (n : nat) :
  (9 < n)%nat ->
  a0 <> 0 ->
  a0 + a1 + a2 <> 0 ->
  b0 + b1 + b2 = a0 + a1 + a2 ->
  filtfilt (taps (b0 / a0) (b1 / a0) (b2 / a0)) (taps 1 (a1 / a0) (a2 / a0))
    (repeat c n)
  = Ok (repeat c n).
Proof.
  intros Hn Ha0 Hs Hb.
  rewrite filtfilt_constant; [|exact Hn|].
  - f_equal. f_equal. unfold dc_gain. simpl.
    replace (b0 / a0 / 1 + b1 / a0 / 1 + b2 / a0 / 1) with ((a0 + a1 + a2) / a0)
      by (rewrite <- Hb; field; exact Ha0).
    replace (1 + a1 / a0 / 1 + a2 / a0 / 1) with ((a0 + a1 + a2) / a0)
      by (field; exact Ha0).
    field. split; assumption.
  - now apply biquad_regular.
Qed.

Lemma peaking_filter_constant (sr : R) (params : Band) (c : R) (n : nat) :
  (9 < n)%nat ->
  0 < freq params -> 2 * freq params < sr -> 0 < q params ->
  _peaking_filter (repeat c n) sr params = Ok (repeat c n).
Proof.
  intros Hn Hf Hsr Hq. unfold _peaking_filter.
  rewrite float_div_ok by lra. cbn [bind]. cbv zeta.
  destruct (sin_cos_band _ (band_angle _ _ Hf (Rlt_le _ _ Hsr))) as (Hs & Hc).
  set (w0 := 2 * PI * freq params / sr) in *.
  set (A := Rpower 10 (gain params / 40)).
  assert (HA : 0 < A) by (unfold A, Rpower; apply exp_pos).
  set (alpha := sin w0 / (2 * q params)).
  assert (Halpha : 0 <= alpha).
  { unfold alpha, Rdiv. apply Rmult_le_pos; [lra|].
    left. apply Rinv_0_lt_compat. lra. }
  assert (HaA : 0 <= alpha / A).
  { unfold Rdiv. apply Rmult_le_pos; [exact Halpha|].
    left. now apply Rinv_0_lt_compat. }
  apply filtfilt_unity_dc; [exact Hn|lra|lra|ring].
Qed.

Lemma peaking_band_constant (sr : R) (params : Band) (c : R) (n : nat) :
  (9 < n)%nat ->
  0 < freq params -> 2 * freq params < sr -> 0 < q params ->
  peaking_band sr params (repeat c n) = Ok (repeat c n).
Proof.
  intros. unfold peaking_band.
  destruct (Rlt_dec _ _); [now apply peaking_filter_constant|reflexivity].
Qed.

Lemma high_shelf_constant (self : MasteringEngine) (sr c : R) (n : nat) :
  (9 < n)%nat ->
  0 < freq (high_shelf (eq_params self)) ->
  2 * freq (high_shelf (eq_params self)) < sr ->
  _apply_high_shelf self (repeat c n) sr = Ok (repeat c n).
Proof.
  intros Hn Hf Hsr. unfold _apply_high_shelf. cbv zeta.
  destruct (Rlt_dec _ _); [|reflexivity].
  rewrite float_div_ok by lra. cbn [bind].
  destruct (sin_cos_band _ (band_angle _ _ Hf (Rlt_le _ _ Hsr))) as (Hs & Hc).
  set (w0 := 2 * PI * freq (high_shelf (eq_params self)) / sr) in *.
  set (A := Rpower 10 (gain (high_shelf (eq_params self)) / 40)).
  assert (HA : 0 < A) by (unfold A, Rpower; apply exp_pos).
  set (alpha := sin w0 / 2 * sqrt ((A + 1 / A) * (1 / 0.7 - 1) + 2)).
  assert (Halpha : 0 <= alpha).
  { unfold alpha. apply Rmult_le_pos; [lra|apply sqrt_pos]. }
  pose proof (sqrt_pos A) as HsA. set (sA := sqrt A) in *.
  assert (Hp : 0 <= sA * alpha) by now apply Rmult_le_pos.
  assert (Hm : 0 < A * (1 - cos w0)) by (apply Rmult_lt_0_compat; lra).
  assert (Hq : 0 < 1 + cos w0 + A * (1 - cos w0)) by lra.
  apply filtfilt_unity_dc; [exact Hn|nra|nra|ring].
Qed.

Lemma eq_filters_constant (self : MasteringEngine) (sr c : R) (n : nat) :
  16000 < sr -> (9 < n)%nat ->
  gains_fixed (eq_params self) -> bands_fixed (eq_params self) ->
  (a <- _apply_low_shelf self (repeat c n) sr ;;
   a <- _apply_peaking_filters self a sr ;;
   _apply_high_shelf self a sr)
  = Ok (repeat c n).
Proof.
  intros Hsr Hn (Hg & _) ((F1 & Q1) & (F2 & Q2) & (F3 & Q3) & F4).
  rewrite low_shelf_flat by (rewrite Hg, Rabs_R0; lra). cbn [bind].
  unfold _apply_peaking_filters.
  rewrite peaking_band_constant by (rewrite ?F1, ?Q1; (exact Hn || lra)). cbn [bind].
  rewrite peaking_band_constant by (rewrite ?F2, ?Q2; (exact Hn || lra)). cbn [bind].
  rewrite peaking_band_constant by (rewrite ?F3, ?Q3; (exact Hn || lra)). cbn [bind].
  apply high_shelf_constant; rewrite ?F4; (exact Hn || lra).
Qed.

(** X13.  The equalizer leaves direct current alone.  On an engine built
    by [__init__] and used through [master_track], at a sample rate above
    16 kHz, every filter the analysis can switch on (the peaking bands at
    250 and 4000 Hz, the shelf at 8000 Hz) has unit gain at zero
    frequency: a constant buffer of more than [9] samples comes back as it
    is, whatever centroid the analysis returns. *)
Theorem equalizer_preserves_dc avg (tl tp : R) calls (c : R) (n : nat)
    (sr centroid : R) :
  16000 < sr ->
  (9 < n)%nat ->
  avg (repeat c n) sr = Ok centroid ->
  fst (_apply_multiband_eq avg (master_run avg (__init__ tl tp) calls)
         (repeat c n) sr)
  = Ok (repeat c n).
Proof.
  intros Hsr Hn Ha. unfold _apply_multiband_eq. rewrite Ha. cbn [fst].
  apply eq_filters_constant; try assumption; simpl eq_params.
  - apply gains_fixed_retune, master_run_gains_fixed.
  - apply bands_fixed_retune, master_run_bands_fixed.
Qed.

Lemma equalizer_preserves_dc_witness :
  fst (_apply_multiband_eq (fun _ _ => Ok 500) (master_run (fun _ _ => Ok 500) (__init__ (-14) (-1)) [])
         (repeat 0.5 10) 22050)
  = Ok (repeat 0.5 10).
Proof.
  apply (equalizer_preserves_dc _ _ _ _ _ _ _ 500); [lra|lia|reflexivity].
Defined.

(** ** The whole chain on a quiet constant buffer *)

Lemma max_abs_repeat (c : R) (n : nat) : (0 < n)%nat -> max_abs (repeat c n) = Rabs c.
Proof.
  intros Hn. destruct n as [|n]; [lia|]. clear Hn.
  induction n as [|n IH]; simpl in *.
  - apply Rmax_left, Rabs_pos.
  - rewrite IH. apply Rmax_left. lra.
Qed.

Lemma db_to_linear_20 : db_to_linear 20 = 10.
Proof.
  unfold db_to_linear. replace (20 / 20) with 1 by lra.
  apply Rpower_1. lra.
Qed.

Lemma delayed_constant (c : R) (n : nat) :
  firstn 22 (repeat c n) ++ firstn (n - 22) (repeat c n) = repeat c n.
Proof. rewrite !firstn_of_repeat, <- repeat_app. f_equal. lia. Qed.

(** X14.  The chain end to end, on what the loudness meter cannot hear.
    A constant buffer of more than [9] samples at a level [c] between
    [1e-10] and [0.01] passes validation, the equalizer, the compressor
    (makeup gain only), the enhancer ([25 / 18]), the exciter and the
    limiter (below its threshold); the meter, whose high-pass removes a
    constant, reads [-120.691], and the normalizer applies the whole
    distance to the target.  [master_track] returns the constant buffer
    at more than [10 ** ((target_lufs + 120.691) / 20)] times [c]. *)
Theorem master_track_amplifies_quiet_dc avg (tl tp : R) calls (c : R) (n : nat)
    (sr centroid : R) :
  16000 < sr ->
  (9 < n)%nat ->
  1e-10 <= Rabs c <= 0.01 ->
  avg (repeat c n) sr = Ok centroid ->
  exists k,
    1 < k
    /\ fst (master_track avg (master_run avg (__init__ tl tp) calls)
              (repeat (Np.Finite c) n) sr)
       = Ok (repeat (c * k * db_to_linear (tl + 120.691)) n).
Proof.
  intros Hsr Hn Hc Ha.
  pose proof (master_run_gains_fixed avg tl tp calls) as Hg.
  pose proof (master_run_bands_fixed avg tl tp calls) as Hb.
  pose proof (master_run_keeps_chain avg (__init__ tl tp) calls
                (factory_chain_init tl tp)) as Hf.
  assert (Htl : target_lufs (master_run avg (__init__ tl tp) calls) = tl).
  { destruct (master_run_target_peak avg tl tp tp calls) as (eq' & -> & _).
    reflexivity. }
  set (self := master_run avg (__init__ tl tp) calls) in *.
  assert (Ev : _validate_input (repeat (Np.Finite c) n) = Ok (repeat c n)).
  { replace (repeat c n) with (Np.nan_to_num (repeat (Np.Finite c) n))
      by (unfold Np.nan_to_num; now rewrite map_repeat).
    apply validate_input_in_range.
    - destruct n; [lia|discriminate].
    - unfold Np.nan_to_num. rewrite map_repeat. simpl Np.nan_to_num1.
      rewrite max_abs_repeat by lia. lra. }
  rewrite (master_track_valid avg self _ sr _ centroid Ev Ha). cbv zeta. cbn [fst].
  set (self' := set_eq_params _ self).
  assert (Hf' : factory_chain self') by apply factory_chain_set_eq, Hf.
  rewrite eq_filters_constant;
    [|exact Hsr|exact Hn|apply gains_fixed_retune, Hg|apply bands_fixed_retune, Hb].
  cbn [bind]. unfold after_eq.
  (* the compressor *)
  pose proof knee_edge_lower as Hknee.
  rewrite apply_compression_quiet;
    [|exact Hf'|destruct n; [lia|discriminate]|rewrite max_abs_repeat by lia; lra].
  cbn [bind]. rewrite scale_repeat.
  pose proof (db_to_linear_gt_1 2.0 ltac:(lra)) as Hm1.
  assert (Hm2 : db_to_linear 2.0 <= 10)
    by (rewrite <- db_to_linear_20; apply db_to_linear_le; lra).
  fold compressor_makeup_gain in Hm1, Hm2.
  set (m := compressor_makeup_gain) in *.
  (* the enhancer *)
  rewrite enhance_stereo_factory by exact Hf'.
  rewrite repeat_length, delayed_constant.
  rewrite filtfilt_constant by (exact Hn || (simpl; lra)). cbn [bind].
  rewrite filtfilt_constant by (exact Hn || (simpl; lra)). cbn [bind].
  rewrite zip_with_repeat.
  match goal with |- context [repeat ?v n] => 
    replace v with (25 / 18 * (c * m)) by (unfold dc_gain; simpl; lra) end.
  set (v := 25 / 18 * (c * m)).
  (* the exciter *)
  unfold _apply_harmonic_excitation. rewrite map_repeat. cbv beta zeta.
  pose proof (tanh_range (v * 3)) as Ht.
  set (t := tanh (v * 3)) in *.
  replace (v + 0.3 * (v * (1 + 0.1 * t) - v)) with (v * (1 + 0.03 * t)) by lra.
  assert (Hv : Rabs v <= 0.14).
  { unfold v. rewrite !Rabs_mult, (Rabs_pos_eq (25 / 18)), (Rabs_pos_eq m) by lra.
    pose proof (Rabs_pos c). nra. }
  (* the limiter *)
  pose proof limiter_threshold_range as HT.
  rewrite apply_limiting_quiet; [|exact Hf'|].
  2:{ rewrite max_abs_repeat by lia.
      rewrite Rabs_mult, (Rabs_pos_eq (1 + 0.03 * t)) by lra.
      pose proof (Rabs_pos v). nra. }
  cbn [bind].
  (* the normalizer *)
  unfold _normalize_loudness.
  rewrite calculate_lufs_constant by exact Hn. cbn [bind].
  rewrite scale_repeat.
  replace (target_lufs self') with tl by (symmetry; exact Htl).
  exists (m * (25 / 18) * (1 + 0.03 * t)). split; [nra|].
  f_equal. f_equal.
  replace (tl - -120.691) with (tl + 120.691) by lra.
  unfold v. ring.
Qed.

Lemma master_track_amplifies_quiet_dc_witness :
  exists k,
    1 < k
    /\ fst (master_track (fun _ _ => Ok 500) (master_run (fun _ _ => Ok 500) (__init__ (-14) (-1)) [])
              (repeat (Np.Finite 0.01) 10) 22050)
       = Ok (repeat (0.01 * k * db_to_linear (-14 + 120.691)) 10).
Proof.
  apply (master_track_amplifies_quiet_dc _ _ _ _ _ _ _ 500);
    [lra|lia| |reflexivity].
  rewrite Rabs_pos_eq; lra.
Defined.

(** ** The equalizer's memory *)

Lemma retune_keeps_boosts (c : R) (e : EqParams) :
  (gain (high_mid e) = 1.5 -> gain (high_mid (retune c e)) = 1.5)
  /\ (gain (high_shelf e) = 2.0 -> gain (high_shelf (retune c e)) = 2.0)
  /\ (gain (low_mid e) = 1.0 -> gain (low_mid (retune c e)) = 1.0).
Proof.
  unfold retune.
  destruct (Rlt_dec c 1000); [|destruct (Rlt_dec 4000 c)]; simpl; auto.
Qed.

(** X15.  The engine remembers.  A boost the analysis has assigned is
    never taken back: whatever [master_track] is called on afterwards,
    dark, bright or neither, accepted or refused, a high-mid gain of
    [1.5], a high-shelf gain of [2.0] and a low-mid gain of [1.0] stay,
    so a later buffer is equalized for the buffers before it. *)
Theorem eq_boosts_are_never_reset avg (self : MasteringEngine)
    (calls : list (list Np.sample * R)) :
  let later := eq_params (master_run avg self calls) in
  (gain (high_mid (eq_params self)) = 1.5 -> gain (high_mid later) = 1.5)
  /\ (gain (high_shelf (eq_params self)) = 2.0 -> gain (high_shelf later) = 2.0)
  /\ (gain (low_mid (eq_params self)) = 1.0 -> gain (low_mid later) = 1.0).
Proof.
  cbv zeta. induction calls as [|call calls IH] using rev_ind; [now simpl|].
  rewrite master_run_snoc.
  destruct (master_track_engine avg (master_run avg self calls)
              (fst call) (snd call)) as [->|(c & ->)]; [exact IH|].
  simpl eq_params.
  destruct IH as (I1 & I2 & I3).
  destruct (retune_keeps_boosts c (eq_params (master_run avg self calls)))
    as (R1 & R2 & R3).
  repeat split; auto.
Qed.

Lemma eq_boosts_are_never_reset_witness :
  gain (high_mid
          (eq_params
             (master_run (fun _ _ => Ok 2000)
                (set_eq_params (retune 500 _init_eq_params) (__init__ (-14) (-1)))
                [([Np.Finite 0.5], 22050)]))) = 1.5.
Proof.
  apply (eq_boosts_are_never_reset (fun _ _ => Ok 2000)
           (set_eq_params (retune 500 _init_eq_params) (__init__ (-14) (-1)))
           [([Np.Finite 0.5], 22050)]).
  simpl eq_params. rewrite retune_dark by lra. reflexivity.
Defined.

(** ** The loudness meter *)

Lemma log10_sqr (g : R) : g <> 0 -> Np.log10 (g ^ 2) = 2 * Np.log10 (Rabs g).
Proof.
  intros Hg. pose proof (Rabs_pos_lt g Hg) as Ha.
  replace (g ^ 2) with (Rabs g * Rabs g).
  - unfold Np.log10. rewrite ln_mult by assumption. unfold Rdiv. ring.
  - rewrite <- Rabs_mult, Rabs_pos_eq by nra. ring.
Qed.

(** X16.  A gain and the meter.  Raising a buffer by a factor [g] of
    magnitude at least [1] never lowers the reading and raises it by at
    most [20 log10 |g|] decibels (less where the [1e-12] under the
    logarithm counts); a change of polarity leaves it as it is. *)
Theorem loudness_follows_gain (g : R) (audio : list R) (sr l : R) :
  1 <= Rabs g ->
  _calculate_lufs audio sr = Ok l ->
  exists l',
    _calculate_lufs (Np.scale g audio) sr = Ok l'
    /\ l <= l' <= l + 20 * Np.log10 (Rabs g).
Proof.
  intros Hg. unfold _calculate_lufs at 1.
  destruct (_k_weighting audio sr) as [kw|e] eqn:Ek; cbn [bind]; [|discriminate].
  intros [= <-]. rewrite (calculate_lufs_scale g audio kw sr Ek).
  eexists. split; [reflexivity|].
  pose proof (mean_square_nonneg kw) as Hm.
  set (m := mean_square kw) in *.
  assert (Hg0 : g <> 0) by (intros ->; rewrite Rabs_R0 in Hg; lra).
  assert (Hg2 : 1 <= g ^ 2).
  { replace (g ^ 2) with (Rabs g * Rabs g)
      by (rewrite <- Rabs_mult, Rabs_pos_eq by nra; ring).
    nra. }
  assert (Hlo : Np.log10 (m + 1e-12) <= Np.log10 (g ^ 2 * m + 1e-12))
    by (apply log10_le_compat; nra).
  assert (Hhi : Np.log10 (g ^ 2 * m + 1e-12) <= Np.log10 (g ^ 2 * (m + 1e-12)))
    by (apply log10_le_compat; nra).
  assert (Hmul : Np.log10 (g ^ 2 * (m + 1e-12))
                 = 2 * Np.log10 (Rabs g) + Np.log10 (m + 1e-12)).
  { rewrite <- log10_sqr by exact Hg0.
    unfold Np.log10. rewrite ln_mult by lra. unfold Rdiv. ring. }
  lra.
Qed.

(** On the triangle wave, which the meter hears (its reading is above
    [-60]), at twice the level. *)
Lemma loudness_follows_gain_witness :
  exists l l',
    _calculate_lufs triangle10 22050 = Ok l
    /\ -60 <= l
    /\ _calculate_lufs (Np.scale 2 triangle10) 22050 = Ok l'
    /\ l <= l' <= l + 20 * Np.log10 (Rabs 2).
Proof.
  destruct (calculate_lufs_triangle10 22050) as (l & Hl & Hlo).
  destruct (loudness_follows_gain 2 triangle10 22050 l) as (l' & Hl' & Hb).
  - rewrite Rabs_pos_eq; lra.
  - exact Hl.
  - exists l, l'. repeat split; try assumption; apply Hb.
Defined.

(** *** The filter kernel is additive *)

Section KernelSum.

Local Abbreviation O := Signal.R_ops.

Local Abbreviation padd := (zip_with Rplus).

Lemma padd_app (x1 x2 y1 y2 : list R) :
  length x1 = length y1 ->
  padd (x1 ++ x2) (y1 ++ y2) = padd x1 y1 ++ padd x2 y2.
Proof.
  revert y1. induction x1 as [|a x1 IH]; intros [|b y1] H; simpl in *;
    try discriminate; [reflexivity|].
  f_equal. apply IH. lia.
Qed.

Lemma padd_rev (x y : list R) :
  length x = length y -> rev (padd x y) = padd (rev x) (rev y).
Proof.
  revert y. induction x as [|a x IH]; intros [|b y] H; simpl in *;
    try discriminate; [reflexivity|].
  rewrite IH by lia. rewrite padd_app by (rewrite !length_rev; lia).
  reflexivity.
Qed.

Lemma padd_tl (x y : list R) : tl (padd x y) = padd (tl x) (tl y).
Proof. destruct x, y; simpl; try reflexivity. now destruct x. Qed.

Lemma padd_hd (x y : list R) :
  length x = length y -> hd 0 (padd x y) = hd 0 x + hd 0 y.
Proof. destruct x, y; simpl; intros H; try discriminate; lra. Qed.

Lemma padd_firstn (n : nat) (x y : list R) :
  firstn n (padd x y) = padd (firstn n x) (firstn n y).
Proof.
  revert x y. induction n as [|n IH]; intros [|a x] [|b y]; simpl;
    try reflexivity.
  now rewrite IH.
Qed.

Lemma padd_skipn (n : nat) (x y : list R) :
  length x = length y -> skipn n (padd x y) = padd (skipn n x) (skipn n y).
Proof.
  revert x y. induction n as [|n IH]; intros [|a x] [|b y] H; simpl in *;
    try reflexivity; try discriminate.
  apply IH. lia.
Qed.

Lemma padd_reflect (e1 e2 : R) (x y : list R) :
  map (fun v => Signal.sub O (Signal.mul O (Signal.two O) (e1 + e2)) v) (padd x y)
  = padd (map (fun v => Signal.sub O (Signal.mul O (Signal.two O) e1) v) x)
         (map (fun v => Signal.sub O (Signal.mul O (Signal.two O) e2) v) y).
Proof.
  revert y. induction x as [|a x IH]; intros [|b y]; simpl; try reflexivity.
  rewrite <- IH. f_equal. unfold Signal.two. simpl. ring.
Qed.

Lemma length_padd (x y : list R) :
  length x = length y -> length (padd x y) = length x.
Proof. apply length_zip_with. Qed.

Lemma lfilter_from_add (b a : Signal.Taps R) (z0 z1 w0 w1 : R) (x y : list R) :
  length x = length y ->
  Signal.lfilter_from O b a (z0 + w0) (z1 + w1) (padd x y)
  = padd (Signal.lfilter_from O b a z0 z1 x) (Signal.lfilter_from O b a w0 w1 y).
Proof.
  revert y z0 z1 w0 w1.
  induction x as [|xn x IH]; intros [|yn y] z0 z1 w0 w1 H; simpl in H;
    try discriminate; [reflexivity|].
  cbn [zip_with Signal.lfilter_from]. f_equal.
  - unfold O. simpl. ring.
  - rewrite <- IH by lia. f_equal; unfold O; simpl; ring.
Qed.

Lemma odd_ext_add (x y : list R) (n : nat) :
  length x = length y ->
  Signal.odd_ext O (padd x y) n
  = padd (Signal.odd_ext O x n) (Signal.odd_ext O y n).
Proof.
  intros H. unfold Signal.odd_ext.
  assert (Htl : forall l : list R, length (tl l) = (length l - 1)%nat)
    by (intros [|? ?]; simpl; lia).
  change (Signal.zero O) with 0.
  rewrite padd_rev, !padd_tl, !padd_hd, !padd_firstn
    by (rewrite ?length_rev; assumption).
  rewrite padd_rev by (rewrite !length_firstn, !Htl; lia).
  rewrite !padd_reflect.
  rewrite padd_app
    by (rewrite !length_map, !length_rev, !length_firstn, !Htl; lia).
  f_equal. symmetry. apply padd_app. exact H.
Qed.

Lemma filtfilt_add (b a : Signal.Taps R) (x y : list R) :
  length x = length y ->
  filtfilt b a (padd x y)
  = u <- filtfilt b a x ;; w <- filtfilt b a y ;; Ok (padd u w).
Proof.
  intros H. unfold filtfilt, Signal.filtfilt. fold O.
  rewrite length_padd by exact H. rewrite <- H.
  destruct (Nat.leb_spec (length x) Signal.edge) as [Hle|Hgt]; [reflexivity|].
  destruct (Signal.lfilter_zi O b a) as [[zi0 zi1]|e]; cbn [bind]; [|reflexivity].
  rewrite odd_ext_add by exact H.
  set (ex := Signal.odd_ext O x Signal.edge).
  set (ey := Signal.odd_ext O y Signal.edge).
  assert (Hext : length ex = length ey).
  { subst ex ey. rewrite !length_odd_ext by (rewrite <- ?H; exact Hgt). lia. }
  change (Signal.zero O) with 0.
  rewrite padd_hd by exact Hext. unfold Signal.lfilter.
  replace (Signal.mul O zi0 (hd 0 ex + hd 0 ey))
    with (Signal.mul O zi0 (hd 0 ex) + Signal.mul O zi0 (hd 0 ey))
    by (unfold O; simpl; ring).
  replace (Signal.mul O zi1 (hd 0 ex + hd 0 ey))
    with (Signal.mul O zi1 (hd 0 ex) + Signal.mul O zi1 (hd 0 ey))
    by (unfold O; simpl; ring).
  rewrite lfilter_from_add by exact Hext.
  set (fx := Signal.lfilter_from O _ _ _ _ ex).
  set (fy := Signal.lfilter_from O _ _ _ _ ey).
  assert (Hf : length fx = length fy)
    by (subst fx fy; rewrite !length_lfilter_from; exact Hext).
  rewrite padd_rev by exact Hf.
  rewrite padd_hd by (rewrite !length_rev; exact Hf).
  replace (Signal.mul O zi0 (hd 0 (rev fx) + hd 0 (rev fy)))
    with (Signal.mul O zi0 (hd 0 (rev fx)) + Signal.mul O zi0 (hd 0 (rev fy)))
    by (unfold O; simpl; ring).
  replace (Signal.mul O zi1 (hd 0 (rev fx) + hd 0 (rev fy)))
    with (Signal.mul O zi1 (hd 0 (rev fx)) + Signal.mul O zi1 (hd 0 (rev fy)))
    by (unfold O; simpl; ring).
  rewrite lfilter_from_add by (rewrite !length_rev; exact Hf).
  set (bx := Signal.lfilter_from O _ _ _ _ (rev fx)).
  set (by' := Signal.lfilter_from O _ _ _ _ (rev fy)).
  assert (Hb : length bx = length by')
    by (subst bx by'; rewrite !length_lfilter_from, !length_rev; exact Hf).
  rewrite padd_rev by exact Hb.
  rewrite length_padd by (rewrite !length_rev; exact Hb).
  rewrite padd_skipn by (rewrite !length_rev; exact Hb).
  rewrite padd_firstn.
  rewrite !length_rev, <- Hb. reflexivity.
Qed.

Lemma padd_constant (x : list R) (c : R) :
  padd x (repeat c (length x)) = map (fun v => v + c) x.
Proof. induction x as [|a x IH]; simpl; [reflexivity|now rewrite IH]. Qed.

Lemma padd_zero (x : list R) (n : nat) :
  length x = n -> padd x (repeat 0 n) = x.
Proof.
  intros <-. rewrite padd_constant. rewrite <- (map_id x) at 2.
  apply map_ext. intros. lra.
Qed.

End KernelSum.

Lemma k_weighting_offset (audio : list R) (c sr : R) :
  _k_weighting (map (fun x => x + c) audio) sr = _k_weighting audio sr.
Proof.
  unfold _k_weighting.
  destruct (Nat.le_gt_cases (length audio) 9) as [Hshort|Hlong].
  - unfold filtfilt, Signal.filtfilt. rewrite length_map.
    change Signal.edge with 9%nat.
    destruct (Nat.leb_spec (length audio) 9) as [_|Hgt]; [reflexivity|lia].
  - rewrite <- padd_constant, filtfilt_add by now rewrite repeat_length.
    rewrite (filtfilt_constant _ _ c) by (exact Hlong || (simpl; lra)).
    destruct (filtfilt _ _ audio) as [pre|e] eqn:Epre; cbn [bind]; [|reflexivity].
    apply filtfilt_ok_inv in Epre. destruct Epre as [_ Hpre].
    rewrite <- Hpre.
    rewrite filtfilt_add by now rewrite repeat_length.
    rewrite (filtfilt_constant _ _ _ (length pre)) by ((rewrite Hpre; exact Hlong) || (simpl; lra)).
    destruct (filtfilt _ _ pre) as [kw|e] eqn:Ekw; cbn [bind]; [|reflexivity].
    apply filtfilt_ok_inv in Ekw. destruct Ekw as [_ Hkw].
    f_equal.
    replace (repeat _ (length pre)) with (repeat 0 (length pre)).
    + apply padd_zero. exact Hkw.
    + f_equal. unfold dc_gain. simpl.
      replace (1.0 / 1.0 + -2.0 / 1.0 + 1.0 / 1.0) with 0 by lra.
      unfold Rdiv. ring.
Qed.

(** X17.  The meter does not see an offset.  The second filter of the
    K-weighting has numerator [1, -2, 1], a double zero at zero frequency,
    and the filtering is additive: a buffer and the same buffer with any
    constant added to every sample have the same loudness (and are refused
    alike when they are too short). *)
Theorem loudness_ignores_dc_offset (audio : list R) (c sr : R) :
  _calculate_lufs (map (fun x => x + c) audio) sr = _calculate_lufs audio sr.
Proof.
  unfold _calculate_lufs. now rewrite k_weighting_offset.
Qed.

(** ** Level above full scale *)

Lemma validate_input_rescales (xs : list R) (g : R) :
  1 <= g -> 1 < max_abs xs ->
  _validate_input (map Np.Finite (Np.scale g xs))
  = _validate_input (map Np.Finite xs).
Proof.
  intros Hg Hp.
  assert (Hne : xs <> []) by (intros ->; simpl in Hp; lra).
  assert (Hpg : max_abs (Np.scale g xs) = max_abs xs * g)
    by (apply max_abs_scale; lra).
  rewrite !validate_input_loud; rewrite ?nan_to_num_finite.
  - f_equal. rewrite Hpg. unfold Np.scale. rewrite map_map.
    apply map_ext. intros x. field. lra.
  - destruct xs; [congruence|discriminate].
  - lra.
  - destruct xs; [congruence|discriminate].
  - rewrite Hpg. nra.
Qed.

(** X18.  Above full scale the level of the input does not matter.
    Validation divides a buffer whose peak exceeds [1] by that peak, so a
    buffer and the same buffer raised by any factor [g >= 1] are the same
    to the rest of the call: [master_track] returns the same result and
    leaves the engine in the same state. *)
Theorem level_above_full_scale_is_ignored avg (self : MasteringEngine)
    (xs : list R) (g sr : R) :
  1 <= g ->
  1 < max_abs xs ->
  master_track avg self (map Np.Finite (Np.scale g xs)) sr
  = master_track avg self (map Np.Finite xs) sr.
Proof.
  intros Hg Hp.
  pose proof (validate_input_rescales xs g Hg Hp) as Hv.
  assert (Hne : xs <> []) by (intros ->; simpl in Hp; lra).
  unfold master_track. rewrite Hv.
  destruct xs as [|x xs]; [congruence|reflexivity].
Qed.

(** Ten samples with a peak of [2] and the same samples three times as
    loud: both calls return, and return the same buffer. *)
Lemma level_above_full_scale_is_ignored_witness :
  master_track (fun _ _ => Ok 2000) (__init__ (-14) (-1))
    (map Np.Finite (Np.scale 3 loud10)) 22050
  = master_track (fun _ _ => Ok 2000) (__init__ (-14) (-1))
      (map Np.Finite loud10) 22050
  /\ exists out,
       fst (master_track (fun _ _ => Ok 2000) (__init__ (-14) (-1))
              (map Np.Finite loud10) 22050) = Ok out
       /\ length out = 10%nat.
Proof.
  assert (Hp : 1 < max_abs loud10).
  { eapply Rlt_le_trans; [|apply (max_abs_In loud10 2); now left].
    rewrite Rabs_pos_eq; lra. }
  split.
  - apply level_above_full_scale_is_ignored; [lra|exact Hp].
  - assert (Hne : map Np.Finite loud10 <> []) by discriminate.
    pose proof (validate_input_loud (map Np.Finite loud10) Hne) as Ev.
    rewrite nan_to_num_finite in Ev.
    apply (master_track_returns (fun _ _ => Ok 2000) (__init__ (-14) (-1))
             (map Np.Finite loud10) 22050
             (map (fun x => x / max_abs loud10 * 0.95) loud10) 2000).
    + apply factory_chain_init.
    + apply gains_fixed_init.
    + apply bands_fixed_init.
    + apply Ev. lra.
    + reflexivity.
    + simpl. lia.
    + lra.
Defined.

(** ** The enhancer is a linear filter *)

Lemma filtfilt_refuses (b a : Signal.Taps R) (x : list R) :
  (length x <= 9)%nat ->
  filtfilt b a x
  = Raise (ValueError
             "The length of the input vector x must be greater than padlen, which is 9.").
Proof.
  intros H. unfold filtfilt, Signal.filtfilt. change Signal.edge with 9%nat.
  destruct (Nat.leb_spec (length x) 9) as [_|Hgt]; [reflexivity|lia].
Qed.

Lemma length_delayed (x : list R) :
  length (firstn 22 x ++ firstn (length x - 22) x) = length x.
Proof. rewrite length_app, !length_firstn. lia. Qed.

Lemma mix_add (a b c d : list R) :
  zip_with (fun l r => (l + r) / 2) (zip_with Rplus a b) (zip_with Rplus c d)
  = zip_with Rplus (zip_with (fun l r => (l + r) / 2) a c)
      (zip_with (fun l r => (l + r) / 2) b d).
Proof.
  revert b c d. induction a as [|x a IH]; intros [|y b] [|z c] [|w d]; simpl;
    try reflexivity.
  f_equal; [lra|apply IH].
Qed.

Lemma mix_scale (g : R) (a c : list R) :
  zip_with (fun l r => (l + r) / 2) (Np.scale g a) (Np.scale g c)
  = Np.scale g (zip_with (fun l r => (l + r) / 2) a c).
Proof.
  unfold Np.scale. revert c. induction a as [|x a IH]; intros [|z c]; simpl;
    try reflexivity.
  f_equal; [lra|apply IH].
Qed.

(** X19.  The enhancer is one fixed linear filter: the enhanced sum of two
    buffers of one length is the sum of the enhanced buffers, and a gain
    before the stage is the same gain after it.  Nothing in the stage
    depends on the content of the buffer. *)
Theorem enhance_stereo_is_linear (self : MasteringEngine) (x y : list R) (g : R) :
  factory_chain self ->
  length x = length y ->
  _enhance_stereo self (zip_with Rplus x y)
  = (u <- _enhance_stereo self x ;;
     w <- _enhance_stereo self y ;;
     Ok (zip_with Rplus u w))
  /\ _enhance_stereo self (Np.scale g x)
     = (u <- _enhance_stereo self x ;; Ok (Np.scale g u)).
Proof.
  intros Hf Hxy. rewrite !enhance_stereo_factory by exact Hf. split.
  - rewrite length_zip_with by exact Hxy.
    rewrite !padd_firstn.
    rewrite <- padd_app by (rewrite !length_firstn; lia).
    replace (firstn (length x - 22) y) with (firstn (length y - 22) y)
      by now rewrite Hxy.
    destruct (Nat.le_gt_cases (length x) 9) as [Hshort|Hlong].
    + rewrite (filtfilt_refuses _ _ (zip_with Rplus _ _)).
      * rewrite (filtfilt_refuses _ _ (firstn 22 x ++ _))
          by (rewrite length_delayed; exact Hshort).
        reflexivity.
      * rewrite length_zip_with by (rewrite !length_delayed; exact Hxy).
        rewrite length_delayed. exact Hshort.
    + rewrite !filtfilt_add by (rewrite ?length_delayed; exact Hxy).
      destruct (filtfilt_returns (taps 1.0 0 0) (taps 1.0 (-0.5) 0.1)
                  (firstn 22 x ++ firstn (length x - 22) x) ltac:(simpl; lra))
        as (lx & Elx & _); [rewrite length_delayed; exact Hlong|].
      destruct (filtfilt_returns (taps 1.0 0 0) (taps 1.0 (-0.5) 0.1)
                  (firstn 22 y ++ firstn (length y - 22) y) ltac:(simpl; lra))
        as (ly & Ely & _); [rewrite length_delayed, <- Hxy; exact Hlong|].
      destruct (filtfilt_returns (taps 0.8 (-0.8) 0) (taps 1.0 (-0.7) 0.2) x
                  ltac:(simpl; lra)) as (rx & Erx & _); [exact Hlong|].
      destruct (filtfilt_returns (taps 0.8 (-0.8) 0) (taps 1.0 (-0.7) 0.2) y
                  ltac:(simpl; lra)) as (ry & Ery & _); [rewrite <- Hxy; exact Hlong|].
      rewrite Elx, Ely, Erx, Ery. cbn [bind].
      now rewrite mix_add.
  - unfold Np.scale at 1 2 3 4. rewrite length_map.
    rewrite !firstn_map, <- map_app.
    fold (Np.scale g (firstn 22 x ++ firstn (length x - 22) x)).
    fold (Np.scale g x).
    rewrite !filtfilt_scale.
    destruct (filtfilt _ _ (firstn 22 x ++ _)) as [lx|e]; cbn [bind]; [|reflexivity].
    destruct (filtfilt _ _ x) as [rx|e]; cbn [bind]; [|reflexivity].
    now rewrite mix_scale.
Qed.

(** On the triangle wave and the constant buffer, ten samples each: the
    enhancer returns on both, on their sum it returns the sum, on twice the
    wave twice what it returns on the wave. *)
Lemma enhance_stereo_is_linear_witness :
  exists u w,
    _enhance_stereo (__init__ (-14) (-1)) triangle10 = Ok u
    /\ _enhance_stereo (__init__ (-14) (-1)) dc10 = Ok w
    /\ length u = 10%nat
    /\ _enhance_stereo (__init__ (-14) (-1)) (zip_with Rplus triangle10 dc10)
       = Ok (zip_with Rplus u w)
    /\ _enhance_stereo (__init__ (-14) (-1)) (Np.scale 2 triangle10)
       = Ok (Np.scale 2 u).
Proof.
  pose proof (factory_chain_init (-14) (-1)) as Hf.
  destruct (keeps_length_enhance_stereo _ Hf triangle10) as [Hlen Hu].
  destruct Hu as (u & Hu); [simpl; lia|].
  destruct (keeps_length_enhance_stereo _ Hf dc10) as [_ Hw].
  destruct Hw as (w & Hw); [simpl; lia|].
  destruct (enhance_stereo_is_linear (__init__ (-14) (-1)) triangle10 dc10 2 Hf
              eq_refl) as [Hadd Hscale].
  rewrite Hu, Hw in Hadd. rewrite Hu in Hscale. cbn [bind] in Hadd, Hscale.
  exists u, w. repeat split; try assumption.
  exact (Hlen u Hu).
Defined.


(** * The [sample_rate] argument *)

(** The high shelf placed at the sample rate itself: [w0] is [2 pi], the
    normalized denominator is [1, -2, 1] and [I - A] is singular. *)
Lemma high_shelf_singular (self : MasteringEngine) (audio : list R) (sr : R) :
  (9 < length audio)%nat ->
  0.1 < Rabs (gain (high_shelf (eq_params self))) ->
  freq (high_shelf (eq_params self)) = sr ->
  sr <> 0 ->
  _apply_high_shelf self audio sr = Raise (LinAlgError "Singular matrix").
Proof.
  intros Hn Hg Hfreq Hsr. unfold _apply_high_shelf. cbv zeta.
  destruct (Rlt_dec _ _) as [_|N]; [|contradiction].
  rewrite float_div_ok by exact Hsr. cbn [bind].
  rewrite Hfreq.
  replace (2 * PI * sr / sr) with (2 * PI) by (field; exact Hsr).
  rewrite sin_2PI, cos_2PI.
  set (A := Rpower 10 (gain (high_shelf (eq_params self)) / 40)).
  replace (0 / 2 * sqrt ((A + 1 / A) * (1 / 0.7 - 1) + 2)) with 0
    by (unfold Rdiv; ring).
  apply (filtfilt_singular Signal.R_ops); [exact Hn|].
  apply lfilter_zi_singular. apply biquad_singular; lra.
Qed.

(** Ten samples at [0.5] that the analysis calls dark, on a new engine,
    at 8000 Hz: the peaking filter at 4000 Hz runs, the high shelf at
    8000 Hz raises. *)
Lemma master_track_singular_at_8000 :
  master_track (fun _ _ => Ok 500) (__init__ (-14) (-1)) (map Np.Finite dc10) 8000
  = (Raise (LinAlgError "Singular matrix"),
     set_eq_params (retune 500 _init_eq_params) (__init__ (-14) (-1))).
Proof.
  assert (Ev : _validate_input (map Np.Finite dc10) = Ok dc10).
  { rewrite validate_input_in_range; rewrite ?nan_to_num_finite;
      [reflexivity|discriminate|].
    unfold dc10. rewrite max_abs_repeat by lia. rewrite Rabs_pos_eq; lra. }
  rewrite (master_track_valid _ _ _ _ dc10 500 Ev eq_refl). cbv zeta.
  cbn [eq_params __init__].
  set (self' := set_eq_params (retune 500 _init_eq_params) (__init__ (-14) (-1))).
  assert (He : eq_params self' = set_high_shelf 2.0 (set_high_mid 1.5 _init_eq_params)).
  { unfold self'. cbn [eq_params set_eq_params]. apply retune_dark. lra. }
  rewrite low_shelf_flat
    by (rewrite He; simpl; replace 0.0 with 0 by lra; rewrite Rabs_R0; lra).
  cbn [bind]. unfold _apply_peaking_filters.
  rewrite (peaking_band_flat 8000 (low_mid _))
    by (rewrite He; simpl; replace 0.0 with 0 by lra; rewrite Rabs_R0; lra).
  cbn [bind].
  rewrite (peaking_band_flat 8000 (mid _))
    by (rewrite He; simpl; replace 0.0 with 0 by lra; rewrite Rabs_R0; lra).
  cbn [bind].
  destruct (peaking_band_returns 8000 (high_mid (eq_params self')) dc10)
    as (a3 & -> & L3); rewrite ?He; simpl; try lia; try lra.
  cbn [bind].
  rewrite high_shelf_singular; [reflexivity| | | |lra].
  - rewrite L3. simpl. lia.
  - rewrite He. simpl. rewrite Rabs_pos_eq; lra.
  - rewrite He. simpl. lra.
Qed.

Lemma stages_at_22050 (self : MasteringEngine) (x : list R) :
  factory_chain self ->
  _apply_compression self x = compression_at_22050 x
  /\ _enhance_stereo self x = enhancement_at_22050 x
  /\ _apply_limiting self x = Ok (limiting_at_22050 x).
Proof.
  intros Hf. split; [|split].
  - now apply apply_compression_factory.
  - now apply enhance_stereo_factory.
  - now apply apply_limiting_factory.
Qed.

Lemma stage_outputs_factory (self : MasteringEngine) (x : list R) :
  factory_chain self ->
  stage_outputs self x
  = (compressed <- compression_at_22050 x ;;
     enhanced <- enhancement_at_22050 compressed ;;
     Ok (compressed, enhanced,
         limiting_at_22050 (_apply_harmonic_excitation enhanced))).
Proof.
  intros Hf. unfold stage_outputs.
  destruct (stages_at_22050 self x Hf) as (-> & _ & _).
  destruct (compression_at_22050 x) as [compressed|e]; cbn [bind];
    [|reflexivity].
  destruct (stages_at_22050 self compressed Hf) as (_ & -> & _).
  destruct (enhancement_at_22050 compressed) as [enhanced|e]; cbn [bind];
    [|reflexivity].
  destruct (stages_at_22050 self (_apply_harmonic_excitation enhanced) Hf)
    as (_ & _ & ->).
  reflexivity.
Qed.

Lemma after_eq_stage_outputs (self : MasteringEngine) (audio : list R) (sr : R) :
  after_eq self audio sr
  = (outputs <- stage_outputs self audio ;;
     _normalize_loudness self (snd outputs) sr).
Proof.
  unfold after_eq, stage_outputs.
  destruct (_apply_compression self audio) as [compressed|e]; cbn [bind];
    [|reflexivity].
  destruct (_enhance_stereo self compressed) as [enhanced|e]; cbn [bind];
    [|reflexivity].
  destruct (_apply_limiting self _) as [limited|e]; reflexivity.
Qed.

Lemma multiband_eq_keeps_chain avg (self : MasteringEngine) (audio : list R)
    (sr : R) (r : result (list R)) (engine : MasteringEngine) :
  factory_chain self ->
  _apply_multiband_eq avg self audio sr = (r, engine) ->
  factory_chain engine.
Proof.
  intros Hf. unfold _apply_multiband_eq.
  destruct (avg audio sr) as [c|e]; intros [= _ <-];
    [apply factory_chain_set_eq|]; exact Hf.
Qed.

(** C8, as the code has it.  On an engine built by [__init__] and used
    through [master_track], in a call with any [sample_rate] argument in
    which the equalizer returns a buffer [filtered]: the compressor counts
    220 and 2205 samples, the limiter 110 and 44 and the enhancer 22, the
    counts at 22050 Hz; on every buffer the three stages return what they
    return at 22050 Hz; the call returns the loudness normalizer's result
    on what the three stages return from [filtered]; and every call on the
    same engine and input with another [sample_rate] argument in which the
    equalizer returns the same [filtered] has the same three stage
    outputs.  Calls that differ in the [sample_rate] argument differ in
    these stages only through what the equalizer hands them. *)
Theorem stages_ignore_sample_rate_argument avg (tl tp : R)
    (calls : list (list Np.sample * R)) (audio : list Np.sample)
    (valid filtered : list R) (sr : R) (engine : MasteringEngine) :
  let self := master_run avg (__init__ tl tp) calls in
  _validate_input audio = Ok valid ->
  _apply_multiband_eq avg self valid sr = (Ok filtered, engine) ->
  (Py.int (c_attack (compressor_params engine) * sample_rate engine) = 220%Z
   /\ Py.int (c_release (compressor_params engine) * sample_rate engine) = 2205%Z
   /\ Py.int (l_release (limiter_params engine) * sample_rate engine) = 110%Z
   /\ Py.int (l_lookahead (limiter_params engine) * sample_rate engine) = 44%Z
   /\ Py.int (0.001 * sample_rate engine) = 22%Z)
  /\ (forall x,
        _apply_compression engine x = compression_at_22050 x
        /\ _enhance_stereo engine x = enhancement_at_22050 x
        /\ _apply_limiting engine x = Ok (limiting_at_22050 x))
  /\ master_track avg self audio sr
     = (outputs <- stage_outputs engine filtered ;;
        _normalize_loudness engine (snd outputs) sr,
        engine)
  /\ stage_outputs engine filtered
     = (compressed <- compression_at_22050 filtered ;;
        enhanced <- enhancement_at_22050 compressed ;;
        Ok (compressed, enhanced,
            limiting_at_22050 (_apply_harmonic_excitation enhanced)))
  /\ (forall sr' engine',
        _apply_multiband_eq avg self valid sr' = (Ok filtered, engine') ->
        stage_outputs engine' filtered = stage_outputs engine filtered
        /\ fst (master_track avg self audio sr')
           = (outputs <- stage_outputs engine filtered ;;
              _normalize_loudness engine' (snd outputs) sr')).
Proof.
  intros self Ev Heq.
  assert (Hf : factory_chain self)
    by apply master_run_keeps_chain, factory_chain_init.
  assert (Hf' : factory_chain engine)
    by exact (multiband_eq_keeps_chain _ _ _ _ _ _ Hf Heq).
  assert (Hcall : forall sr' engine',
            _apply_multiband_eq avg self valid sr' = (Ok filtered, engine') ->
            master_track avg self audio sr'
            = (after_eq engine' filtered sr', engine')).
  { intros sr' engine' H. unfold master_track.
    destruct audio as [|s audio]; [discriminate|]. now rewrite Ev, H. }
  split; [|split; [|split; [|split]]].
  - destruct Hf' as (H1 & H2 & H3). rewrite H1, H2, H3.
    simpl c_attack. simpl c_release. simpl l_release. simpl l_lookahead.
    split; [apply attack_samples_default|].
    split; [apply release_samples_default|].
    split; [apply limiter_release_samples_default|].
    split; [apply lookahead_samples_default|apply delay_samples_default].
  - intros x. now apply stages_at_22050.
  - rewrite (Hcall _ _ Heq). now rewrite after_eq_stage_outputs.
  - now apply stage_outputs_factory.
  - intros sr' engine' Heq'.
    assert (Hf'' : factory_chain engine')
      by exact (multiband_eq_keeps_chain _ _ _ _ _ _ Hf Heq').
    assert (E : stage_outputs engine' filtered = stage_outputs engine filtered)
      by now rewrite !stage_outputs_factory.
    split; [exact E|].
    rewrite (Hcall _ _ Heq'). cbn [fst].
    now rewrite after_eq_stage_outputs, E.
Qed.

(** At 48000 Hz, on the triangle wave when the analysis calls it dark:
    the equalizer filters at 48000 Hz, the stages after it run as at
    22050 Hz. *)
Lemma stages_ignore_sample_rate_argument_witness :
  let avg := fun (_ : list R) (_ : R) => Ok 500 in
  let self := master_run avg (__init__ (-14) (-1)) [] in
  exists filtered engine,
    _apply_multiband_eq avg self triangle10 48000 = (Ok filtered, engine)
    /\ length filtered = 10%nat
    /\ gain (high_shelf (eq_params engine)) = 2.0
    /\ Py.int (c_attack (compressor_params engine) * sample_rate engine) = 220%Z
    /\ master_track avg self (map Np.Finite triangle10) 48000
       = (outputs <- stage_outputs engine filtered ;;
          _normalize_loudness engine (snd outputs) 48000,
          engine)
    /\ stage_outputs engine filtered
       = (compressed <- compression_at_22050 filtered ;;
          enhanced <- enhancement_at_22050 compressed ;;
          Ok (compressed, enhanced,
              limiting_at_22050 (_apply_harmonic_excitation enhanced))).
Proof.
  intros avg self.
  set (engine := set_eq_params (retune 500 (eq_params self)) self).
  destruct (eq_filters_return engine 48000 triangle10) as (filtered & E & L).
  - lra.
  - simpl. lia.
  - apply gains_fixed_retune, gains_fixed_init.
  - apply bands_fixed_retune, bands_fixed_init.
  - assert (Heq : _apply_multiband_eq avg self triangle10 48000
                  = (Ok filtered, engine)).
    { unfold _apply_multiband_eq, avg. fold engine. now rewrite E. }
    destruct (stages_ignore_sample_rate_argument avg (-14) (-1) []
                (map Np.Finite triangle10) triangle10 filtered 48000 engine
                validate_triangle10 Heq) as ((H1 & _) & _ & Hcall & Hout & _).
    exists filtered, engine.
    split; [exact Heq|]. split; [exact L|].
    split; [unfold engine; cbn [eq_params set_eq_params];
            rewrite retune_dark by lra; reflexivity|].
    split; [exact H1|]. split; [exact Hcall|exact Hout].
Defined.

(** C8, as stated, fails through the equalizer.  Two calls on a new
    engine whose inputs differ only in the [sample_rate] argument, ten
    samples at [0.5] that the analysis calls dark: at 22050 Hz the call
    returns, the three stages have run; at 8000 Hz the high shelf, placed
    at 8000 Hz, has no initial state, the equalizer raises and the three
    stages never run. *)
Lemma calls_differ_with_sample_rate :
  let avg := fun (_ : list R) (_ : R) => Ok 500 in
  let self := __init__ (-14) (-1) in
  let audio := map Np.Finite dc10 in
  fst (master_track avg self audio 8000) = Raise (LinAlgError "Singular matrix")
  /\ (exists out,
        fst (master_track avg self audio 22050) = Ok out /\ length out = 10%nat)
  /\ ~ (exists out, fst (master_track avg self audio 8000) = Ok out).
Proof.
  intros avg self audio. subst avg self audio.
  rewrite master_track_singular_at_8000. cbn [fst].
  split; [reflexivity|]. split.
  - assert (Ev : _validate_input (map Np.Finite dc10) = Ok dc10).
    { rewrite validate_input_in_range; rewrite ?nan_to_num_finite;
        [reflexivity|discriminate|].
      unfold dc10. rewrite max_abs_repeat by lia. rewrite Rabs_pos_eq; lra. }
    apply (master_track_returns (fun _ _ => Ok 500) (__init__ (-14) (-1))
             (map Np.Finite dc10) 22050 dc10 500).
    + apply factory_chain_init.
    + apply gains_fixed_init.
    + apply bands_fixed_init.
    + exact Ev.
    + reflexivity.
    + simpl. lia.
    + lra.
  - intros (out & Hout). discriminate.
Qed.

(** The mastering thread on the same buffer at 8000 Hz: the error signal
    carries the message of [np.linalg.solve]. *)
Lemma mastering_thread_reports_singular_matrix :
  fst (MasteringThread.run (fun _ _ => Ok 500)
         (MasteringThread.mk (__init__ (-14) (-1)) (map Np.Finite dc10) 8000))
  = [MasteringThread.progress_updated 10;
     MasteringThread.error_occurred "Singular matrix"].
Proof.
  unfold MasteringThread.run.
  cbn [MasteringThread.mastering_engine MasteringThread.audio
       MasteringThread.sample_rate].
  rewrite master_track_singular_at_8000. reflexivity.
Qed.
